(** * libsmu: the per-channel signal generator / measurement state machine

    Shallow embedding of [src/signal.cpp] (class [smu::Signal]).

    Numbers.  A C++ [float] is an IEEE-754 binary32 value and a [double] a
    binary64 value.  Both are embedded as the rational number they denote,
    and every arithmetic operator of the source is the exact operation
    followed by rounding to the type the C++ expression has: [rnd32] for
    [float], [rnd64] for [double], round to nearest, ties to even, with
    gradual underflow.  A [double] handed to [truncf] or [floorf], stored in
    a [float] variable or returned from [get_sample] is converted with
    [rnd32].  [fmod], [truncf], [floorf] and [fabs] are exact in IEEE
    arithmetic and are exact here.  Each operator is rounded on its own
    (no fused multiply-add, no extended precision).

    What the rationals do not have: infinities and NaN.  The exponent range
    is not bounded above in the model, so an operation that overflows in C
    gives a large rational here, and a division by zero gives 0 here.
    Neither raises anything in C.  The results below that speak of sample
    values keep the program away from both: they take the period (and the
    sawtooth divisor) to be nonzero and, where an overflow could change the
    outcome, the generator levels to be at most [2^100] in magnitude.  The
    fields of the record are rationals; a result that needs a field to hold
    a value of its C++ type says so ([is_float], [is_double]).

    Memory.  Source and destination buffers are raw [float*] pointers into
    storage that the caller allocated.  The heap is a finite map from block
    names to arrays; a pointer is a block and an element offset.  An access
    outside a live block is a fault, as are calling an empty [std::function]
    and an invalid [delete[]]. *)

From Stdlib Require Import ZArith NArith QArith Qround Qabs Qpower Lia Lqa.
From stdpp Require Import base option list gmap.

Local Open Scope Q_scope.

(** ** Numeric primitives of <cmath> *)

(** [x < y] as a boolean, the C comparison. *)
Definition Qltb (x y : Q) : bool :=
  (Qnum x * QDen y <? Qnum y * QDen x)%Z.

(** [trunc] / [truncf]: round toward zero. *)
Definition trunc (x : Q) : Z :=
  if (0 <=? Qnum x)%Z then Qfloor x else Qceiling x.

(** [floorf]. *)
Definition floorf (x : Q) : Z := Qfloor x.

(** [fabs]. *)
Definition fabs (x : Q) : Q := Qabs x.

(** [fmod x y]: [x - n*y] where [n] is [x/y] with its fractional part
    truncated; the result has the sign of [x]. *)
Definition fmod (x y : Q) : Q := x - inject_Z (trunc (x / y)) * y.

(** ** IEEE-754 rounding *)

(** Round to the nearest integer, ties to even. *)
Definition rne (x : Q) : Z :=
  let f := Qfloor x in
  match Qcompare (x - inject_Z f) (1 # 2) with
  | Lt => f
  | Gt => (f + 1)%Z
  | Eq => if Z.even f then f else (f + 1)%Z
  end.

(** The binary exponent of a positive rational: [2^(ilog2 x) <= x <
    2^(ilog2 x + 1)]. *)
Definition ilog2 (x : Q) : Z :=
  let l := (Z.log2 (Qnum x) - Z.log2 (Zpos (Qden x)))%Z in
  if Qle_bool (2 ^ l) x then l else (l - 1)%Z.

(** The exponent of the last place of a format with [prec] significant bits
    whose least subnormal is [2^emin]. *)
Definition fexp (prec emin : Z) (x : Q) : Z :=
  Z.max emin (ilog2 x - (prec - 1)).

Definition round_pos (prec emin : Z) (x : Q) : Q :=
  let e := fexp prec emin x in
  inject_Z (rne (x / 2 ^ e)) * 2 ^ e.

(** Rounding to the format, by magnitude and sign.  The result is a
    fraction in lowest terms. *)
Definition rnd (prec emin : Z) (x : Q) : Q :=
  let y := Qred x in
  match Qnum y with
  | Z0 => 0
  | Zpos _ => Qred (round_pos prec emin y)
  | Zneg _ => Qred (- round_pos prec emin (- y))
  end.

(** binary64, the C++ [double]. *)
Definition rnd64 : Q -> Q := rnd 53 (-1074).

(** binary32, the C++ [float]. *)
Definition rnd32 : Q -> Q := rnd 24 (-149).

(** The rational is a value of the type. *)
Definition is_double (x : Q) : Prop := rnd64 x == x.
Definition is_float (x : Q) : Prop := rnd32 x == x.

(** A value with [prec] significant bits and exponent at least [emin]. *)
Definition representable (prec emin : Z) (x : Q) : Prop :=
  exists m E : Z,
    x == inject_Z m * 2 ^ E /\ (Z.abs m < 2 ^ prec)%Z /\ (emin <= E)%Z.

(** The library function the sine generator calls.  It is external to the
    repository, so it is a parameter of the model; it is handed a [double]
    and its result is taken as a [double]. *)
Class Libm := {
  cos : Q -> Q
}.

(** [M_PI] of <cmath>: the [double] nearest to pi. *)
Definition M_PI : Q :=
  rnd64 (314159265358979323846 # 100000000000000000000).

(** ** Memory *)

Inductive fault : Set :=
  | OutOfBounds        (* access outside the pointed-to array *)
  | InvalidPointer     (* null or dangling pointer dereferenced or deleted *)
  | BadFunctionCall.   (* std::bad_function_call: empty std::function called *)

Inductive result (A : Type) : Type :=
  | Ok (a : A)
  | Fault (e : fault).
Arguments Ok {A} a.
Arguments Fault {A} e.

(** Sequencing: the first fault aborts the operation. *)
#[global] Instance result_bind : MBind result := fun A B k r =>
  match r with
  | Ok a => k a
  | Fault e => Fault e
  end.
#[global] Instance result_ret : MRet result := fun A a => Ok a.

(** A non-null [float*]: a block of the heap and an element offset in it. *)
Record ptr : Set := Ptr { p_blk : positive; p_off : Z }.

(** Live arrays.  [delete[]] removes a block. *)
Abbreviation heap := (gmap positive (list Q)).

(** [size_t] is 64 bits wide. *)
Definition SIZE_MOD : N := (2 ^ 64)%N.
Definition size_add (a b : N) : N := ((a + b) mod SIZE_MOD)%N.
Definition size_sub (a b : N) : N := ((a + SIZE_MOD - b mod SIZE_MOD) mod SIZE_MOD)%N.

(** [p[i]] as an rvalue. *)
Definition load (h : heap) (p : option ptr) (i : N) : result Q :=
  match p with
  | None => Fault InvalidPointer
  | Some q =>
    match h !! p_blk q with
    | None => Fault InvalidPointer
    | Some arr =>
      let k := (p_off q + Z.of_N i)%Z in
      if ((k <? 0) || (Z.of_nat (length arr) <=? k))%Z then Fault OutOfBounds
      else match arr !! Z.to_nat k with
           | Some v => Ok v
           | None => Fault OutOfBounds
           end
    end
  end.

(** [*p = v]. *)
Definition store (h : heap) (p : option ptr) (v : Q) : result heap :=
  match p with
  | None => Fault InvalidPointer
  | Some q =>
    match h !! p_blk q with
    | None => Fault InvalidPointer
    | Some arr =>
      let k := p_off q in
      if ((k <? 0) || (Z.of_nat (length arr) <=? k))%Z then Fault OutOfBounds
      else Ok (<[p_blk q := <[Z.to_nat k := v]> arr]> h)
    end
  end.

(** [p++] on a pointer. *)
Definition ptr_incr (p : option ptr) : option ptr :=
  match p with
  | None => None
  | Some q => Some (Ptr (p_blk q) (p_off q + 1))
  end.

(** [delete[] p] for a non-null [p]: the pointer must be the start of a
    live array. *)
Definition delete_array (h : heap) (q : ptr) : result heap :=
  match h !! p_blk q with
  | None => Fault InvalidPointer
  | Some _ =>
    if (p_off q =? 0)%Z then Ok (delete (p_blk q) h) else Fault InvalidPointer
  end.

(** ** The Signal object *)

(** Modelled from the spec: the enumerations [Src] and [Dest] are declared
    in [libsmu/signal.hpp], which is not among the sources; their members
    are the source kinds and destination kinds of the data model, under the
    names [signal.cpp] uses. *)
Inductive Src : Set :=
  | SRC_CONSTANT | SRC_SQUARE | SRC_SAWTOOTH | SRC_STAIRSTEP
  | SRC_SINE | SRC_TRIANGLE | SRC_BUFFER | SRC_CALLBACK.

Inductive Dest : Set :=
  | DEST_DEFAULT | DEST_BUFFER | DEST_CALLBACK.

(** The fields [signal.cpp] reads and writes.  An empty [std::function] is
    [None].  The sink capability [value -> ()] acts on state outside the
    object, kept in the world as a list of values: a sink maps the value it
    is handed and that list to the new list.  The source capability
    [index -> value] is a function of the index alone; a caller's function
    that keeps state of its own, or shares state with the sink, is outside
    the model, and no result below relies on a source callback being
    unaffected by a measurement. *)
Record Signal : Type := mkSignal {
  m_src : Src;
  m_src_v1 : Q;
  m_src_v2 : Q;
  m_src_period : Q;
  m_src_duty : Q;
  m_src_phase : Q;
  m_src_buf : option ptr;
  m_src_i : N;
  m_src_buf_len : N;
  m_src_buf_repeat : bool;
  m_src_callback : option (N -> Q);
  m_dest : Dest;
  m_dest_buf : option ptr;
  m_dest_buf_len : N;
  m_dest_callback : option (Q -> list Q -> list Q);
  m_latest_measurement : Q
}.

(** What a Signal operation can touch outside the object. *)
Record World : Type := mkWorld {
  w_heap : heap;
  w_sink : list Q
}.

(** Field updates, one per assigned member. *)
Definition set_src (s : Signal) (k : Src) : Signal :=
  mkSignal k (m_src_v1 s) (m_src_v2 s) (m_src_period s) (m_src_duty s)
    (m_src_phase s) (m_src_buf s) (m_src_i s) (m_src_buf_len s)
    (m_src_buf_repeat s) (m_src_callback s) (m_dest s) (m_dest_buf s)
    (m_dest_buf_len s) (m_dest_callback s) (m_latest_measurement s).

Definition set_src_v1 (s : Signal) (v : Q) : Signal :=
  mkSignal (m_src s) v (m_src_v2 s) (m_src_period s) (m_src_duty s)
    (m_src_phase s) (m_src_buf s) (m_src_i s) (m_src_buf_len s)
    (m_src_buf_repeat s) (m_src_callback s) (m_dest s) (m_dest_buf s)
    (m_dest_buf_len s) (m_dest_callback s) (m_latest_measurement s).

Definition set_src_v2 (s : Signal) (v : Q) : Signal :=
  mkSignal (m_src s) (m_src_v1 s) v (m_src_period s) (m_src_duty s)
    (m_src_phase s) (m_src_buf s) (m_src_i s) (m_src_buf_len s)
    (m_src_buf_repeat s) (m_src_callback s) (m_dest s) (m_dest_buf s)
    (m_dest_buf_len s) (m_dest_callback s) (m_latest_measurement s).

Definition set_src_period (s : Signal) (v : Q) : Signal :=
  mkSignal (m_src s) (m_src_v1 s) (m_src_v2 s) v (m_src_duty s)
    (m_src_phase s) (m_src_buf s) (m_src_i s) (m_src_buf_len s)
    (m_src_buf_repeat s) (m_src_callback s) (m_dest s) (m_dest_buf s)
    (m_dest_buf_len s) (m_dest_callback s) (m_latest_measurement s).

Definition set_src_duty (s : Signal) (v : Q) : Signal :=
  mkSignal (m_src s) (m_src_v1 s) (m_src_v2 s) (m_src_period s) v
    (m_src_phase s) (m_src_buf s) (m_src_i s) (m_src_buf_len s)
    (m_src_buf_repeat s) (m_src_callback s) (m_dest s) (m_dest_buf s)
    (m_dest_buf_len s) (m_dest_callback s) (m_latest_measurement s).

Definition set_src_phase (s : Signal) (v : Q) : Signal :=
  mkSignal (m_src s) (m_src_v1 s) (m_src_v2 s) (m_src_period s) (m_src_duty s)
    v (m_src_buf s) (m_src_i s) (m_src_buf_len s)
    (m_src_buf_repeat s) (m_src_callback s) (m_dest s) (m_dest_buf s)
    (m_dest_buf_len s) (m_dest_callback s) (m_latest_measurement s).

Definition set_src_buf (s : Signal) (p : option ptr) : Signal :=
  mkSignal (m_src s) (m_src_v1 s) (m_src_v2 s) (m_src_period s) (m_src_duty s)
    (m_src_phase s) p (m_src_i s) (m_src_buf_len s)
    (m_src_buf_repeat s) (m_src_callback s) (m_dest s) (m_dest_buf s)
    (m_dest_buf_len s) (m_dest_callback s) (m_latest_measurement s).

Definition set_src_i (s : Signal) (i : N) : Signal :=
  mkSignal (m_src s) (m_src_v1 s) (m_src_v2 s) (m_src_period s) (m_src_duty s)
    (m_src_phase s) (m_src_buf s) i (m_src_buf_len s)
    (m_src_buf_repeat s) (m_src_callback s) (m_dest s) (m_dest_buf s)
    (m_dest_buf_len s) (m_dest_callback s) (m_latest_measurement s).

Definition set_src_buf_len (s : Signal) (n : N) : Signal :=
  mkSignal (m_src s) (m_src_v1 s) (m_src_v2 s) (m_src_period s) (m_src_duty s)
    (m_src_phase s) (m_src_buf s) (m_src_i s) n
    (m_src_buf_repeat s) (m_src_callback s) (m_dest s) (m_dest_buf s)
    (m_dest_buf_len s) (m_dest_callback s) (m_latest_measurement s).

Definition set_src_buf_repeat (s : Signal) (b : bool) : Signal :=
  mkSignal (m_src s) (m_src_v1 s) (m_src_v2 s) (m_src_period s) (m_src_duty s)
    (m_src_phase s) (m_src_buf s) (m_src_i s) (m_src_buf_len s)
    b (m_src_callback s) (m_dest s) (m_dest_buf s)
    (m_dest_buf_len s) (m_dest_callback s) (m_latest_measurement s).

Definition set_src_callback (s : Signal) (f : option (N -> Q)) : Signal :=
  mkSignal (m_src s) (m_src_v1 s) (m_src_v2 s) (m_src_period s) (m_src_duty s)
    (m_src_phase s) (m_src_buf s) (m_src_i s) (m_src_buf_len s)
    (m_src_buf_repeat s) f (m_dest s) (m_dest_buf s)
    (m_dest_buf_len s) (m_dest_callback s) (m_latest_measurement s).

Definition set_dest (s : Signal) (d : Dest) : Signal :=
  mkSignal (m_src s) (m_src_v1 s) (m_src_v2 s) (m_src_period s) (m_src_duty s)
    (m_src_phase s) (m_src_buf s) (m_src_i s) (m_src_buf_len s)
    (m_src_buf_repeat s) (m_src_callback s) d (m_dest_buf s)
    (m_dest_buf_len s) (m_dest_callback s) (m_latest_measurement s).

Definition set_dest_buf (s : Signal) (p : option ptr) : Signal :=
  mkSignal (m_src s) (m_src_v1 s) (m_src_v2 s) (m_src_period s) (m_src_duty s)
    (m_src_phase s) (m_src_buf s) (m_src_i s) (m_src_buf_len s)
    (m_src_buf_repeat s) (m_src_callback s) (m_dest s) p
    (m_dest_buf_len s) (m_dest_callback s) (m_latest_measurement s).

Definition set_dest_buf_len (s : Signal) (n : N) : Signal :=
  mkSignal (m_src s) (m_src_v1 s) (m_src_v2 s) (m_src_period s) (m_src_duty s)
    (m_src_phase s) (m_src_buf s) (m_src_i s) (m_src_buf_len s)
    (m_src_buf_repeat s) (m_src_callback s) (m_dest s) (m_dest_buf s)
    n (m_dest_callback s) (m_latest_measurement s).

Definition set_dest_callback (s : Signal)
    (f : option (Q -> list Q -> list Q)) : Signal :=
  mkSignal (m_src s) (m_src_v1 s) (m_src_v2 s) (m_src_period s) (m_src_duty s)
    (m_src_phase s) (m_src_buf s) (m_src_i s) (m_src_buf_len s)
    (m_src_buf_repeat s) (m_src_callback s) (m_dest s) (m_dest_buf s)
    (m_dest_buf_len s) f (m_latest_measurement s).

Definition set_latest_measurement (s : Signal) (v : Q) : Signal :=
  mkSignal (m_src s) (m_src_v1 s) (m_src_v2 s) (m_src_period s) (m_src_duty s)
    (m_src_phase s) (m_src_buf s) (m_src_i s) (m_src_buf_len s)
    (m_src_buf_repeat s) (m_src_callback s) (m_dest s) (m_dest_buf s)
    (m_dest_buf_len s) (m_dest_callback s) v.

(** ** Operations of [signal.cpp] *)

(** [Signal::update_phase]. *)
Definition update_phase (s : Signal) (new_period new_phase : Q) : Signal :=
  let s := set_src_phase s new_phase in
  set_src_period s new_period.

(** [Signal::source_constant]. *)
Definition source_constant (s : Signal) (val : Q) : Signal :=
  let s := set_src s SRC_CONSTANT in
  set_src_v1 s val.

(** [Signal::source_square]. *)
Definition source_square (s : Signal) (midpoint peak period duty phase : Q)
    : Signal :=
  let s := set_src s SRC_SQUARE in
  let s := update_phase s period phase in
  let s := set_src_v1 s midpoint in
  let s := set_src_v2 s peak in
  set_src_duty s duty.

(** The four remaining periodic configurations differ in the kind only. *)
Definition source_periodic (k : Src) (s : Signal)
    (midpoint peak period phase : Q) : Signal :=
  let s := set_src s k in
  let s := update_phase s period phase in
  let s := set_src_v1 s midpoint in
  set_src_v2 s peak.

(** [Signal::source_sawtooth]. *)
Definition source_sawtooth := source_periodic SRC_SAWTOOTH.
(** [Signal::source_stairstep]. *)
Definition source_stairstep := source_periodic SRC_STAIRSTEP.
(** [Signal::source_sine]. *)
Definition source_sine := source_periodic SRC_SINE.
(** [Signal::source_triangle]. *)
Definition source_triangle := source_periodic SRC_TRIANGLE.

(** [Signal::source_buffer]. *)
Definition source_buffer (s : Signal) (buf : option ptr) (len : N)
    (repeat : bool) : Signal :=
  let s := set_src s SRC_BUFFER in
  let s := set_src_buf s buf in
  let s := set_src_buf_len s len in
  let s := set_src_buf_repeat s repeat in
  set_src_i s 0%N.

(** [Signal::source_callback]. *)
Definition source_callback (s : Signal) (callback : option (N -> Q)) : Signal :=
  let s := set_src s SRC_CALLBACK in
  let s := set_src_callback s callback in
  set_src_i s 0%N.

(** [Signal::measure_buffer]. *)
Definition measure_buffer (s : Signal) (buf : option ptr) (len : N) : Signal :=
  let s := set_dest s DEST_BUFFER in
  let s := set_dest_buf s buf in
  set_dest_buf_len s len.

(** [Signal::measure_callback]. *)
Definition measure_callback (s : Signal)
    (callback : option (Q -> list Q -> list Q)) : Signal :=
  let s := set_dest s DEST_CALLBACK in
  set_dest_callback s callback.

(** [Signal::put_sample]. *)
Definition put_sample (val : Q) (ws : World * Signal) : result (World * Signal) :=
  let (w, s) := ws in
  let s := set_latest_measurement s val in
  match m_dest s with
  | DEST_BUFFER =>
    if (m_dest_buf_len s =? 0)%N then Ok (w, s)
    else
      h ← store (w_heap w) (m_dest_buf s) val;
      let s := set_dest_buf s (ptr_incr (m_dest_buf s)) in
      let s := set_dest_buf_len s (size_sub (m_dest_buf_len s) 1) in
      Ok (mkWorld h (w_sink w), s)
  | DEST_CALLBACK =>
    match m_dest_callback s with
    | None => Fault BadFunctionCall
    | Some f => Ok (mkWorld (w_heap w) (f val (w_sink w)), s)
    end
  | DEST_DEFAULT => Ok (w, s)
  end.

(** [Signal::~Signal]. *)
Definition destroy (h : heap) (s : Signal) : result heap :=
  match m_src_buf s with
  | Some q => delete_array h q
  | None => Ok h
  end.

(** Lines 153-168 of [get_sample]: the divisor of the sawtooth.  [period]
    and [phase] are doubles; [truncf] takes them converted to [float], and
    the differences are computed in double and stored in [float]
    variables. *)
Definition sawtooth_max_int_phase (period phase : Q) : Q :=
  let int_period := inject_Z (trunc (rnd32 period)) in
  let int_phase := inject_Z (trunc (rnd32 phase)) in
  let frac_period := rnd32 (rnd64 (period - int_period)) in
  let frac_phase := rnd32 (rnd64 (phase - int_phase)) in
  if Qle_bool frac_period frac_phase then rnd32 (int_period - 1) else int_period.

(** The sawtooth branch of [get_sample]. *)
Definition sawtooth_sample (v2 period phase peak_to_peak : Q) : Q :=
  let int_phase := inject_Z (trunc (rnd32 phase)) in
  let max_int_phase := sawtooth_max_int_phase period phase in
  rnd32 (v2 - rnd32 (rnd32 (int_phase / max_int_phase) * peak_to_peak)).

(** [Signal::get_sample]. *)
Definition get_sample `{L : Libm} (h : heap) (s : Signal) : result (Q * Signal) :=
  match m_src s with
  | SRC_CONSTANT => Ok (m_src_v1 s, s)
  | SRC_BUFFER =>
    if (m_src_buf_len s <=? m_src_i s)%N then
      if m_src_buf_repeat s then
        let s := set_src_i s 0%N in
        v ← load h (m_src_buf s) (m_src_i s);
        Ok (v, set_src_i s (size_add (m_src_i s) 1))
      else
        v ← load h (m_src_buf s) (size_sub (m_src_buf_len s) 1);
        Ok (v, s)
    else
      v ← load h (m_src_buf s) (m_src_i s);
      Ok (v, set_src_i s (size_add (m_src_i s) 1))
  | SRC_CALLBACK =>
    match m_src_callback s with
    | None => Fault BadFunctionCall
    | Some f => Ok (f (m_src_i s), set_src_i s (size_add (m_src_i s) 1))
    end
  | SRC_SQUARE | SRC_SAWTOOTH | SRC_SINE | SRC_STAIRSTEP | SRC_TRIANGLE =>
    let peak_to_peak := rnd32 (m_src_v2 s - m_src_v1 s) in
    let phase := m_src_phase s in
    let norm_phase := rnd64 (phase / m_src_period s) in
    let norm_phase :=
      if Qltb norm_phase 0 then rnd64 (norm_phase + 1) else norm_phase in
    let s := set_src_phase s (fmod (rnd64 (m_src_phase s + 1)) (m_src_period s)) in
    match m_src s with
    | SRC_SQUARE =>
      Ok (if Qltb norm_phase (m_src_duty s) then m_src_v1 s else m_src_v2 s, s)
    | SRC_SAWTOOTH =>
      Ok (sawtooth_sample (m_src_v2 s) (m_src_period s) phase peak_to_peak, s)
    | SRC_STAIRSTEP =>
      Ok (rnd32 (m_src_v2 s
                 - rnd32 (rnd32 (inject_Z (floorf (rnd32 (rnd64 (norm_phase * 10))))
                                 * peak_to_peak) / 9)), s)
    | SRC_SINE =>
      Ok (rnd32 (rnd64 (m_src_v1 s
                        + rnd64 (rnd64 (rnd64 (1 + cos (rnd64 (rnd64 (norm_phase * 2) * M_PI)))
                                        * peak_to_peak) / 2))), s)
    | SRC_TRIANGLE =>
      Ok (rnd32 (rnd64 (m_src_v1 s
                        + rnd64 (fabs (rnd64 (1 - rnd64 (norm_phase * 2)))
                                 * peak_to_peak))), s)
    | _ => Ok (0, s)
    end
  end.

(** [n] consecutive calls of [get_sample] without reconfiguration: the
    object they leave behind. *)
Fixpoint calls `{L : Libm} (n : nat) (h : heap) (s : Signal) : result Signal :=
  match n with
  | O => Ok s
  | S n' => '(_, s') ← get_sample h s; calls n' h s'
  end.

(** The value returned by call number [n], counting from 0. *)
Fixpoint nth_sample `{L : Libm} (n : nat) (h : heap) (s : Signal) : result Q :=
  '(v, s') ← get_sample h s;
  match n with
  | O => Ok v
  | S n' => nth_sample n' h s'
  end.

(** One [put_sample] per value, in list order, as the production loop
    issues them. *)
Fixpoint put_samples (vals : list Q) (ws : World * Signal)
    : result (World * Signal) :=
  match vals with
  | [] => Ok ws
  | v :: vs => ws' ← put_sample v ws; put_samples vs ws'
  end.

(** The fields a source kind reads in [get_sample]: two objects that agree
    on them are the same source. *)
Definition same_source (s t : Signal) : Prop :=
  m_src s = m_src t /\
  match m_src s with
  | SRC_CONSTANT => m_src_v1 s = m_src_v1 t
  | SRC_SQUARE =>
    m_src_v1 s = m_src_v1 t /\ m_src_v2 s = m_src_v2 t /\
    m_src_period s = m_src_period t /\ m_src_duty s = m_src_duty t /\
    m_src_phase s = m_src_phase t
  | SRC_SAWTOOTH | SRC_STAIRSTEP | SRC_SINE | SRC_TRIANGLE =>
    m_src_v1 s = m_src_v1 t /\ m_src_v2 s = m_src_v2 t /\
    m_src_period s = m_src_period t /\ m_src_phase s = m_src_phase t
  | SRC_BUFFER =>
    m_src_buf s = m_src_buf t /\ m_src_i s = m_src_i t /\
    m_src_buf_len s = m_src_buf_len t /\
    m_src_buf_repeat s = m_src_buf_repeat t
  | SRC_CALLBACK =>
    m_src_callback s = m_src_callback t /\ m_src_i s = m_src_i t
  end.

(** ** Views of the periodic branch of [get_sample] *)

Definition is_periodic (k : Src) : bool :=
  match k with
  | SRC_SQUARE | SRC_SAWTOOTH | SRC_SINE | SRC_STAIRSTEP | SRC_TRIANGLE => true
  | _ => false
  end.

(** Lines 143-145: the normalised phase the waveforms are evaluated at. *)
Definition norm_phase (phase period : Q) : Q :=
  let n := rnd64 (phase / period) in
  if Qltb n 0 then rnd64 (n + 1) else n.

(** Line 146: the phase one call later. *)
Definition next_phase (phase period : Q) : Q :=
  fmod (rnd64 (phase + 1)) period.

(** Lines 148-183: the value of each waveform, from the parameters, the
    phase read at entry and its normalised form. *)
Definition wave_value `{L : Libm} (k : Src) (v1 v2 period duty phase np : Q) : Q :=
  let peak_to_peak := rnd32 (v2 - v1) in
  match k with
  | SRC_SQUARE => if Qltb np duty then v1 else v2
  | SRC_SAWTOOTH => sawtooth_sample v2 period phase peak_to_peak
  | SRC_STAIRSTEP =>
    rnd32 (v2 - rnd32 (rnd32 (inject_Z (floorf (rnd32 (rnd64 (np * 10))))
                              * peak_to_peak) / 9))
  | SRC_SINE =>
    rnd32 (rnd64 (v1 + rnd64 (rnd64 (rnd64 (1 + cos (rnd64 (rnd64 (np * 2) * M_PI)))
                                      * peak_to_peak) / 2)))
  | SRC_TRIANGLE =>
    rnd32 (rnd64 (v1 + rnd64 (fabs (rnd64 (1 - rnd64 (np * 2))) * peak_to_peak)))
  | _ => 0
  end.

(** The value a periodic source with stored phase [phase] returns. *)
Definition wave_at `{L : Libm} (s : Signal) (phase : Q) : Q :=
  wave_value (m_src s) (m_src_v1 s) (m_src_v2 s) (m_src_period s)
    (m_src_duty s) phase (norm_phase phase (m_src_period s)).

(** The stored phase after [n] calls. *)
Fixpoint phase_after (n : nat) (phase period : Q) : Q :=
  match n with
  | O => phase
  | S n' => phase_after n' (next_phase phase period) period
  end.

(** The generator levels are far from the overflow threshold of [float]. *)
Definition levels_bounded (s : Signal) : Prop :=
  Qabs (m_src_v1 s) <= 2 ^ 100 /\ Qabs (m_src_v2 s) <= 2 ^ 100.

(** ** The waveform rules as the specification words them *)

(** The specification's formulas are evaluated like the program's: every
    operator rounded to the type of its C++ expression.  What differs is
    what the words say: the phase is reduced modulo the period first, and
    the sawtooth takes the floor and the fractional part of the stored
    phase and period themselves. *)

(** "[norm_phase = ((phase mod period) / period)], wrapped into [[0,1)]". *)
Definition spec_norm_phase (phase period : Q) : Q :=
  let r := rnd64 (fmod phase period / period) in
  if Qltb r 0 then rnd64 (r + 1) else r.

(** "Square: [midpoint] if [norm_phase < duty] else [peak]". *)
Definition spec_square (midpoint peak period duty phase : Q) : Q :=
  if Qltb (spec_norm_phase phase period) duty then midpoint else peak.

(** The fractional part left by the floor. *)
Definition frac (x : Q) : Q := x - inject_Z (Qfloor x).

(** "Sawtooth: if [frac(period) <= frac(phase)] the maximum reachable
    integer phase is [floor(period) - 1], else [floor(period)]; output
    [= peak - (floor(phase) / max_int_phase) (peak - midpoint)]". *)
Definition spec_max_int_phase (period phase : Q) : Q :=
  if Qle_bool (frac period) (frac phase)
  then inject_Z (Qfloor period) - 1
  else inject_Z (Qfloor period).


(** "Triangle: [midpoint + |1 - 2 norm_phase| (peak - midpoint)]". *)
Definition spec_triangle (midpoint peak np : Q) : Q :=
  rnd32 (rnd64 (midpoint
                + rnd64 (Qabs (rnd64 (1 - rnd64 (2 * np))) * rnd32 (peak - midpoint)))).

(** ** Concrete objects on which the model is run *)

(** A coarse stand-in for the library cosine: a Taylor polynomial, rounded
    to a [double]. *)
Definition libm_coarse : Libm :=
  {| cos := fun x => rnd64 (1 - x * x / 2 + x * x * x * x / 24) |}.

(** A Signal with a constant source, no destination and no buffers. *)
Definition idle_signal : Signal :=
  mkSignal SRC_CONSTANT 0 0 0 0 0 None 0%N 0%N false None
           DEST_DEFAULT None 0%N None 0.


(** * Properties *)

(** ** Arithmetic of the <cmath> primitives *)

Section Numeric.

Lemma Qltb_lt (x y : Q) : Qltb x y = true <-> x < y.
Proof. unfold Qltb, Qlt. apply Z.ltb_lt. Qed.

Lemma Qltb_ge (x y : Q) : Qltb x y = false <-> y <= x.
Proof. unfold Qltb, Qle. apply Z.ltb_ge. Qed.

#[global] Instance Qltb_proper : Proper (Qeq ==> Qeq ==> eq) Qltb.
Proof.
  intros x x' Hx y y' Hy.
  destruct (Qltb x y) eqn:E, (Qltb x' y') eqn:E'; try reflexivity.
  - apply Qltb_lt in E. apply Qltb_ge in E'. rewrite Hx, Hy in E. lra.
  - apply Qltb_ge in E. apply Qltb_lt in E'. rewrite Hx, Hy in E. lra.
Qed.

Lemma Qle_bool_false (x y : Q) : Qle_bool x y = false <-> y < x.
Proof.
  split; intros H.
  - destruct (Qlt_le_dec y x) as [L | L]; [exact L |].
    apply Qle_bool_iff in L. congruence.
  - destruct (Qle_bool x y) eqn:E; [| reflexivity].
    apply Qle_bool_iff in E. lra.
Qed.

Lemma Qnum_nonneg (x : Q) : (0 <=? Qnum x)%Z = true <-> 0 <= x.
Proof.
  rewrite Z.leb_le. unfold Qle. simpl. rewrite Z.mul_1_r. reflexivity.
Qed.

Lemma trunc_nonneg (x : Q) : 0 <= x -> trunc x = Qfloor x.
Proof. intros H. unfold trunc. apply Qnum_nonneg in H. now rewrite H. Qed.

Lemma trunc_neg (x : Q) : x < 0 -> trunc x = Qceiling x.
Proof.
  intros H. unfold trunc.
  destruct (0 <=? Qnum x)%Z eqn:E; [| reflexivity].
  apply Qnum_nonneg in E. lra.
Qed.

#[global] Instance trunc_proper : Proper (Qeq ==> eq) trunc.
Proof.
  intros x y E. destruct (Qlt_le_dec x 0) as [L | L].
  - assert (y < 0) as L' by (rewrite <- E; exact L).
    rewrite (trunc_neg x L), (trunc_neg y L'). now apply Qceiling_comp.
  - assert (0 <= y) as L' by (rewrite <- E; exact L).
    rewrite (trunc_nonneg x L), (trunc_nonneg y L'). now apply Qfloor_comp.
Qed.

#[global] Instance fmod_proper : Proper (Qeq ==> Qeq ==> Qeq) fmod.
Proof.
  intros x x' Hx y y' Hy. unfold fmod.
  assert (trunc (x / y) = trunc (x' / y')) as T.
  { apply trunc_proper. now rewrite Hx, Hy. }
  rewrite T, Hx, Hy. reflexivity.
Qed.

(** The floor is the only integer [z] with [z <= x < z + 1]. *)
Lemma Qfloor_unique (x : Q) (z : Z) :
  inject_Z z <= x -> x < inject_Z z + 1 -> Qfloor x = z.
Proof.
  intros Hlo Hhi.
  pose proof (Qfloor_le x) as Fl. pose proof (Qlt_floor x) as Fh.
  rewrite inject_Z_plus in Fh. change (inject_Z 1) with 1 in Fh.
  assert (inject_Z (Qfloor x) < inject_Z (z + 1)) as A.
  { rewrite inject_Z_plus. change (inject_Z 1) with 1. lra. }
  assert (inject_Z z < inject_Z (Qfloor x + 1)) as B.
  { rewrite inject_Z_plus. change (inject_Z 1) with 1. lra. }
  rewrite <- Zlt_Qlt in A, B. lia.
Qed.

(** Truncation leaves a remainder of magnitude below one, with the sign
    of the argument. *)
Lemma trunc_remainder_nonneg (x : Q) :
  0 <= x -> 0 <= x - inject_Z (trunc x) /\ x - inject_Z (trunc x) < 1.
Proof.
  intros H. rewrite (trunc_nonneg x H).
  pose proof (Qfloor_le x) as Fl. pose proof (Qlt_floor x) as Fh.
  rewrite inject_Z_plus in Fh. change (inject_Z 1) with 1 in Fh.
  split; lra.
Qed.

Lemma trunc_remainder_neg (x : Q) :
  x < 0 -> -1 < x - inject_Z (trunc x) /\ x - inject_Z (trunc x) <= 0.
Proof.
  intros H. rewrite (trunc_neg x H).
  pose proof (Qle_ceiling x) as Cl. pose proof (Qceiling_lt x) as Ch.
  unfold Z.sub in Ch. rewrite inject_Z_plus, inject_Z_opp in Ch.
  change (inject_Z 1) with 1 in Ch.
  split; lra.
Qed.

(** [fmod x y] is [y] times the remainder of truncating [x / y]. *)
Lemma fmod_as_remainder (x y : Q) :
  ~ y == 0 -> fmod x y == (x / y - inject_Z (trunc (x / y))) * y.
Proof. intros Hy. unfold fmod. field. exact Hy. Qed.

Lemma fmod_abs_lt (x y : Q) : 0 < y -> Qabs (fmod x y) < y.
Proof.
  intros Hy. rewrite fmod_as_remainder by lra.
  set (q := x / y). rewrite Qabs_Qmult. rewrite (Qabs_pos y) by lra.
  assert (Qabs (q - inject_Z (trunc q)) < 1) as A.
  { destruct (Qlt_le_dec q 0) as [L | L].
    - destruct (trunc_remainder_neg q L) as [R1 R2].
      apply Qabs_Qlt_condition. split; lra.
    - destruct (trunc_remainder_nonneg q L) as [R1 R2].
      apply Qabs_Qlt_condition. split; lra. }
  apply Qlt_le_trans with (1 * y); [| lra].
  apply Qmult_lt_compat_r; assumption.
Qed.

Lemma fmod_small (x y : Q) : 0 <= x -> x < y -> fmod x y == x.
Proof.
  intros Hx Hy. unfold fmod.
  assert (0 <= x / y) as Q0.
  { apply Qle_shift_div_l; lra. }
  assert (x / y < 1) as Q1.
  { apply Qlt_shift_div_r; lra. }
  rewrite (trunc_nonneg _ Q0).
  rewrite (Qfloor_unique (x / y) 0) by (change (inject_Z 0) with 0; lra).
  ring.
Qed.

End Numeric.

(** ** Rounding *)

Section Pow2.

Lemma pow2_pos (e : Z) : 0 < 2 ^ e.
Proof. apply Qpower_0_lt. reflexivity. Qed.

Lemma pow2_add (a b : Z) : 2 ^ (a + b) == 2 ^ a * 2 ^ b.
Proof. apply Qpower_plus. discriminate. Qed.

Lemma pow2_le (a b : Z) : (a <= b)%Z -> 2 ^ a <= 2 ^ b.
Proof. intros H. apply Qpower_le_compat_l; [exact H | discriminate]. Qed.

Lemma pow2_lt_inv (a b : Z) : 2 ^ a < 2 ^ b -> (a < b)%Z.
Proof. intros H. apply (Qpower_lt_compat_l_inv 2); [exact H | reflexivity]. Qed.

Lemma pow2_inject (n : Z) : (0 <= n)%Z -> inject_Z (2 ^ n) == 2 ^ n.
Proof. intros H. now apply Zpower_Qpower. Qed.

Lemma pow2_succ (a : Z) : 2 ^ (a + 1) == 2 * 2 ^ a.
Proof. rewrite pow2_add. change (2 ^ 1) with 2. ring. Qed.

(** Scaling by a power of two and back. *)
Lemma pow2_div_mul (x : Q) (e : Z) : x / 2 ^ e * 2 ^ e == x.
Proof. field. pose proof (pow2_pos e). lra. Qed.

Lemma pow2_div (a b : Z) : 2 ^ a / 2 ^ b == 2 ^ (a - b).
Proof.
  unfold Z.sub. rewrite pow2_add, Qpower_opp. reflexivity.
Qed.

End Pow2.

Section Rne.

Lemma rne_floor (x : Q) : (Qfloor x <= rne x <= Qfloor x + 1)%Z.
Proof.
  unfold rne. destruct (Qcompare _ _); [destruct (Z.even _) | |]; lia.
Qed.

Lemma rne_Z (z : Z) : rne (inject_Z z) = z.
Proof.
  unfold rne. rewrite Qfloor_Z.
  replace (Qcompare (inject_Z z - inject_Z z) (1 # 2)) with Lt; [reflexivity |].
  symmetry. apply Qlt_alt.
  assert (inject_Z z - inject_Z z == 0) as -> by ring. reflexivity.
Qed.

Lemma rne_mono (x y : Q) : x <= y -> (rne x <= rne y)%Z.
Proof.
  intros H. pose proof (Qfloor_resp_le x y H) as F.
  pose proof (rne_floor x) as Rx. pose proof (rne_floor y) as Ry.
  destruct (Z.eq_dec (Qfloor x) (Qfloor y)) as [E | NE]; [| lia].
  unfold rne. rewrite <- E.
  destruct (Qcompare (x - inject_Z (Qfloor x)) (1 # 2)) eqn:Cx,
           (Qcompare (y - inject_Z (Qfloor x)) (1 # 2)) eqn:Cy;
    try (destruct (Z.even (Qfloor x))); try lia; exfalso;
    repeat match goal with
    | C : Qcompare _ _ = Eq |- _ => apply Qeq_alt in C
    | C : Qcompare _ _ = Lt |- _ => apply Qlt_alt in C
    | C : Qcompare _ _ = Gt |- _ => apply Qgt_alt in C
    end;
    generalize dependent (inject_Z (Qfloor x)); intros; lra.
Qed.

Lemma rne_le (x : Q) (z : Z) : x <= inject_Z z -> (rne x <= z)%Z.
Proof. intros H. rewrite <- (rne_Z z). now apply rne_mono. Qed.

Lemma rne_ge (x : Q) (z : Z) : inject_Z z <= x -> (z <= rne x)%Z.
Proof. intros H. rewrite <- (rne_Z z). now apply rne_mono. Qed.

Lemma rne_eq (x : Q) (z : Z) : x == inject_Z z -> rne x = z.
Proof.
  intros H. apply Z.le_antisymm; [apply rne_le | apply rne_ge]; lra.
Qed.

End Rne.

Section Ilog2.

Lemma ilog2_spec (x : Q) :
  0 < x -> 2 ^ ilog2 x <= x /\ x < 2 ^ (ilog2 x + 1).
Proof.
  intros Hx. destruct x as [n d]. unfold ilog2. cbn [Qnum Qden].
  assert (0 < n)%Z as Hn.
  { unfold Qlt in Hx. simpl in Hx. lia. }
  set (a := Z.log2 n). set (b := Z.log2 (Zpos d)).
  destruct (Z.log2_spec n Hn) as [A0 A1]. fold a in A0, A1.
  destruct (Z.log2_spec (Zpos d) ltac:(lia)) as [B0 B1]. fold b in B0, B1.
  assert (0 <= a)%Z as Ha by apply Z.log2_nonneg.
  assert (0 <= b)%Z as Hb by apply Z.log2_nonneg.
  assert (n # d == inject_Z n / inject_Z (Zpos d)) as E by apply Qmake_Qdiv.
  assert (0 < inject_Z (Zpos d)) as Dp by reflexivity.
  assert (2 ^ a <= inject_Z n) as QA0
    by (rewrite <- pow2_inject by lia; now rewrite <- Zle_Qle).
  assert (inject_Z n < 2 ^ (a + 1)) as QA1
    by (rewrite <- pow2_inject by lia; rewrite <- Zlt_Qlt; now rewrite <- Z.add_1_r in A1).
  assert (2 ^ b <= inject_Z (Zpos d)) as QB0
    by (rewrite <- pow2_inject by lia; now rewrite <- Zle_Qle).
  assert (inject_Z (Zpos d) < 2 ^ (b + 1)) as QB1
    by (rewrite <- pow2_inject by lia; rewrite <- Zlt_Qlt; now rewrite <- Z.add_1_r in B1).
  pose proof (pow2_pos (a - b)) as P0.
  pose proof (pow2_pos (a - b - 1)) as P1.
  pose proof (pow2_pos b) as Pb.
  destruct (Qle_bool (2 ^ (a - b)) (n # d)) eqn:C.
  - apply Qle_bool_iff in C. split; [exact C |].
    rewrite E. apply Qlt_shift_div_r; [exact Dp |].
    apply Qlt_le_trans with (2 ^ (a + 1)); [exact QA1 |].
    replace (a + 1)%Z with ((a - b + 1) + b)%Z by lia.
    rewrite pow2_add. apply Qmult_le_l; [apply pow2_pos | exact QB0].
  - split.
    + rewrite E. apply Qle_shift_div_l; [exact Dp |].
      apply Qle_trans with (2 ^ a); [| exact QA0].
      replace a with ((a - b - 1) + (b + 1))%Z at 2 by lia.
      rewrite pow2_add. apply Qmult_le_l; [apply pow2_pos | lra].
    + replace (a - b - 1 + 1)%Z with (a - b)%Z by lia.
      destruct (Qlt_le_dec (n # d) (2 ^ (a - b))) as [L | L]; [exact L |].
      apply Qle_bool_iff in L. congruence.
Qed.

Lemma ilog2_lt (x : Q) (k : Z) : 0 < x -> x < 2 ^ k -> (ilog2 x < k)%Z.
Proof.
  intros Hx H. destruct (ilog2_spec x Hx) as [A _].
  apply pow2_lt_inv. lra.
Qed.

Lemma ilog2_ge (x : Q) (k : Z) : 0 < x -> 2 ^ k <= x -> (k <= ilog2 x)%Z.
Proof.
  intros Hx H. destruct (ilog2_spec x Hx) as [_ A].
  assert (2 ^ k < 2 ^ (ilog2 x + 1)) as L by lra.
  apply pow2_lt_inv in L. lia.
Qed.

Lemma ilog2_mono (x y : Q) : 0 < x -> x <= y -> (ilog2 x <= ilog2 y)%Z.
Proof.
  intros Hx H. destruct (ilog2_spec x Hx) as [A _].
  apply ilog2_ge; lra.
Qed.

End Ilog2.

Section Round.
Variables prec emin : Z.
Hypothesis prec_pos : (0 < prec)%Z.

Lemma fexp_ge (x : Q) : (emin <= fexp prec emin x)%Z.
Proof. unfold fexp. lia. Qed.

(** The scaled argument has at most [prec] integer bits. *)
Lemma scaled_lt (x : Q) :
  0 < x -> x / 2 ^ fexp prec emin x < 2 ^ prec.
Proof.
  intros Hx. destruct (ilog2_spec x Hx) as [_ U].
  apply Qlt_shift_div_r; [apply pow2_pos |].
  rewrite <- pow2_add.
  apply Qlt_le_trans with (2 ^ (ilog2 x + 1)); [exact U |].
  apply pow2_le. unfold fexp. lia.
Qed.

Lemma scaled_ge (x : Q) :
  0 < x -> (emin < fexp prec emin x)%Z ->
  2 ^ (prec - 1) <= x / 2 ^ fexp prec emin x.
Proof.
  intros Hx He. destruct (ilog2_spec x Hx) as [Lo _].
  apply Qle_shift_div_l; [apply pow2_pos |].
  rewrite <- pow2_add.
  apply Qle_trans with (2 ^ ilog2 x); [| exact Lo].
  apply pow2_le. unfold fexp in *. lia.
Qed.

Lemma rne_scaled_le (x : Q) :
  0 < x -> (0 <= rne (x / 2 ^ fexp prec emin x) <= 2 ^ prec)%Z.
Proof.
  intros Hx. pose proof (scaled_lt x Hx) as S.
  split.
  - apply rne_ge. change (inject_Z 0) with 0.
    apply Qle_shift_div_l; [apply pow2_pos |]. lra.
  - apply rne_le. rewrite pow2_inject by lia. lra.
Qed.

Lemma round_pos_nonneg (x : Q) : 0 < x -> 0 <= round_pos prec emin x.
Proof.
  intros Hx. unfold round_pos. cbv zeta.
  destruct (rne_scaled_le x Hx) as [A _].
  apply Qmult_le_0_compat.
  - change 0 with (inject_Z 0). now rewrite <- Zle_Qle.
  - apply Qlt_le_weak, pow2_pos.
Qed.

Lemma round_pos_le (x : Q) :
  0 < x -> round_pos prec emin x <= 2 ^ (prec + fexp prec emin x).
Proof.
  intros Hx. unfold round_pos. cbv zeta.
  destruct (rne_scaled_le x Hx) as [_ A].
  rewrite pow2_add. apply Qmult_le_compat_r.
  - rewrite <- (pow2_inject prec) by lia. now rewrite <- Zle_Qle.
  - apply Qlt_le_weak, pow2_pos.
Qed.

Lemma round_pos_compat (x y : Q) :
  0 < x -> x == y -> round_pos prec emin x == round_pos prec emin y.
Proof.
  intros Hx E. assert (0 < y) as Hy by (rewrite <- E; exact Hx).
  assert (ilog2 x = ilog2 y) as I.
  { apply Z.le_antisymm; apply ilog2_mono; try assumption; rewrite E; apply Qle_refl. }
  unfold round_pos, fexp. cbv zeta. rewrite I.
  set (e := Z.max emin (ilog2 y - (prec - 1))).
  assert (rne (x / 2 ^ e) = rne (y / 2 ^ e)) as R.
  { apply Z.le_antisymm; apply rne_mono; rewrite E; apply Qle_refl. }
  rewrite R. reflexivity.
Qed.

Lemma round_pos_mono (x y : Q) :
  0 < x -> x <= y -> round_pos prec emin x <= round_pos prec emin y.
Proof.
  intros Hx H. assert (0 < y) as Hy by lra.
  pose proof (ilog2_mono x y Hx H) as I.
  assert (fexp prec emin x <= fexp prec emin y)%Z as E by (unfold fexp; lia).
  destruct (Z.eq_dec (fexp prec emin x) (fexp prec emin y)) as [EQ | NE].
  - unfold round_pos. cbv zeta. rewrite EQ.
    apply Qmult_le_compat_r; [| apply Qlt_le_weak, pow2_pos].
    rewrite <- Zle_Qle. apply rne_mono.
    apply Qmult_le_compat_r; [exact H |].
    apply Qlt_le_weak, Qinv_lt_0_compat, pow2_pos.
  - apply Qle_trans with (2 ^ (prec + fexp prec emin x));
      [now apply round_pos_le |].
    assert (emin < fexp prec emin y)%Z as G.
    { pose proof (fexp_ge x). lia. }
    pose proof (scaled_ge y Hy G) as S.
    unfold round_pos. cbv zeta.
    set (ey := fexp prec emin y) in *. set (ex := fexp prec emin x) in *.
    apply Qle_trans with (2 ^ (prec - 1) * 2 ^ ey).
    + rewrite <- pow2_add. apply pow2_le. lia.
    + apply Qmult_le_compat_r; [| apply Qlt_le_weak, pow2_pos].
      rewrite <- (pow2_inject (prec - 1)) by lia. rewrite <- Zle_Qle.
      apply rne_ge. rewrite pow2_inject by lia. exact S.
Qed.

(** A representable value is left alone. *)
Lemma round_pos_exact (x : Q) (m E : Z) :
  x == inject_Z m * 2 ^ E -> (0 < m < 2 ^ prec)%Z -> (emin <= E)%Z ->
  round_pos prec emin x == x.
Proof.
  intros Hx Hm HE.
  assert (0 < inject_Z m) as M0.
  { change 0 with (inject_Z 0). rewrite <- Zlt_Qlt. lia. }
  assert (inject_Z m < 2 ^ prec) as M1.
  { rewrite <- (pow2_inject prec) by lia. rewrite <- Zlt_Qlt. lia. }
  pose proof (pow2_pos E) as PE.
  assert (0 < x) as X0.
  { rewrite Hx. apply Qmult_lt_0_compat; assumption. }
  assert (x < 2 ^ (prec + E)) as X1.
  { rewrite Hx, pow2_add. apply Qmult_lt_compat_r; assumption. }
  pose proof (ilog2_lt x _ X0 X1) as I.
  unfold round_pos. cbv zeta.
  set (e := fexp prec emin x).
  assert (e <= E)%Z as LE by (unfold e, fexp; lia).
  assert (x / 2 ^ e == inject_Z (m * 2 ^ (E - e))) as S.
  { rewrite inject_Z_mult, pow2_inject by lia.
    rewrite Hx, <- pow2_div. field.
    pose proof (pow2_pos e). lra. }
  rewrite (rne_eq _ _ S), <- S. apply pow2_div_mul.
Qed.

Lemma round_pos_representable (x : Q) :
  0 < x -> representable prec emin (round_pos prec emin x).
Proof.
  intros Hx. destruct (rne_scaled_le x Hx) as [A B].
  unfold round_pos. cbv zeta.
  set (e := fexp prec emin x) in *. set (m := rne (x / 2 ^ e)) in *.
  destruct (Z.eq_dec m (2 ^ prec)%Z) as [EQ | NE].
  - exists (2 ^ (prec - 1))%Z, (e + 1)%Z. split; [| split].
    + rewrite EQ, pow2_succ.
      rewrite !pow2_inject by lia.
      replace prec with ((prec - 1) + 1)%Z at 1 by lia.
      rewrite pow2_succ. ring.
    + rewrite Z.abs_eq by (apply Z.pow_nonneg; lia).
      apply Z.pow_lt_mono_r; lia.
    + pose proof (fexp_ge x). fold e in H. lia.
  - exists m, e. split; [reflexivity |]. split; [lia | apply fexp_ge].
Qed.

(** *** Rounding a value of either sign *)

Lemma Qnum_Qred_pos (x : Q) : 0 < x <-> exists q, Qnum (Qred x) = Zpos q.
Proof.
  pose proof (Qred_correct x) as E.
  destruct (Qred x) as [n d] eqn:R. cbn [Qnum]. split.
  - intros H. rewrite <- E in H. unfold Qlt in H. simpl in H.
    destruct n as [| q | q]; try lia. now exists q.
  - intros [q ->]. rewrite <- E. reflexivity.
Qed.

Lemma Qnum_Qred_neg (x : Q) : x < 0 <-> exists q, Qnum (Qred x) = Zneg q.
Proof.
  pose proof (Qred_correct x) as E.
  destruct (Qred x) as [n d] eqn:R. cbn [Qnum]. split.
  - intros H. rewrite <- E in H. unfold Qlt in H. simpl in H.
    destruct n as [| q | q]; try lia. now exists q.
  - intros [q ->]. rewrite <- E. reflexivity.
Qed.

Lemma Qnum_Qred_zero (x : Q) : x == 0 <-> Qnum (Qred x) = 0%Z.
Proof.
  pose proof (Qred_correct x) as E.
  destruct (Qred x) as [n d] eqn:R. cbn [Qnum]. split.
  - intros H. rewrite <- E in H. unfold Qeq in H. simpl in H. lia.
  - intros ->. rewrite <- E. reflexivity.
Qed.

Lemma rnd_zero (x : Q) : x == 0 -> rnd prec emin x = 0.
Proof.
  intros H. unfold rnd. cbv zeta. apply Qnum_Qred_zero in H. now rewrite H.
Qed.

Lemma rnd_pos (x : Q) : 0 < x -> rnd prec emin x == round_pos prec emin x.
Proof.
  intros H. unfold rnd. cbv zeta.
  destruct (proj1 (Qnum_Qred_pos x) H) as [q ->].
  rewrite Qred_correct. apply round_pos_compat.
  - now rewrite Qred_correct.
  - apply Qred_correct.
Qed.

Lemma rnd_neg (x : Q) : x < 0 -> rnd prec emin x == - round_pos prec emin (- x).
Proof.
  intros H. unfold rnd. cbv zeta.
  destruct (proj1 (Qnum_Qred_neg x) H) as [q ->].
  rewrite Qred_correct. apply Qopp_comp. apply round_pos_compat.
  - rewrite Qred_correct. lra.
  - now rewrite Qred_correct.
Qed.

(** Rounding does not see how its argument is written as a fraction. *)
Lemma rnd_compat (x y : Q) : x == y -> rnd prec emin x = rnd prec emin y.
Proof.
  intros E. unfold rnd. now rewrite (Qred_complete x y E).
Qed.

Lemma rnd_opp (x : Q) : rnd prec emin (- x) == - rnd prec emin x.
Proof.
  destruct (Q_dec x 0) as [[N | P] | Z].
  - rewrite (rnd_neg x N), (rnd_pos (- x)) by lra. ring.
  - rewrite (rnd_pos x P), (rnd_neg (- x)) by lra.
    apply Qopp_comp. apply round_pos_compat; [lra | ring].
  - rewrite (rnd_zero x Z), (rnd_zero (- x)) by (rewrite Z; reflexivity).
    reflexivity.
Qed.

Lemma rnd_nonneg (x : Q) : 0 <= x -> 0 <= rnd prec emin x.
Proof.
  intros H. destruct (Qle_lt_or_eq _ _ H) as [P | Z].
  - rewrite (rnd_pos x P). now apply round_pos_nonneg.
  - rewrite (rnd_zero x) by (symmetry; exact Z). apply Qle_refl.
Qed.

Lemma rnd_nonpos (x : Q) : x <= 0 -> rnd prec emin x <= 0.
Proof.
  intros H. pose proof (rnd_nonneg (- x) ltac:(lra)) as A.
  rewrite rnd_opp in A. lra.
Qed.

(** Rounding is monotone. *)
Lemma rnd_mono (x y : Q) : x <= y -> rnd prec emin x <= rnd prec emin y.
Proof.
  intros H. destruct (Qlt_le_dec 0 x) as [Px | Nx].
  - rewrite (rnd_pos x Px), (rnd_pos y) by lra. now apply round_pos_mono.
  - destruct (Qlt_le_dec y 0) as [Ny | Py].
    + rewrite (rnd_neg x), (rnd_neg y) by lra.
      apply Qopp_le_compat. apply round_pos_mono; lra.
    + apply Qle_trans with 0; [now apply rnd_nonpos | now apply rnd_nonneg].
Qed.

(** Rounding is exact on representable values ... *)
Lemma rnd_exact (x : Q) : representable prec emin x -> rnd prec emin x == x.
Proof.
  intros (m & E & Hx & Hm & HE).
  pose proof (pow2_pos E) as PE.
  destruct (Z.lt_trichotomy m 0) as [N | [Z | P]].
  - assert (inject_Z m < 0) as M0.
    { change 0 with (inject_Z 0). now rewrite <- Zlt_Qlt. }
    assert (x < 0) as X0.
    { assert (0 < - inject_Z m * 2 ^ E) as A
        by (apply Qmult_lt_0_compat; lra).
      rewrite Hx. lra. }
    rewrite (rnd_neg x X0).
    rewrite (round_pos_exact (- x) (- m) E); [ring | | lia | exact HE].
    rewrite Hx, inject_Z_opp. ring.
  - subst m. rewrite rnd_zero; rewrite Hx; change (inject_Z 0) with 0; ring.
  - assert (0 < inject_Z m) as M0.
    { change 0 with (inject_Z 0). now rewrite <- Zlt_Qlt. }
    assert (0 < x) as X0.
    { rewrite Hx. apply Qmult_lt_0_compat; assumption. }
    rewrite (rnd_pos x X0). apply (round_pos_exact x m E); [exact Hx | lia | exact HE].
Qed.

(** ... and every rounded value is representable. *)
Lemma rnd_representable (x : Q) : representable prec emin (rnd prec emin x).
Proof.
  destruct (Q_dec x 0) as [[N | P] | Z].
  - destruct (round_pos_representable (- x) ltac:(lra)) as (m & E & H & Hm & HE).
    exists (- m)%Z, E. split; [| split; [lia | exact HE]].
    rewrite (rnd_neg x N), H, inject_Z_opp. ring.
  - destruct (round_pos_representable x P) as (m & E & H & Hm & HE).
    exists m, E. split; [| split; assumption].
    now rewrite (rnd_pos x P).
  - exists 0%Z, emin. rewrite (rnd_zero x Z).
    split; [change (inject_Z 0) with 0; ring |].
    split; [| lia]. simpl. apply Z.pow_pos_nonneg; lia.
Qed.

Lemma representable_iff (x : Q) :
  representable prec emin x <-> rnd prec emin x == x.
Proof.
  split; [apply rnd_exact |].
  intros E. destruct (rnd_representable x) as (m & e & H & Hm & He).
  exists m, e. rewrite <- E. auto.
Qed.

(** A rounded value is a fraction in lowest terms. *)
Lemma rnd_canon (x : Q) : Qred (rnd prec emin x) = rnd prec emin x.
Proof.
  unfold rnd. cbv zeta.
  destruct (Qnum (Qred x)); [reflexivity | |];
    apply Qred_complete, Qred_correct.
Qed.

Lemma rnd_idem (x : Q) : rnd prec emin (rnd prec emin x) = rnd prec emin x.
Proof.
  rewrite <- (rnd_canon (rnd prec emin x)), <- (rnd_canon x).
  apply Qred_complete. rewrite rnd_canon.
  apply rnd_exact, rnd_representable.
Qed.

(** A rounded value does not cross a representable bound. *)
Lemma rnd_le (x y : Q) :
  representable prec emin y -> x <= y -> rnd prec emin x <= y.
Proof.
  intros R H. rewrite <- (rnd_exact y R). now apply rnd_mono.
Qed.

End Round.


(** *** Values of the two formats *)

Section Formats.
Variables prec emin : Z.
Hypothesis prec_pos : (0 < prec)%Z.

Lemma representable_Z (z : Z) :
  (emin <= 0)%Z -> (Z.abs z < 2 ^ prec)%Z ->
  representable prec emin (inject_Z z).
Proof.
  intros He Hz. exists z, 0%Z. split; [| split; assumption].
  change (2 ^ 0) with 1. ring.
Qed.

Lemma scale_le (a b E : Z) :
  inject_Z a * 2 ^ E <= inject_Z b * 2 ^ E -> (a <= b)%Z.
Proof.
  intros H. rewrite Zle_Qle.
  apply (Qmult_le_r _ _ (2 ^ E)); [apply pow2_pos | exact H].
Qed.

Lemma scale_lt (a b E : Z) :
  inject_Z a * 2 ^ E < inject_Z b * 2 ^ E -> (a < b)%Z.
Proof.
  intros H. rewrite Zlt_Qlt.
  apply (Qmult_lt_r _ _ (2 ^ E)); [apply pow2_pos | exact H].
Qed.

(** Two representable values over a common exponent: the one with the
    smaller exponent keeps its significand. *)
Lemma representable_common (x y : Q) :
  representable prec emin x -> representable prec emin y ->
  exists X Y E : Z,
    x == inject_Z X * 2 ^ E /\ y == inject_Z Y * 2 ^ E /\ (emin <= E)%Z /\
    ((Z.abs X < 2 ^ prec)%Z \/ (Z.abs Y < 2 ^ prec)%Z).
Proof.
  intros (mx & ex & Hx & Mx & Ex) (my & ey & Hy & My & Ey).
  destruct (Z.le_gt_cases ex ey) as [L | G].
  - exists mx, (my * 2 ^ (ey - ex))%Z, ex.
    split; [exact Hx |]. split; [| split; [exact Ex | left; exact Mx]].
    rewrite Hy, inject_Z_mult, pow2_inject by lia.
    rewrite <- Qmult_assoc, <- pow2_add.
    replace (ey - ex + ex)%Z with ey by lia. reflexivity.
  - exists (mx * 2 ^ (ex - ey))%Z, my, ey.
    split; [| split; [exact Hy | split; [exact Ey | right; exact My]]].
    rewrite Hx, inject_Z_mult, pow2_inject by lia.
    rewrite <- Qmult_assoc, <- pow2_add.
    replace (ex - ey + ey)%Z with ex by lia. reflexivity.
Qed.

Lemma fmod_nonneg (x y : Q) :
  0 <= x -> 0 < y -> 0 <= fmod x y /\ fmod x y < y /\ fmod x y <= x.
Proof.
  intros Hx Hy.
  assert (0 <= x / y) as Q0 by (apply Qle_shift_div_l; lra).
  pose proof (fmod_abs_lt x y Hy) as A.
  rewrite fmod_as_remainder in * by lra.
  destruct (trunc_remainder_nonneg (x / y) Q0) as [R0 R1].
  assert (0 <= (x / y - inject_Z (trunc (x / y))) * y) as N
    by (apply Qmult_le_0_compat; lra).
  rewrite Qabs_pos in A by exact N.
  split; [exact N |]. split; [exact A |].
  assert (0 <= inject_Z (trunc (x / y))) as T.
  { rewrite (trunc_nonneg _ Q0). change 0 with (inject_Z 0).
    rewrite <- Zle_Qle. change 0%Z with (Qfloor 0). now apply Qfloor_resp_le. }
  assert (0 <= inject_Z (trunc (x / y)) * y) as TY
    by (apply Qmult_le_0_compat; lra).
  assert ((x / y - inject_Z (trunc (x / y))) * y
          == x - inject_Z (trunc (x / y)) * y) as -> by (field; lra).
  lra.
Qed.

(** [fmod] of two values of a format is a value of the format: the
    library function does not round. *)
Lemma fmod_representable (x y : Q) :
  0 <= x -> 0 < y ->
  representable prec emin x -> representable prec emin y ->
  representable prec emin (fmod x y).
Proof.
  intros Hx Hy Rx Ry.
  destruct (representable_common x y Rx Ry) as (X & Y & E & EX & EY & HE & B).
  destruct (fmod_nonneg x y Hx Hy) as (F0 & F1 & F2).
  assert (forall k : Z, x - inject_Z k * y == inject_Z (X - k * Y) * 2 ^ E) as G.
  { intros k. unfold Z.sub.
    rewrite inject_Z_plus, inject_Z_opp, inject_Z_mult.
    rewrite EX, EY. ring. }
  set (k := trunc (x / y)) in *.
  assert (fmod x y == inject_Z (X - k * Y) * 2 ^ E) as EF by apply G.
  exists (X - k * Y)%Z, E. split; [exact EF |]. split; [| exact HE].
  assert (0 <= X - k * Y)%Z as M0.
  { apply (scale_le _ _ E). rewrite <- EF. change (inject_Z 0) with 0. lra. }
  rewrite Z.abs_eq by exact M0.
  destruct B as [B | B].
  - assert (X - k * Y <= X)%Z as M1.
    { apply (scale_le _ _ E). rewrite <- EF, <- EX. exact F2. }
    lia.
  - assert (X - k * Y < Y)%Z as M1.
    { apply (scale_lt _ _ E). rewrite <- EF, <- EY. exact F1. }
    lia.
Qed.

(** The quotient of two values of a format, the smaller by the larger,
    rounds to a value below one. *)
Lemma quotient_below_one (x y : Q) :
  (emin <= - prec)%Z -> 0 <= x -> x < y ->
  representable prec emin x -> representable prec emin y ->
  rnd prec emin (x / y) < 1.
Proof.
  intros He Hx Hy Rx Ry.
  destruct (representable_common x y Rx Ry) as (X & Y & E & EX & EY & HE & B).
  pose proof (pow2_pos E) as PE.
  assert (0 <= X)%Z as X0.
  { apply (scale_le _ _ E). rewrite <- EX. change (inject_Z 0) with 0. lra. }
  assert (X < Y)%Z as XY.
  { apply (scale_lt _ _ E). rewrite <- EX, <- EY. exact Hy. }
  set (P := (2 ^ prec)%Z).
  assert (0 < P)%Z as P0 by (apply Z.pow_pos_nonneg; lia).
  assert (X * P <= (P - 1) * Y)%Z as K.
  { destruct B as [B | B]; rewrite Z.abs_eq in B by lia; fold P in B; nia. }
  assert (representable prec emin (inject_Z (P - 1) * 2 ^ (- prec))) as RC.
  { exists (P - 1)%Z, (- prec)%Z. split; [reflexivity |].
    split; [rewrite Z.abs_eq by lia; fold P; lia | exact He]. }
  assert (0 < inject_Z Y) as QY.
  { change 0 with (inject_Z 0). rewrite <- Zlt_Qlt. lia. }
  assert (0 < inject_Z P) as QP.
  { change 0 with (inject_Z 0). now rewrite <- Zlt_Qlt. }
  assert (2 ^ (- prec) == / inject_Z P) as IP.
  { rewrite Qpower_opp. unfold P. now rewrite pow2_inject by lia. }
  apply Qle_lt_trans with (inject_Z (P - 1) * 2 ^ (- prec)).
  - apply rnd_le; [exact prec_pos | exact RC |].
    assert (x / y == inject_Z X / inject_Z Y) as ->.
    { rewrite EX, EY. field. split; lra. }
    apply Qle_shift_div_r; [exact QY |].
    rewrite IP.
    assert (inject_Z (P - 1) * / inject_Z P * inject_Z Y
            == inject_Z ((P - 1) * Y) / inject_Z P) as ->
      by (rewrite inject_Z_mult; field; lra).
    apply Qle_shift_div_l; [exact QP |].
    rewrite <- inject_Z_mult, <- Zle_Qle. exact K.
  - rewrite IP. unfold Z.sub. rewrite inject_Z_plus, inject_Z_opp.
    change (inject_Z 1) with 1.
    assert ((inject_Z P + - 1) * / inject_Z P == 1 - / inject_Z P) as ->
      by (field; lra).
    pose proof (Qinv_lt_0_compat _ QP). lra.
Qed.

End Formats.

Section Binary.

Lemma representable_weaken (prec emin prec' emin' : Z) (x : Q) :
  (0 <= prec <= prec')%Z -> (emin' <= emin)%Z ->
  representable prec emin x -> representable prec' emin' x.
Proof.
  intros Hp He (m & E & H & Hm & HE). exists m, E.
  split; [exact H |]. split; [| lia].
  apply Z.lt_le_trans with (2 ^ prec)%Z; [exact Hm |].
  apply Z.pow_le_mono_r; lia.
Qed.

Lemma is_double_representable (x : Q) :
  is_double x <-> representable 53 (-1074) x.
Proof. unfold is_double, rnd64. symmetry. now apply representable_iff. Qed.

Lemma is_float_representable (x : Q) :
  is_float x <-> representable 24 (-149) x.
Proof. unfold is_float, rnd32. symmetry. now apply representable_iff. Qed.

(** Every [float] is a [double]. *)
Lemma is_float_double (x : Q) : is_float x -> is_double x.
Proof.
  rewrite is_float_representable, is_double_representable.
  apply representable_weaken; lia.
Qed.

Lemma is_double_rnd64 (x : Q) : is_double (rnd64 x).
Proof. apply is_double_representable, rnd_representable. lia. Qed.

Lemma is_float_rnd32 (x : Q) : is_float (rnd32 x).
Proof. apply is_float_representable, rnd_representable. lia. Qed.

Lemma is_double_Z (z : Z) : (Z.abs z < 2 ^ 53)%Z -> is_double (inject_Z z).
Proof. intros H. apply is_double_representable, representable_Z; [lia | exact H]. Qed.

Lemma is_float_Z (z : Z) : (Z.abs z < 2 ^ 24)%Z -> is_float (inject_Z z).
Proof. intros H. apply is_float_representable, representable_Z; [lia | exact H]. Qed.

Lemma rnd64_mono (x y : Q) : x <= y -> rnd64 x <= rnd64 y.
Proof. apply rnd_mono. lia. Qed.

Lemma rnd32_mono (x y : Q) : x <= y -> rnd32 x <= rnd32 y.
Proof. apply rnd_mono. lia. Qed.

Lemma rnd64_le (x y : Q) : is_double y -> x <= y -> rnd64 x <= y.
Proof.
  intros D H. apply Qle_trans with (rnd64 y); [now apply rnd64_mono |].
  unfold is_double in D. rewrite D. apply Qle_refl.
Qed.

Lemma rnd64_ge (x y : Q) : is_double y -> y <= x -> y <= rnd64 x.
Proof.
  intros D H. apply Qle_trans with (rnd64 y); [| now apply rnd64_mono].
  unfold is_double in D. rewrite D. apply Qle_refl.
Qed.

Lemma rnd32_le (x y : Q) : is_float y -> x <= y -> rnd32 x <= y.
Proof.
  intros D H. apply Qle_trans with (rnd32 y); [now apply rnd32_mono |].
  unfold is_float in D. rewrite D. apply Qle_refl.
Qed.

Lemma rnd32_ge (x y : Q) : is_float y -> y <= x -> y <= rnd32 x.
Proof.
  intros D H. apply Qle_trans with (rnd32 y); [| now apply rnd32_mono].
  unfold is_float in D. rewrite D. apply Qle_refl.
Qed.

Lemma rnd32_idem (x : Q) : rnd32 (rnd32 x) = rnd32 x.
Proof. apply rnd_idem. lia. Qed.

Lemma rnd64_compat (x y : Q) : x == y -> rnd64 x = rnd64 y.
Proof. apply rnd_compat. Qed.

Lemma rnd32_compat (x y : Q) : x == y -> rnd32 x = rnd32 y.
Proof. apply rnd_compat. Qed.

Lemma is_double_compat (x y : Q) : x == y -> is_double x -> is_double y.
Proof.
  unfold is_double. intros E H. rewrite <- (rnd64_compat x y E), H. exact E.
Qed.

Lemma is_float_compat (x y : Q) : x == y -> is_float x -> is_float y.
Proof.
  unfold is_float. intros E H. rewrite <- (rnd32_compat x y E), H. exact E.
Qed.

Lemma is_double_fmod (x y : Q) :
  0 <= x -> 0 < y -> is_double x -> is_double y -> is_double (fmod x y).
Proof.
  rewrite !is_double_representable. intros. apply fmod_representable; auto; lia.
Qed.

Lemma rnd64_quotient_lt (x y : Q) :
  0 <= x -> x < y -> is_double x -> is_double y -> rnd64 (x / y) < 1.
Proof.
  rewrite !is_double_representable. intros. apply quotient_below_one; auto; lia.
Qed.

End Binary.


Lemma Ok_inj {A : Type} (a b : A) : Ok a = Ok b -> a = b.
Proof. congruence. Qed.

(** Reading a field back from a configured object. *)
Ltac read_fields :=
  unfold source_square, source_sawtooth, source_stairstep, source_sine,
    source_triangle, source_periodic, source_buffer, source_callback,
    measure_buffer, measure_callback, update_phase;
  cbn [m_src m_src_v1 m_src_v2 m_src_period m_src_duty m_src_phase m_src_buf
       m_src_i m_src_buf_len m_src_buf_repeat m_src_callback m_dest m_dest_buf
       m_dest_buf_len m_dest_callback m_latest_measurement
       set_src set_src_v1 set_src_v2 set_src_period set_src_duty set_src_phase
       set_src_buf set_src_i set_src_buf_len set_src_buf_repeat
       set_src_callback set_dest set_dest_buf set_dest_buf_len
       set_dest_callback set_latest_measurement].

(** ** The periodic branch of [get_sample] *)

Section Periodic.
Context `{L : Libm}.

Lemma set_src_phase_id (s : Signal) : set_src_phase s (m_src_phase s) = s.
Proof. destruct s; reflexivity. Qed.

(** [get_sample] on a periodic source, in terms of the views. *)
Lemma get_sample_periodic (h : heap) (s : Signal) :
  is_periodic (m_src s) = true ->
  get_sample h s
  = Ok (wave_at s (m_src_phase s),
        set_src_phase s (next_phase (m_src_phase s) (m_src_period s))).
Proof.
  destruct s as [k v1 v2 per du ph sb si sl sr sc d db dl dc lm].
  destruct k; simpl; intros E; try discriminate E; reflexivity.
Qed.

Lemma calls_periodic (n : nat) (h : heap) (s : Signal) :
  is_periodic (m_src s) = true ->
  calls n h s
  = Ok (set_src_phase s (phase_after n (m_src_phase s) (m_src_period s))).
Proof.
  revert s. induction n as [| n IH]; intros s P; simpl.
  - now rewrite set_src_phase_id.
  - rewrite (get_sample_periodic h s P). simpl.
    rewrite IH by exact P. reflexivity.
Qed.

Lemma nth_sample_periodic (n : nat) (h : heap) (s : Signal) :
  is_periodic (m_src s) = true ->
  nth_sample n h s
  = Ok (wave_at s (phase_after n (m_src_phase s) (m_src_period s))).
Proof.
  revert s. induction n as [| n IH]; intros s P.
  - simpl. rewrite (get_sample_periodic h s P). reflexivity.
  - cbn [nth_sample]. rewrite (get_sample_periodic h s P). simpl.
    rewrite IH by exact P. reflexivity.
Qed.

End Periodic.

(** ** Samples do not depend on how a phase is written as a fraction *)

Section Compat.
Context `{L : Libm}.

Lemma Qle_bool_proper (x x' y y' : Q) :
  x == x' -> y == y' -> Qle_bool x y = Qle_bool x' y'.
Proof.
  intros Hx Hy.
  destruct (Qle_bool x y) eqn:E, (Qle_bool x' y') eqn:E'; try reflexivity.
  - apply Qle_bool_iff in E. apply Qle_bool_false in E'.
    rewrite Hx, Hy in E. lra.
  - apply Qle_bool_false in E. apply Qle_bool_iff in E'.
    rewrite Hx, Hy in E. lra.
Qed.

Lemma norm_phase_compat (x x' y y' : Q) :
  x == x' -> y == y' -> norm_phase x y = norm_phase x' y'.
Proof.
  intros Hx Hy. unfold norm_phase.
  rewrite (rnd64_compat (x / y) (x' / y')) by now rewrite Hx, Hy.
  reflexivity.
Qed.

Lemma next_phase_proper (x x' y y' : Q) :
  x == x' -> y == y' -> next_phase x y == next_phase x' y'.
Proof.
  intros Hx Hy. unfold next_phase.
  rewrite (rnd64_compat (x + 1) (x' + 1)) by now rewrite Hx.
  apply fmod_proper; [reflexivity | exact Hy].
Qed.

Lemma phase_after_proper (n : nat) (x x' y : Q) :
  x == x' -> phase_after n x y == phase_after n x' y.
Proof.
  revert x x'. induction n as [| n IH]; intros x x' Hx; simpl.
  - exact Hx.
  - apply IH. now apply next_phase_proper.
Qed.

Lemma sawtooth_max_int_phase_compat (period x x' : Q) :
  x == x' ->
  sawtooth_max_int_phase period x = sawtooth_max_int_phase period x'.
Proof.
  intros Hx. unfold sawtooth_max_int_phase.
  rewrite (rnd32_compat x x' Hx).
  rewrite (rnd64_compat (x - inject_Z (trunc (rnd32 x')))
                        (x' - inject_Z (trunc (rnd32 x')))) by now rewrite Hx.
  reflexivity.
Qed.

Lemma sawtooth_sample_compat (v2 period x x' pp : Q) :
  x == x' ->
  sawtooth_sample v2 period x pp = sawtooth_sample v2 period x' pp.
Proof.
  intros Hx. unfold sawtooth_sample.
  rewrite (rnd32_compat x x' Hx), (sawtooth_max_int_phase_compat period x x' Hx).
  reflexivity.
Qed.

(** Two stored phases that denote the same number give the same sample. *)
Lemma wave_at_compat (s : Signal) (x x' : Q) :
  x == x' -> wave_at s x = wave_at s x'.
Proof.
  intros Hx. unfold wave_at.
  rewrite (norm_phase_compat x x' _ _ Hx (Qeq_refl _)).
  destruct (m_src s); cbn [wave_value]; try reflexivity.
  now apply sawtooth_sample_compat.
Qed.

End Compat.

(** ** The orbit of the stored phase *)

Section Orbit.

Lemma phase_after_S (n : nat) (phase period : Q) :
  phase_after (S n) phase period
  = next_phase (phase_after n phase period) period.
Proof.
  revert phase. induction n as [| n IH]; intros phase.
  - reflexivity.
  - change (phase_after (S (S n)) phase period)
      with (phase_after (S n) (next_phase phase period) period).
    rewrite IH. reflexivity.
Qed.

Lemma frac_bounds (x : Q) : 0 <= frac x /\ frac x < 1.
Proof.
  unfold frac. pose proof (Qfloor_le x) as Fl. pose proof (Qlt_floor x) as Fh.
  rewrite inject_Z_plus in Fh. change (inject_Z 1) with 1 in Fh.
  split; lra.
Qed.

(** The remainder of [f + K], a fraction [f] in [[0, 1)] above a natural
    number [K], by a positive integer. *)
Lemma fmod_count (f : Q) (K : Z) (p : positive) :
  0 <= f -> f < 1 -> (0 <= K)%Z ->
  fmod (f + inject_Z K) (inject_Z (Zpos p)) == f + inject_Z (K mod Zpos p).
Proof.
  intros F0 F1 HK.
  pose proof (Z.div_mod K (Zpos p) ltac:(lia)) as DM.
  pose proof (Z.mod_pos_bound K (Zpos p) ltac:(lia)) as MB.
  set (q := (K / Zpos p)%Z) in *. set (r := (K mod Zpos p)%Z) in *.
  assert (inject_Z K == inject_Z (Zpos p) * inject_Z q + inject_Z r) as EK.
  { rewrite <- inject_Z_mult, <- inject_Z_plus. now rewrite <- DM. }
  assert (0 <= inject_Z r) as R0.
  { change 0 with (inject_Z 0). rewrite <- Zle_Qle. lia. }
  assert (inject_Z r + 1 <= inject_Z (Zpos p)) as R1.
  { change 1 with (inject_Z 1). rewrite <- inject_Z_plus, <- Zle_Qle. lia. }
  assert (0 <= inject_Z q) as Q0.
  { change 0 with (inject_Z 0). rewrite <- Zle_Qle. apply Z.div_pos; lia. }
  assert (0 < inject_Z (Zpos p)) as P0 by reflexivity.
  assert (0 <= inject_Z (Zpos p) * inject_Z q) as PQ
    by (apply Qmult_le_0_compat; lra).
  unfold fmod.
  assert (0 <= (f + inject_Z K) / inject_Z (Zpos p)) as D0
    by (apply Qle_shift_div_l; lra).
  rewrite (trunc_nonneg _ D0).
  rewrite (Qfloor_unique _ q).
  - rewrite EK. ring.
  - apply Qle_shift_div_l; [exact P0 |]. lra.
  - apply Qlt_shift_div_r; [exact P0 |]. lra.
Qed.

Variable p : positive.
Variable period : Q.
Hypothesis period_int : period == inject_Z (Zpos p).

Variable f : Q.
Hypothesis f_lo : 0 <= f.
Hypothesis f_hi : f < 1.

(** The additions [phase + 1] met along the way are exact. *)
Variable bound : Z.
Hypothesis grid :
  forall k : Z, (0 <= k <= bound)%Z -> is_double (f + inject_Z k).

(** One call from a phase [f + K]: the integer part counts up modulo
    [p]. *)
Lemma next_phase_count (K : Z) :
  (0 <= K < bound)%Z ->
  next_phase (f + inject_Z K) period == f + inject_Z ((K + 1) mod Zpos p).
Proof.
  intros HK. unfold next_phase.
  assert (f + inject_Z K + 1 == f + inject_Z (K + 1)) as E1
    by (rewrite inject_Z_plus; change (inject_Z 1) with 1; ring).
  rewrite (rnd64_compat _ _ E1).
  pose proof (grid (K + 1)%Z ltac:(lia)) as G. unfold is_double in G.
  rewrite (fmod_proper _ _ G _ _ period_int).
  apply fmod_count; [exact f_lo | exact f_hi | lia].
Qed.

(** The phase after [n + 1] calls, in closed form. *)
Lemma phase_after_closed (K : Z) (n : nat) :
  (Zpos p <= bound)%Z -> (0 <= K < bound)%Z ->
  phase_after (S n) (f + inject_Z K) period
  == f + inject_Z ((K + 1 + Z.of_nat n) mod Zpos p).
Proof.
  intros HB HK. induction n as [| n IH].
  - cbn [phase_after]. rewrite Z.add_0_r. now apply next_phase_count.
  - rewrite phase_after_S.
    rewrite (next_phase_proper _ _ period period IH) by reflexivity.
    pose proof (Z.mod_pos_bound (K + 1 + Z.of_nat n) (Zpos p) ltac:(lia)) as MB.
    rewrite next_phase_count by lia.
    rewrite Z.add_mod_idemp_l by lia.
    replace (K + 1 + Z.of_nat n + 1)%Z with (K + 1 + Z.of_nat (S n))%Z by lia.
    reflexivity.
Qed.

(** From the second call on the phases repeat every [p] calls ... *)
Lemma phase_after_shift (K : Z) (n : nat) :
  (Zpos p <= bound)%Z -> (0 <= K < bound)%Z ->
  phase_after (S n + Pos.to_nat p) (f + inject_Z K) period
  == phase_after (S n) (f + inject_Z K) period.
Proof.
  intros HB HK. change (S n + Pos.to_nat p)%nat with (S (n + Pos.to_nat p)).
  rewrite !phase_after_closed by assumption.
  rewrite Nat2Z.inj_add, positive_nat_Z.
  replace (K + 1 + (Z.of_nat n + Zpos p))%Z
    with (K + 1 + Z.of_nat n + 1 * Zpos p)%Z by lia.
  rewrite Z.mod_add by lia. reflexivity.
Qed.

(** ... and from the first, when the starting phase is below the period:
    the [k]-th phase is the start advanced by [k], modulo [p]. *)
Lemma phase_after_start (K : Z) (k : nat) :
  (Zpos p <= bound)%Z -> (0 <= K < Zpos p)%Z ->
  phase_after k (f + inject_Z K) period
  == f + inject_Z ((K + Z.of_nat k) mod Zpos p).
Proof.
  intros HB HK. destruct k as [| k].
  - cbn [phase_after]. rewrite Z.add_0_r, Z.mod_small by lia. reflexivity.
  - rewrite phase_after_closed by lia.
    replace (K + 1 + Z.of_nat k)%Z with (K + Z.of_nat (S k))%Z by lia.
    reflexivity.
Qed.

End Orbit.

(** Phases on a binary grid: [a / 2^j] is an integer above a fraction, and
    the additions of whole numbers to it are exact as long as 53 bits hold
    the result. *)
Section Grid.
Variables a j : Z.
Hypothesis j_range : (0 <= j <= 1074)%Z.
Hypothesis a_nonneg : (0 <= a)%Z.

Lemma grid_split :
  inject_Z a / 2 ^ j
  == inject_Z (a mod 2 ^ j) / 2 ^ j + inject_Z (a / 2 ^ j).
Proof.
  pose proof (pow2_pos j) as PJ.
  assert (0 < 2 ^ j)%Z as ZJ by (apply Z.pow_pos_nonneg; lia).
  pose proof (Z.div_mod a (2 ^ j) ltac:(lia)) as DM.
  rewrite DM at 1. rewrite inject_Z_plus, inject_Z_mult, pow2_inject by lia.
  field. lra.
Qed.

Lemma grid_frac :
  0 <= inject_Z (a mod 2 ^ j) / 2 ^ j /\ inject_Z (a mod 2 ^ j) / 2 ^ j < 1.
Proof.
  pose proof (pow2_pos j) as PJ.
  assert (0 < 2 ^ j)%Z as ZJ by (apply Z.pow_pos_nonneg; lia).
  pose proof (Z.mod_pos_bound a (2 ^ j) ZJ) as MB.
  split.
  - apply Qle_shift_div_l; [exact PJ |].
    rewrite Qmult_0_l. change 0 with (inject_Z 0). rewrite <- Zle_Qle. lia.
  - apply Qlt_shift_div_r; [exact PJ |].
    rewrite Qmult_1_l, <- pow2_inject by lia. rewrite <- Zlt_Qlt. lia.
Qed.

Lemma grid_double (k : Z) :
  (0 <= k)%Z -> (a mod 2 ^ j + k * 2 ^ j < 2 ^ 53)%Z ->
  is_double (inject_Z (a mod 2 ^ j) / 2 ^ j + inject_Z k).
Proof.
  intros Hk B.
  pose proof (pow2_pos j) as PJ.
  assert (0 < 2 ^ j)%Z as ZJ by (apply Z.pow_pos_nonneg; lia).
  pose proof (Z.mod_pos_bound a (2 ^ j) ZJ) as MB.
  apply is_double_representable.
  exists (a mod 2 ^ j + k * 2 ^ j)%Z, (- j)%Z. split; [| split].
  - rewrite inject_Z_plus, inject_Z_mult, pow2_inject by lia.
    rewrite Qpower_opp. field. lra.
  - rewrite Z.abs_eq by nia. exact B.
  - lia.
Qed.

End Grid.

(** ** Phase continuity *)

(** C1, as amended.  On a periodic source with a nonzero period every call
    of [get_sample] replaces the stored phase by
    [fmod (phase + 1, period)], the sum rounded to [double], whatever the
    phase and the period are.  Let the period be an integer [p >= 1]
    ([p >= 2] for the sawtooth, whose divisor is [p - 1]) and the starting
    phase a value [a / 2^j >= 0] on a binary grid fine enough for 53 bits to
    hold [phase + 1] and [p + 1]; whole numbers are the grid [j = 0].  Then
    the additions are exact, call number [n + p] returns the same value as
    call number [n] for every [n >= 1], and for [n = 0] as well when the
    starting phase is below the period: the sequence of samples has period
    [p] calls, however many calls came before.  From a phase below the
    period the stored phase is back at its start after [p] calls and not
    earlier. *)
Theorem phase_continuity `{L : Libm} (h : heap) (s : Signal) :
  is_periodic (m_src s) = true ->
  ~ m_src_period s == 0 ->
  (forall n : nat, exists sn sn',
      calls n h s = Ok sn /\ calls (S n) h s = Ok sn' /\
      m_src_phase sn' = fmod (rnd64 (m_src_phase sn + 1)) (m_src_period sn))
  /\ (forall (p : positive) (a j : Z),
        m_src_period s == inject_Z (Zpos p) ->
        m_src_phase s == inject_Z a / 2 ^ j ->
        (0 <= j <= 1074)%Z -> (0 <= a)%Z ->
        (a + 2 ^ j < 2 ^ 53)%Z -> ((Zpos p + 1) * 2 ^ j <= 2 ^ 53)%Z ->
        (m_src s = SRC_SAWTOOTH -> (2 <= Zpos p)%Z) ->
        levels_bounded s ->
        (forall n : nat,
            (1 <= n)%nat \/ m_src_phase s < m_src_period s ->
            exists v,
              nth_sample n h s = Ok v /\
              nth_sample (n + Pos.to_nat p) h s = Ok v)
        /\ (m_src_phase s < m_src_period s ->
            (exists sp,
                calls (Pos.to_nat p) h s = Ok sp /\
                m_src_phase sp == m_src_phase s)
            /\ (forall k : nat,
                   (0 < k < Pos.to_nat p)%nat ->
                   exists sk,
                     calls k h s = Ok sk /\
                     ~ m_src_phase sk == m_src_phase s))).
Proof.
  intros P _. split.
  - intros n. eexists _, _. split; [apply (calls_periodic n h s P) |].
    split; [apply (calls_periodic (S n) h s P) |].
    read_fields. now rewrite phase_after_S.
  - intros p a j EP EA J A B1 B2 _ _.
    assert (0 < 2 ^ j)%Z as ZJ by (apply Z.pow_pos_nonneg; lia).
    pose proof (Z.mod_pos_bound a (2 ^ j) ZJ) as MB.
    pose proof (Z.div_mod a (2 ^ j) ltac:(lia)) as DM.
    set (f := inject_Z (a mod 2 ^ j) / 2 ^ j).
    set (K := (a / 2 ^ j)%Z) in *.
    assert (0 <= K)%Z as K0 by (apply Z.div_pos; lia).
    set (bound := Z.max (K + 1) (Zpos p)).
    assert (m_src_phase s == f + inject_Z K) as EF
      by (rewrite EA; now apply grid_split).
    destruct (grid_frac a j J) as [F0 F1]. fold f in F0, F1.
    assert (forall k : Z, (0 <= k <= bound)%Z -> is_double (f + inject_Z k)) as G.
    { intros k Hk. apply grid_double; try lia. fold K in DM.
      destruct (Z.le_ge_cases k (K + 1)); nia. }
    clearbody f.
    assert (m_src_phase s < m_src_period s -> (K < Zpos p)%Z) as KP.
    { intros Lt. rewrite EP, EF in Lt.
      assert (inject_Z K < inject_Z (Zpos p)) as C by lra.
      now rewrite <- Zlt_Qlt in C. }
    split; [| intros Lt; split].
    + intros n Hn. eexists.
      split; [apply (nth_sample_periodic n h s P) |].
      rewrite (nth_sample_periodic _ h s P). f_equal.
      apply wave_at_compat.
      rewrite (phase_after_proper _ _ _ (m_src_period s) EF).
      rewrite (phase_after_proper n _ _ (m_src_period s) EF).
      destruct n as [| n].
      * destruct Hn as [Hn | Hn]; [lia |]. specialize (KP Hn).
        rewrite !(phase_after_start p _ EP f F0 F1 bound G) by lia.
        rewrite Nat2Z.inj_add, positive_nat_Z.
        replace (K + (Z.of_nat 0 + Zpos p))%Z
          with (K + Z.of_nat 0 + 1 * Zpos p)%Z by lia.
        rewrite Z.mod_add by lia. reflexivity.
      * apply (phase_after_shift p _ EP f F0 F1 bound G); lia.
    + specialize (KP Lt). eexists.
      split; [apply (calls_periodic _ h s P) |]. read_fields.
      rewrite (phase_after_proper _ _ _ (m_src_period s) EF).
      rewrite (phase_after_start p _ EP f F0 F1 bound G) by lia.
      rewrite positive_nat_Z.
      replace (K + Zpos p)%Z with (K + 1 * Zpos p)%Z by lia.
      rewrite Z.mod_add, Z.mod_small by lia. now symmetry.
    + specialize (KP Lt). intros k Hk. eexists.
      split; [apply (calls_periodic _ h s P) |]. read_fields.
      rewrite (phase_after_proper _ _ _ (m_src_period s) EF).
      rewrite (phase_after_start p _ EP f F0 F1 bound G) by lia.
      rewrite EF. intros E.
      assert (inject_Z ((K + Z.of_nat k) mod Zpos p) == inject_Z K) as E'.
      { revert E.
        generalize (inject_Z ((K + Z.of_nat k) mod Zpos p)), (inject_Z K).
        intros u w E. lra. }
      apply (proj1 (inject_Z_injective _ _)) in E'.
      destruct (Z.lt_ge_cases (K + Z.of_nat k) (Zpos p)) as [C | C].
      * rewrite Z.mod_small in E' by lia. lia.
      * replace (K + Z.of_nat k)%Z
          with (K + Z.of_nat k - Zpos p + 1 * Zpos p)%Z in E' by lia.
        rewrite Z.mod_add, Z.mod_small in E' by lia. lia.
Qed.

Lemma phase_continuity_witness :
  let s := source_sine idle_signal 0 1 4 (1 # 2) in
  (forall n : nat, exists sn sn',
      calls (L:=libm_coarse) n ∅ s = Ok sn /\
      calls (L:=libm_coarse) (S n) ∅ s = Ok sn' /\
      m_src_phase sn' = fmod (rnd64 (m_src_phase sn + 1)) (m_src_period sn))
  /\ (forall n : nat, exists v,
        nth_sample (L:=libm_coarse) n ∅ s = Ok v /\
        nth_sample (L:=libm_coarse) (n + Pos.to_nat 4) ∅ s = Ok v)
  /\ (exists sp,
        calls (L:=libm_coarse) (Pos.to_nat 4) ∅ s = Ok sp /\
        m_src_phase sp == m_src_phase s).
Proof.
  intros s.
  destruct (phase_continuity (L:=libm_coarse) ∅ s) as [A B];
    [reflexivity | discriminate |].
  destruct (B 4%positive 1%Z 1%Z) as [C D];
    [reflexivity | reflexivity | lia | lia | reflexivity | vm_compute; discriminate
    | discriminate | split; vm_compute; discriminate |].
  split; [exact A |]. split.
  - intros n. apply C. right. reflexivity.
  - apply D. reflexivity.
Defined.

(** C1 as stated fails for starting phases off that range, with integer
    periods throughout.  A phase at or above the period: a square source
    of period 8 and duty 1/2 started at phase 9 returns [peak] on its first
    call (normalised phase 9/8) and [midpoint] eight calls later (stored
    phase 1).  A negative phase: a sawtooth source of period 8 started at
    phase -3 returns a value above [peak] on its first call and one below
    it eight calls later (stored phase 5); and a square source of period 3
    started at phase -1 is evaluated at the double above 2/3 on its first
    call and at the double below 2/3 three calls later, which a duty between
    the two tells apart.  A phase whose increments are rounded: a square
    source of period 2 and duty 0.15 started at phase 0.3 returns [peak] on
    its first call and [midpoint] two calls later, the stored phase having
    drifted from 0.3 to [0.30000000000000004 - 2^-54] below it. *)
Lemma phase_continuity_counterexample :
  let above := source_square idle_signal 0 1 8 (1 # 2) 9 in
  let below := source_sawtooth idle_signal 0 1 8 (-3) in
  let wrapped :=
    source_square idle_signal 0 1 3
      (3002399751580331 # 4503599627370496) (-1) in
  let drift :=
    source_square idle_signal 0 1 2 (rnd64 (15 # 100)) (rnd64 (3 # 10)) in
  (m_src_period above == inject_Z 8 /\
   nth_sample (L:=libm_coarse) 0 ∅ above = Ok 1 /\
   nth_sample (L:=libm_coarse) (0 + 8) ∅ above = Ok 0)
  /\ (m_src_period below == inject_Z 8 /\
      nth_sample (L:=libm_coarse) 0 ∅ below = Ok (5991863 # 4194304) /\
      nth_sample (L:=libm_coarse) (0 + 8) ∅ below = Ok (2396745 # 8388608))
  /\ (m_src_period wrapped == inject_Z 3 /\
      is_double (m_src_duty wrapped) /\
      nth_sample (L:=libm_coarse) 0 ∅ wrapped = Ok 1 /\
      nth_sample (L:=libm_coarse) (0 + 3) ∅ wrapped = Ok 0)
  /\ (m_src_period drift == inject_Z 2 /\
      0 <= m_src_phase drift /\ m_src_phase drift < m_src_period drift /\
      nth_sample (L:=libm_coarse) 0 ∅ drift = Ok 1 /\
      nth_sample (L:=libm_coarse) (0 + 2) ∅ drift = Ok 0).
Proof.
  cbv zeta. repeat split; try (vm_compute; reflexivity);
    vm_compute; discriminate.
Qed.

(** ** The square wave *)

Section Square.
Context `{L : Libm}.

(** Within one period on either side of zero the stored phase is its
    own remainder. *)
Lemma fmod_id (x y : Q) : 0 < y -> - y < x -> x < y -> fmod x y == x.
Proof.
  intros Hy Lo Hi. destruct (Qlt_le_dec x 0) as [N | NN].
  - unfold fmod.
    assert (x / y < 0) as D0.
    { apply Qlt_shift_div_r; lra. }
    assert (-1 < x / y) as D1.
    { apply Qlt_shift_div_l; lra. }
    rewrite (trunc_neg _ D0). unfold Qceiling.
    rewrite (Qfloor_unique (- (x / y)) 0) by (change (inject_Z 0) with 0; lra).
    change (inject_Z (- 0)) with 0. ring.
  - now apply fmod_small.
Qed.

Lemma norm_phase_spec (phase period : Q) :
  0 < period -> - period < phase -> phase < period ->
  norm_phase phase period = spec_norm_phase phase period.
Proof.
  intros Hp Lo Hi. unfold norm_phase, spec_norm_phase.
  rewrite (rnd64_compat (phase / period) (fmod phase period / period))
    by now rewrite fmod_id.
  reflexivity.
Qed.

(** At the ten integer phases of a period-10 cycle the rounded quotient
    is below one half exactly for the first five. *)
Lemma norm_phase_tenth (m : Z) :
  (0 <= m < 10)%Z ->
  Qltb (norm_phase (inject_Z m) 10) (1 # 2) = (m <? 5)%Z.
Proof.
  intros M.
  assert (m = 0 \/ m = 1 \/ m = 2 \/ m = 3 \/ m = 4 \/
          m = 5 \/ m = 6 \/ m = 7 \/ m = 8 \/ m = 9)%Z as C by lia.
  repeat (destruct C as [-> | C]; [vm_compute; reflexivity |]).
  subst m. vm_compute. reflexivity.
Qed.

(** The stored phase of a source started at phase 0 with a small integer
    period counts the calls modulo the period. *)
Lemma phase_after_zero (p : positive) (n : nat) :
  (Zpos p < 2 ^ 53)%Z ->
  phase_after n 0 (inject_Z (Zpos p)) == inject_Z (Z.of_nat n mod Zpos p).
Proof.
  intros B.
  assert (forall k : Z, (0 <= k <= Zpos p)%Z -> is_double (0 + inject_Z k)) as G.
  { intros k Hk. apply (is_double_compat (inject_Z k)); [ring |].
    apply is_double_Z. lia. }
  assert (0 == 0 + inject_Z 0) as E0 by reflexivity.
  rewrite (phase_after_proper n _ _ _ E0).
  rewrite (phase_after_start p _ (Qeq_refl _) 0 (Qle_refl 0) eq_refl (Zpos p) G)
    by lia.
  rewrite Z.add_0_l. ring.
Qed.

Lemma square_cycle_sample (h : heap) (s0 : Signal) (midpoint peak : Q)
    (n : nat) :
  nth_sample n h (source_square s0 midpoint peak 10 (1 # 2) 0)
  = Ok (if (n mod 10 <? 5)%nat then midpoint else peak).
Proof.
  rewrite nth_sample_periodic by reflexivity.
  unfold wave_at. read_fields. cbn [wave_value].
  pose proof (phase_after_zero 10 n eq_refl) as C.
  change (inject_Z 10) with 10 in C.
  rewrite (norm_phase_compat _ _ 10 10 C (Qeq_refl _)).
  rewrite norm_phase_tenth by (apply Z.mod_pos_bound; lia).
  replace (Z.of_nat n mod 10 <? 5)%Z with (n mod 10 <? 5)%nat; [reflexivity |].
  change 10%Z with (Z.of_nat 10). rewrite <- Nat2Z.inj_mod.
  destruct (n mod 10 <? 5)%nat eqn:C1; symmetry.
  - apply Nat.ltb_lt in C1. apply Z.ltb_lt. lia.
  - apply Nat.ltb_ge in C1. apply Z.ltb_ge. lia.
Qed.

End Square.

(** C2, as amended.  A square source with a nonzero period returns
    [midpoint] if [norm_phase < duty] and [peak] otherwise, where
    [norm_phase] is the double [phase / period], plus one (rounded) when
    that is negative: the comparison is made on the rounded quotient.  This
    is the specification's [(phase mod period) / period], wrapped,
    whenever [-period < phase < period].  After
    [source_square(midpoint, peak, 10, 0.5, 0)] call number [n] returns
    [midpoint] when [n mod 10 < 5] and [peak] otherwise. *)
Theorem square_duty_law `{L : Libm} (h : heap) :
  (forall s : Signal,
      m_src s = SRC_SQUARE -> ~ m_src_period s == 0 ->
      get_sample h s
      = Ok (if Qltb (norm_phase (m_src_phase s) (m_src_period s)) (m_src_duty s)
            then m_src_v1 s else m_src_v2 s,
            set_src_phase s (next_phase (m_src_phase s) (m_src_period s))))
  /\ (forall phase period : Q,
        0 < period -> - period < phase -> phase < period ->
        norm_phase phase period = spec_norm_phase phase period)
  /\ (forall (s0 : Signal) (midpoint peak : Q) (n : nat),
        nth_sample n h (source_square s0 midpoint peak 10 (1 # 2) 0)
        = Ok (if (n mod 10 <? 5)%nat then midpoint else peak)).
Proof.
  split; [| split].
  - intros s K _. rewrite get_sample_periodic by (rewrite K; reflexivity).
    unfold wave_at. rewrite K. reflexivity.
  - apply @norm_phase_spec.
  - intros s0 midpoint peak n. apply square_cycle_sample.
Qed.

Lemma square_duty_law_witness :
  get_sample (L:=libm_coarse) ∅ (source_square idle_signal 0 1 10 (1 # 2) 3)
  = Ok (0, source_square idle_signal 0 1 10 (1 # 2) (fmod (rnd64 (3 + 1)) 10))
  /\ norm_phase (-3) 10 = spec_norm_phase (-3) 10
  /\ nth_sample (L:=libm_coarse) 7 ∅ (source_square idle_signal 0 1 10 (1 # 2) 0)
     = Ok 1.
Proof.
  destruct (square_duty_law (L:=libm_coarse) ∅) as (A & B & C).
  split; [| split].
  - rewrite A by (try reflexivity; discriminate). reflexivity.
  - apply B; reflexivity.
  - apply (C idle_signal 0 1 7%nat).
Defined.

(** C2 as stated fails on the first call after a configuration whose phase
    is not below the period: with period 8, duty 1/2 and phase 9 the code
    compares 9/8 with the duty and returns [peak], while
    [(9 mod 8) / 8 = 1/8] is below the duty and the stated rule gives
    [midpoint].  All the numbers involved are exact in binary64. *)
Lemma square_duty_law_counterexample :
  let s := source_square idle_signal 0 1 8 (1 # 2) 9 in
  m_src s = SRC_SQUARE /\ m_src_v1 s < m_src_v2 s /\
  nth_sample (L:=libm_coarse) 0 ∅ s = Ok (m_src_v2 s) /\
  spec_square (m_src_v1 s) (m_src_v2 s) (m_src_period s) (m_src_duty s)
    (m_src_phase s) = m_src_v1 s.
Proof.
  cbv zeta. split; [reflexivity |]. split; [reflexivity |].
  split; vm_compute; reflexivity.
Qed.

(** ** The sawtooth wave *)

Section Sawtooth.
Context `{L : Libm}.

Lemma get_sample_sawtooth (h : heap) (s : Signal) :
  m_src s = SRC_SAWTOOTH ->
  get_sample h s
  = Ok (sawtooth_sample (m_src_v2 s) (m_src_period s) (m_src_phase s)
          (rnd32 (m_src_v2 s - m_src_v1 s)),
        set_src_phase s (next_phase (m_src_phase s) (m_src_period s))).
Proof.
  intros K. rewrite get_sample_periodic by (rewrite K; reflexivity).
  unfold wave_at. rewrite K. reflexivity.
Qed.

(** [truncf] of a [float] that is not negative is its floor. *)
Lemma trunc_float (x : Q) :
  0 <= x -> is_float x -> trunc (rnd32 x) = Qfloor x.
Proof.
  intros Hx F. rewrite (trunc_proper _ _ F). now apply trunc_nonneg.
Qed.

(** The fractional part of a [float] is a [float]: the differences
    [period - int_period] and [phase - int_phase] are exact. *)
Lemma frac_float (x : Q) : 0 <= x -> is_float x -> is_float (frac x).
Proof.
  intros Hx F.
  assert (fmod x 1 == frac x) as E.
  { unfold fmod, frac.
    assert (x / 1 == x) as D by (field; lra).
    rewrite (trunc_proper _ _ D), (trunc_nonneg x Hx). ring. }
  apply (is_float_compat _ _ E).
  apply is_float_representable.
  apply fmod_representable; try lia; try lra; apply is_float_representable;
    [exact F | apply (is_float_Z 1); reflexivity].
Qed.

Lemma frac_float_rounded (x : Q) :
  0 <= x -> is_float x ->
  rnd32 (rnd64 (x - inject_Z (trunc (rnd32 x)))) == frac x.
Proof.
  intros Hx F. rewrite (trunc_float x Hx F). fold (frac x).
  pose proof (frac_float x Hx F) as FF.
  pose proof (is_float_double _ FF) as FD. unfold is_double in FD.
  rewrite (rnd32_compat _ _ FD). exact FF.
Qed.

(** On [float] arguments the divisor is the one the floor rule names. *)
Lemma sawtooth_max_int_phase_spec (period phase : Q) :
  0 <= phase -> 0 <= period -> period <= 2 ^ 24 ->
  is_float phase -> is_float period ->
  sawtooth_max_int_phase period phase == spec_max_int_phase period phase.
Proof.
  intros P0 R0 R1 FP FR. unfold sawtooth_max_int_phase, spec_max_int_phase.
  rewrite (Qle_bool_proper _ _ _ _ (frac_float_rounded period R0 FR)
             (frac_float_rounded phase P0 FP)).
  rewrite (trunc_float period R0 FR).
  destruct (Qle_bool (frac period) (frac phase)); [| reflexivity].
  assert (0 <= Qfloor period <= 2 ^ 24)%Z as B.
  { split.
    - change 0%Z with (Qfloor 0). now apply Qfloor_resp_le.
    - change (2 ^ 24)%Z with (Qfloor (2 ^ 24)). now apply Qfloor_resp_le. }
  assert (inject_Z (Qfloor period) - 1 == inject_Z (Qfloor period - 1)) as E.
  { unfold Z.sub. rewrite inject_Z_plus, inject_Z_opp. reflexivity. }
  rewrite (rnd32_compat _ _ E), E.
  apply (is_float_Z (Qfloor period - 1)). lia.
Qed.

End Sawtooth.




(** ** The triangle wave *)

Section Triangle.
Context `{L : Libm}.


Lemma is_double_small (z : Z) : (Z.abs z < 2 ^ 24)%Z -> is_double (inject_Z z).
Proof. intros H. apply is_float_double, is_float_Z, H. Qed.





(** When the amplitude is not rounded up, that sum stays at or below the
    upper level. *)
Lemma triangle_top (v1 v2 : Q) :
  is_float v2 -> rnd32 (v2 - v1) <= v2 - v1 ->
  rnd32 (rnd64 (v1 + rnd32 (v2 - v1))) <= v2.
Proof.
  intros F2 R. apply rnd32_le; [exact F2 |].
  apply rnd64_le; [now apply is_float_double | lra].
Qed.

(** The normalised phase of a stored phase within one period of zero. *)
Lemma norm_phase_unit (phase period : Q) :
  0 < period -> - period < phase -> phase < period ->
  0 <= norm_phase phase period /\ norm_phase phase period <= 1.
Proof.
  intros Hp Lo Hi. unfold norm_phase.
  assert (-1 < phase / period) as D0.
  { apply Qlt_shift_div_l; lra. }
  assert (phase / period < 1) as D1.
  { apply Qlt_shift_div_r; lra. }
  assert (-1 <= rnd64 (phase / period)) as R0
    by (apply rnd64_ge; [apply (is_double_small (-1)); reflexivity | lra]).
  assert (rnd64 (phase / period) <= 1) as R1
    by (apply rnd64_le; [apply (is_double_small 1); reflexivity | lra]).
  destruct (Qltb (rnd64 (phase / period)) 0) eqn:E.
  - apply Qltb_lt in E. split.
    + apply rnd_nonneg; [lia | lra].
    + apply rnd64_le; [apply (is_double_small 1); reflexivity | lra].
  - apply Qltb_ge in E. split; [exact E | exact R1].
Qed.

(** A stored phase in [[0, period)], both doubles: the quotient rounds to
    a value below one. *)
Lemma norm_phase_below (phase period : Q) :
  0 <= phase -> phase < period -> is_double phase -> is_double period ->
  0 <= norm_phase phase period /\ norm_phase phase period < 1.
Proof.
  intros P0 P1 DP DR. unfold norm_phase.
  assert (0 <= phase / period) as D0 by (apply Qle_shift_div_l; lra).
  assert (0 <= rnd64 (phase / period)) as R0 by (apply rnd_nonneg; [lia | lra]).
  pose proof (rnd64_quotient_lt phase period P0 P1 DP DR) as R1.
  apply Qltb_ge in R0. rewrite R0. apply Qltb_ge in R0. split; assumption.
Qed.

Lemma norm_phase_overrun (phase period : Q) :
  0 < period -> period <= phase -> 1 <= norm_phase phase period.
Proof.
  intros Hp Hi. unfold norm_phase.
  assert (1 <= phase / period) as D.
  { apply Qle_shift_div_l; lra. }
  assert (1 <= rnd64 (phase / period)) as R
    by (apply rnd64_ge; [apply (is_double_small 1); reflexivity | exact D]).
  assert (Qltb (rnd64 (phase / period)) 0 = false) as E
    by (apply Qltb_ge; lra).
  rewrite E. exact R.
Qed.

End Triangle.




(** ** Bounds on the stored and the normalised phase *)

(** C10, as amended.  For a periodic source with [period > 0]: the phase
    stored by a call of [get_sample] is below the period in magnitude; a
    call whose pre-advance phase lies strictly between [-period] and
    [period] evaluates its waveform at a normalised phase in [[0, 1]], and
    in [[0, 1)] when that phase is not negative; and the first call after a
    [source_*] configuration with a phase argument of at least the period
    evaluates it at a normalised phase of at least 1. *)
Theorem phase_bounds `{L : Libm} (h : heap) (s : Signal) :
  is_periodic (m_src s) = true ->
  0 < m_src_period s ->
  let np := norm_phase (m_src_phase s) (m_src_period s) in
  (exists s',
      get_sample h s
      = Ok (wave_value (m_src s) (m_src_v1 s) (m_src_v2 s) (m_src_period s)
              (m_src_duty s) (m_src_phase s) np, s') /\
      m_src_period s' = m_src_period s /\
      Qabs (m_src_phase s') < m_src_period s')
  /\ (- m_src_period s < m_src_phase s -> m_src_phase s < m_src_period s ->
      0 <= np /\ np <= 1)
  /\ (0 <= m_src_phase s -> m_src_phase s < m_src_period s ->
      is_double (m_src_phase s) -> is_double (m_src_period s) ->
      0 <= np /\ np < 1)
  /\ (forall (s0 : Signal) (midpoint peak period duty phase : Q),
        s = source_square s0 midpoint peak period duty phase ->
        period <= phase -> 1 <= np)
  /\ (forall (k : Src) (s0 : Signal) (midpoint peak period phase : Q),
        s = source_periodic k s0 midpoint peak period phase ->
        period <= phase -> 1 <= np).
Proof.
  intros P Hp np. split; [| split; [| split; [| split]]].
  - eexists. split; [apply get_sample_periodic; exact P |].
    split; [reflexivity |]. read_fields. unfold next_phase.
    now apply fmod_abs_lt.
  - intros Lo Hi. now apply norm_phase_unit.
  - intros P0 P1 DP DR. now apply norm_phase_below.
  - intros s0 midpoint peak period duty phase E Hi. subst s np.
    revert Hp. read_fields. intros Hp. now apply norm_phase_overrun.
  - intros k s0 midpoint peak period phase E Hi. subst s np.
    revert Hp. read_fields. intros Hp. now apply norm_phase_overrun.
Qed.

Lemma phase_bounds_witness :
  let s := source_square idle_signal 0 1 8 (1 # 2) 9 in
  let t := source_stairstep idle_signal 0 1 8 (-3) in
  let u := source_sine idle_signal 0 1 8 3 in
  (exists s',
      get_sample (L:=libm_coarse) ∅ s
      = Ok (wave_value (L:=libm_coarse) SRC_SQUARE 0 1 8 (1 # 2) 9
              (norm_phase 9 8), s') /\
      m_src_period s' = m_src_period s /\
      Qabs (m_src_phase s') < m_src_period s')
  /\ 1 <= norm_phase 9 8
  /\ (0 <= norm_phase (m_src_phase t) (m_src_period t)
      /\ norm_phase (m_src_phase t) (m_src_period t) <= 1)
  /\ (0 <= norm_phase (m_src_phase u) (m_src_period u)
      /\ norm_phase (m_src_phase u) (m_src_period u) < 1).
Proof.
  intros s t u.
  destruct (phase_bounds (L:=libm_coarse) ∅ s) as (A & _ & _ & C & _);
    [reflexivity | reflexivity |].
  destruct (phase_bounds (L:=libm_coarse) ∅ t) as (_ & B & _);
    [reflexivity | reflexivity |].
  destruct (phase_bounds (L:=libm_coarse) ∅ u) as (_ & _ & D & _);
    [reflexivity | reflexivity |].
  split; [exact A |].
  split; [apply (C idle_signal 0 1 8 (1 # 2) 9); [reflexivity | simpl; lra] |].
  split; [apply B; reflexivity |].
  apply D; vm_compute; try reflexivity; discriminate.
Defined.

(** C10 as stated fails: the stairstep source with levels 0 and 9 and
    period 8 started at phase [-2^-60], a [double] strictly between
    [-period] and [period], divides to [-2^-63], and [-2^-63 + 1] rounds to
    1 in binary64.  The normalised phase used is 1, not below 1, and the
    sample is [9 - 10 * 9 / 9 = -1], below the lower level. *)
Lemma phase_bounds_counterexample :
  let s := source_stairstep idle_signal 0 9 8 (- (1 # 2 ^ 60)) in
  is_periodic (m_src s) = true /\ 0 < m_src_period s /\
  - m_src_period s < m_src_phase s /\ m_src_phase s < m_src_period s /\
  is_double (m_src_phase s) /\
  norm_phase (m_src_phase s) (m_src_period s) = 1 /\
  ~ norm_phase (m_src_phase s) (m_src_period s) < 1 /\
  nth_sample (L:=libm_coarse) 0 ∅ s = Ok (-1).
Proof.
  cbv zeta. split; [reflexivity |]. split; [reflexivity |].
  split; [reflexivity |]. split; [reflexivity |].
  split; [vm_compute; reflexivity |]. split; [vm_compute; reflexivity |].
  split; [vm_compute; discriminate | vm_compute; reflexivity].
Qed.

(** ** Sequences of calls *)

Section Runs.
Context `{L : Libm}.

(** The last of [n + 1] calls can be split off. *)
Lemma calls_S_out (n : nat) (h : heap) (s : Signal) :
  calls (S n) h s
  = (sn ← calls n h s; '(_, s') ← get_sample h sn; Ok s').
Proof.
  revert s. induction n as [| n IH]; intros s.
  - simpl. destruct (get_sample h s) as [[v s'] | e]; reflexivity.
  - change (calls (S (S n)) h s)
      with ('(_, s') ← get_sample h s; calls (S n) h s').
    change (calls (S n) h s) with ('(_, s') ← get_sample h s; calls n h s').
    destruct (get_sample h s) as [[v s'] | e]; [| reflexivity].
    simpl. apply IH.
Qed.

(** Call number [n] is a call on the object left by [n] calls. *)
Lemma nth_sample_calls (n : nat) (h : heap) (s : Signal) :
  nth_sample n h s
  = (sn ← calls n h s; '(v, _) ← get_sample h sn; Ok v).
Proof.
  revert s. induction n as [| n IH]; intros s.
  - simpl. destruct (get_sample h s) as [[v s'] | e]; reflexivity.
  - change (nth_sample (S n) h s)
      with ('(_, s') ← get_sample h s; nth_sample n h s').
    change (calls (S n) h s) with ('(_, s') ← get_sample h s; calls n h s').
    destruct (get_sample h s) as [[v s'] | e]; [| reflexivity].
    simpl. apply IH.
Qed.

Lemma mod_succ_small (n len : nat) :
  (S (n mod len) < len)%nat -> (S n mod len = S (n mod len))%nat.
Proof.
  intros B. symmetry. apply (Nat.mod_unique (S n) len (n / len)); [exact B |].
  pose proof (Nat.div_mod_eq n len). lia.
Qed.

Lemma mod_succ_wrap (n len : nat) :
  S (n mod len) = len -> (S n mod len = 0)%nat.
Proof.
  intros B. symmetry. apply (Nat.mod_unique (S n) len (S (n / len))); [lia |].
  pose proof (Nat.div_mod_eq n len). lia.
Qed.

End Runs.

(** ** The buffer source *)

Section Buffer.
Context `{L : Libm}.
Variables (h : heap) (b : positive) (data : list Q).
Hypothesis Hblk : h !! b = Some data.
Hypothesis Hsize : (N.of_nat (length data) < SIZE_MOD)%N.

Variable s : Signal.
Hypothesis Hsrc : m_src s = SRC_BUFFER.
Hypothesis Hbuf : m_src_buf s = Some (Ptr b 0).
Hypothesis Hlen : m_src_buf_len s = N.of_nat (length data).

Lemma load_data (i : nat) (v : Q) :
  data !! i = Some v -> load h (Some (Ptr b 0)) (N.of_nat i) = Ok v.
Proof.
  intros E. pose proof (lookup_lt_Some _ _ _ E) as B.
  unfold load. cbn [p_blk p_off]. rewrite Hblk. cbv zeta.
  rewrite Z.add_0_l.
  replace ((Z.of_N (N.of_nat i) <? 0)%Z
           || (Z.of_nat (length data) <=? Z.of_N (N.of_nat i))%Z)
    with false.
  - rewrite nat_N_Z, Nat2Z.id, E. reflexivity.
  - symmetry. apply orb_false_intro; [apply Z.ltb_ge | apply Z.leb_gt]; lia.
Qed.

Lemma size_add_succ (i : nat) :
  (i < length data)%nat -> size_add (N.of_nat i) 1 = N.of_nat (S i).
Proof.
  intros B. unfold size_add. rewrite N.mod_small; lia.
Qed.

Lemma size_sub_pred :
  (1 <= length data)%nat ->
  size_sub (N.of_nat (length data)) 1 = N.of_nat (length data - 1).
Proof.
  intros B. unfold size_sub.
  assert (1 < SIZE_MOD)%N as S1 by reflexivity.
  rewrite (N.mod_small 1) by exact S1.
  replace (N.of_nat (length data) + SIZE_MOD - 1)%N
    with (N.of_nat (length data - 1) + 1 * SIZE_MOD)%N by lia.
  rewrite N.Div0.mod_add. apply N.mod_small. lia.
Qed.

(** A call with the read index inside the buffer. *)
Lemma step_in (i : nat) (v : Q) :
  data !! i = Some v ->
  get_sample h (set_src_i s (N.of_nat i))
  = Ok (v, set_src_i s (N.of_nat (S i))).
Proof.
  intros E. pose proof (lookup_lt_Some _ _ _ E) as B.
  unfold get_sample. cbn [m_src m_src_buf m_src_i m_src_buf_len set_src_i].
  rewrite Hsrc, Hlen, Hbuf.
  replace (N.of_nat (length data) <=? N.of_nat i)%N with false
    by (symmetry; apply N.leb_gt; lia).
  rewrite (load_data i v E). cbn [mbind result_bind].
  rewrite (size_add_succ i B). reflexivity.
Qed.

(** A call past the end without repetition. *)
Lemma step_hold (v : Q) :
  m_src_buf_repeat s = false ->
  data !! (length data - 1)%nat = Some v ->
  get_sample h (set_src_i s (N.of_nat (length data)))
  = Ok (v, set_src_i s (N.of_nat (length data))).
Proof.
  intros R E. pose proof (lookup_lt_Some _ _ _ E) as B.
  unfold get_sample.
  cbn [m_src m_src_buf m_src_i m_src_buf_len m_src_buf_repeat set_src_i].
  rewrite Hsrc, Hlen, Hbuf, R, N.leb_refl.
  rewrite size_sub_pred by lia.
  rewrite (load_data _ v E). reflexivity.
Qed.

(** A call past the end with repetition. *)
Lemma step_wrap (v : Q) :
  m_src_buf_repeat s = true ->
  data !! 0%nat = Some v ->
  get_sample h (set_src_i s (N.of_nat (length data)))
  = Ok (v, set_src_i s 1%N).
Proof.
  intros R E. pose proof (lookup_lt_Some _ _ _ E) as B.
  unfold get_sample.
  cbn [m_src m_src_buf m_src_i m_src_buf_len m_src_buf_repeat set_src_i].
  rewrite Hsrc, Hlen, Hbuf, R, N.leb_refl.
  cbn [m_src m_src_buf m_src_i m_src_buf_len m_src_buf_repeat set_src_i].
  change 0%N with (N.of_nat 0).
  rewrite (load_data 0 v E). cbn [mbind result_bind].
  rewrite (size_add_succ 0 B). reflexivity.
Qed.

Hypothesis Hne : (1 <= length data)%nat.

(** Without repetition the read index climbs to the length and stays. *)
Lemma calls_hold (n : nat) :
  m_src_buf_repeat s = false ->
  calls n h (set_src_i s 0%N)
  = Ok (set_src_i s (N.of_nat (Nat.min n (length data)))).
Proof.
  intros R. induction n as [| n IH].
  - reflexivity.
  - rewrite calls_S_out, IH. cbn [mbind result_bind].
    destruct (Nat.lt_ge_cases n (length data)) as [B | B].
    + destruct (lookup_lt_is_Some_2 data n B) as [v E].
      rewrite Nat.min_l by lia. rewrite (step_in n v E).
      rewrite Nat.min_l by lia. reflexivity.
    + destruct (lookup_lt_is_Some_2 data (length data - 1)) as [v E]; [lia |].
      rewrite Nat.min_r by lia. rewrite (step_hold v R E).
      rewrite Nat.min_r by lia. reflexivity.
Qed.

Lemma nth_sample_hold (n : nat) (v : Q) :
  m_src_buf_repeat s = false ->
  data !! Nat.min n (length data - 1) = Some v ->
  nth_sample n h (set_src_i s 0%N) = Ok v.
Proof.
  intros R E. rewrite nth_sample_calls, (calls_hold n R).
  cbn [mbind result_bind].
  destruct (Nat.lt_ge_cases n (length data)) as [B | B].
  - rewrite Nat.min_l in E by lia. rewrite Nat.min_l by lia.
    rewrite (step_in n v E). reflexivity.
  - rewrite Nat.min_r in E by lia. rewrite Nat.min_r by lia.
    rewrite (step_hold v R E). reflexivity.
Qed.

(** With repetition the read index after call [n] is [n mod length + 1]. *)
Lemma calls_repeat (n : nat) :
  m_src_buf_repeat s = true ->
  calls (S n) h (set_src_i s 0%N)
  = Ok (set_src_i s (N.of_nat (n mod length data + 1))).
Proof.
  intros R. induction n as [| n IH].
  - destruct (lookup_lt_is_Some_2 data 0) as [v E]; [lia |].
    rewrite calls_S_out. cbn [calls mbind result_bind].
    change 0%N with (N.of_nat 0). rewrite (step_in 0 v E).
    rewrite Nat.Div0.mod_0_l. reflexivity.
  - rewrite calls_S_out, IH. cbn [mbind result_bind].
    pose proof (Nat.mod_upper_bound n (length data)) as U.
    destruct (Nat.eq_dec (S (n mod length data)) (length data)) as [W | W].
    + destruct (lookup_lt_is_Some_2 data 0) as [v E]; [lia |].
      rewrite Nat.add_1_r, W. rewrite (step_wrap v R E).
      rewrite (mod_succ_wrap n _ W). reflexivity.
    + destruct (lookup_lt_is_Some_2 data (n mod length data + 1)) as [v E];
        [lia |].
      rewrite (step_in _ v E).
      rewrite (mod_succ_small n (length data)) by lia.
      do 3 f_equal; lia.
Qed.

Lemma nth_sample_repeat (n : nat) (v : Q) :
  m_src_buf_repeat s = true ->
  data !! (n mod length data)%nat = Some v ->
  nth_sample n h (set_src_i s 0%N) = Ok v.
Proof.
  intros R E. rewrite nth_sample_calls.
  destruct n as [| n].
  - rewrite Nat.Div0.mod_0_l in E. cbn [calls mbind result_bind].
    change 0%N with (N.of_nat 0). rewrite (step_in 0 v E). reflexivity.
  - rewrite (calls_repeat n R). cbn [mbind result_bind].
    pose proof (Nat.mod_upper_bound n (length data)) as U.
    destruct (Nat.eq_dec (S (n mod length data)) (length data)) as [W | W].
    + rewrite (mod_succ_wrap n _ W) in E.
      rewrite Nat.add_1_r, W. rewrite (step_wrap v R E). reflexivity.
    + rewrite (mod_succ_small n (length data)) in E by lia.
      rewrite Nat.add_1_r. rewrite (step_in _ v E). reflexivity.
Qed.

End Buffer.

(** C4.  After [source_buffer(data, length, repeat)] with [length >= 1]
    the first [length] calls return [data[0 .. length-1]] in order.  With
    [repeat] the sequence then restarts: call number [n] returns
    [data[n mod length]].  Without it every later call returns
    [data[length-1]] and the read index stays at [length]. *)
Theorem buffer_source_sequence `{L : Libm} (h : heap) (s0 : Signal)
    (b : positive) (data : list Q) (repeat : bool) :
  h !! b = Some data ->
  (1 <= length data)%nat ->
  (N.of_nat (length data) < SIZE_MOD)%N ->
  let len := N.of_nat (length data) in
  let s := source_buffer s0 (Some (Ptr b 0)) len repeat in
  (forall (n : nat) (v : Q), data !! n = Some v -> nth_sample n h s = Ok v)
  /\ (repeat = true ->
      forall (n : nat) (v : Q),
        data !! (n mod length data)%nat = Some v -> nth_sample n h s = Ok v)
  /\ (repeat = false ->
      forall n : nat, (length data <= n)%nat ->
        (forall v : Q,
            data !! (length data - 1)%nat = Some v -> nth_sample n h s = Ok v)
        /\ exists sn, calls n h s = Ok sn /\ m_src_i sn = len).
Proof.
  intros Hblk Hne Hsize len s. unfold s, source_buffer.
  set (s1 := set_src_buf_repeat _ repeat).
  assert (m_src s1 = SRC_BUFFER) as Hsrc by reflexivity.
  assert (m_src_buf s1 = Some (Ptr b 0)) as Hbuf by reflexivity.
  assert (m_src_buf_len s1 = N.of_nat (length data)) as Hlen by reflexivity.
  assert (m_src_buf_repeat s1 = repeat) as Hrep by reflexivity.
  split; [| split].
  - intros n v E. pose proof (lookup_lt_Some _ _ _ E) as B.
    destruct repeat.
    + apply (nth_sample_repeat h b data Hblk Hsize s1 Hsrc Hbuf Hlen Hne n v Hrep).
      now rewrite Nat.mod_small by exact B.
    + apply (nth_sample_hold h b data Hblk Hsize s1 Hsrc Hbuf Hlen Hne n v Hrep).
      now rewrite Nat.min_l by lia.
  - intros R n v E. rewrite R in Hrep.
    now apply (nth_sample_repeat h b data Hblk Hsize s1 Hsrc Hbuf Hlen Hne n v).
  - intros R n B. rewrite R in Hrep. split.
    + intros v E.
      apply (nth_sample_hold h b data Hblk Hsize s1 Hsrc Hbuf Hlen Hne n v Hrep).
      now rewrite Nat.min_r by lia.
    + eexists. split.
      * apply (calls_hold h b data Hblk Hsize s1 Hsrc Hbuf Hlen Hne n Hrep).
      * cbn [m_src_i set_src_i]. now rewrite Nat.min_r by lia.
Qed.

Lemma buffer_source_sequence_witness :
  let h : heap := {[ 1%positive := [1; 2; 3] ]} in
  let hold := source_buffer idle_signal (Some (Ptr 1 0)) 3 false in
  let loop := source_buffer idle_signal (Some (Ptr 1 0)) 3 true in
  nth_sample (L:=libm_coarse) 2 h hold = Ok 3
  /\ nth_sample (L:=libm_coarse) 3 h hold = Ok 3
  /\ nth_sample (L:=libm_coarse) 100 h hold = Ok 3
  /\ (exists sn, calls (L:=libm_coarse) 100 h hold = Ok sn /\ m_src_i sn = 3%N)
  /\ nth_sample (L:=libm_coarse) 3 h loop = Ok 1.
Proof.
  intros h hold loop.
  assert (h !! 1%positive = Some [1; 2; 3]) as Hblk by reflexivity.
  assert (1 <= length [1; 2; 3])%nat as Hne by (simpl; lia).
  assert (N.of_nat (length [1; 2; 3]) < SIZE_MOD)%N as Hsize by reflexivity.
  destruct (buffer_source_sequence (L:=libm_coarse) h idle_signal 1 [1; 2; 3]
              false Hblk Hne Hsize) as (A & _ & C).
  destruct (buffer_source_sequence (L:=libm_coarse) h idle_signal 1 [1; 2; 3]
              true Hblk Hne Hsize) as (_ & B & _).
  split; [apply (A 2%nat 3); reflexivity |].
  split; [apply (C eq_refl 3%nat); [simpl; lia | reflexivity] |].
  split; [apply (C eq_refl 100%nat); [simpl; lia | reflexivity] |].
  split; [apply (C eq_refl 100%nat); simpl; lia |].
  apply (B eq_refl 3%nat 1). reflexivity.
Defined.

(** ** Measurement *)

Section Measure.

Lemma size_sub_one (n : N) :
  n <> 0%N -> (n < SIZE_MOD)%N -> size_sub n 1 = (n - 1)%N.
Proof.
  intros N0 B. unfold size_sub.
  assert (1 < SIZE_MOD)%N as S1 by reflexivity.
  rewrite (N.mod_small 1) by exact S1.
  replace (n + SIZE_MOD - 1)%N with (n - 1 + 1 * SIZE_MOD)%N by lia.
  rewrite N.Div0.mod_add. apply N.mod_small. lia.
Qed.

Lemma store_in_bounds (h : heap) (b : positive) (off : Z) (arr : list Q)
    (v : Q) :
  h !! b = Some arr ->
  (0 <= off < Z.of_nat (length arr))%Z ->
  store h (Some (Ptr b off)) v = Ok (<[b := <[Z.to_nat off := v]> arr]> h).
Proof.
  intros Hb B. unfold store. cbn [p_blk p_off]. rewrite Hb. cbv zeta.
  replace ((off <? 0)%Z || (Z.of_nat (length arr) <=? off)%Z) with false;
    [reflexivity |].
  symmetry. apply orb_false_intro; [apply Z.ltb_ge | apply Z.leb_gt]; lia.
Qed.

Lemma store_dom (h h' : heap) (p : option ptr) (v : Q) :
  store h p v = Ok h' -> dom h' = dom h.
Proof.
  unfold store. destruct p as [q |]; [| discriminate].
  destruct (h !! p_blk q) as [arr |] eqn:E; [| discriminate].
  cbv zeta.
  destruct ((p_off q <? 0)%Z || (Z.of_nat (length arr) <=? p_off q)%Z);
    [discriminate |].
  intros H. apply Ok_inj in H. subst h'.
  rewrite dom_insert_L.
  assert (p_blk q ∈ dom h) as In by (apply elem_of_dom; eauto).
  apply (anti_symm (⊆)).
  - intros x Hx. apply elem_of_union in Hx as [Hx | Hx]; [| exact Hx].
    apply elem_of_singleton in Hx. now subst x.
  - apply union_subseteq_r.
Qed.

End Measure.

(** C5.  [put_sample(value)] sets [last_measurement] to [value] whatever
    the destination is.  With no destination, or a buffer destination whose
    remaining capacity is 0, nothing else changes.  With a buffer
    destination of remaining capacity above 0 it writes [value] at the
    cursor, moves the cursor one element on and lowers the remaining
    capacity by 1.  With a callback destination it hands [value] to the
    sink. *)
Theorem put_sample_effect (val : Q) (w : World) (s : Signal) :
  let s1 := set_latest_measurement s val in
  (m_dest s = DEST_DEFAULT -> put_sample val (w, s) = Ok (w, s1))
  /\ (m_dest s = DEST_BUFFER -> m_dest_buf_len s = 0%N ->
      put_sample val (w, s) = Ok (w, s1))
  /\ (m_dest s = DEST_BUFFER -> m_dest_buf_len s <> 0%N ->
      (m_dest_buf_len s < SIZE_MOD)%N ->
      forall (b : positive) (off : Z) (arr : list Q),
        m_dest_buf s = Some (Ptr b off) ->
        w_heap w !! b = Some arr ->
        (0 <= off < Z.of_nat (length arr))%Z ->
        put_sample val (w, s)
        = Ok (mkWorld (<[b := <[Z.to_nat off := val]> arr]> (w_heap w))
                (w_sink w),
              set_dest_buf_len (set_dest_buf s1 (Some (Ptr b (off + 1))))
                (m_dest_buf_len s - 1)))
  /\ (m_dest s = DEST_CALLBACK ->
      forall f : Q -> list Q -> list Q,
        m_dest_callback s = Some f ->
        put_sample val (w, s) = Ok (mkWorld (w_heap w) (f val (w_sink w)), s1))
  /\ (forall (w' : World) (s' : Signal),
        put_sample val (w, s) = Ok (w', s') -> m_latest_measurement s' = val).
Proof.
  intros s1. unfold put_sample. fold s1.
  replace (m_dest s1) with (m_dest s) by reflexivity.
  replace (m_dest_buf_len s1) with (m_dest_buf_len s) by reflexivity.
  replace (m_dest_buf s1) with (m_dest_buf s) by reflexivity.
  replace (m_dest_callback s1) with (m_dest_callback s) by reflexivity.
  split; [| split; [| split; [| split]]].
  - intros D. rewrite D. reflexivity.
  - intros D Z0. rewrite D, Z0. reflexivity.
  - intros D N0 B b off arr Hp Hb Hoff. rewrite D.
    apply N.eqb_neq in N0 as N0'. rewrite N0', Hp.
    rewrite (store_in_bounds _ _ _ _ val Hb Hoff). cbn [mbind result_bind].
    cbn [m_dest_buf_len set_dest_buf ptr_incr p_blk p_off].
    replace (m_dest_buf_len s1) with (m_dest_buf_len s) by reflexivity.
    rewrite (size_sub_one _ N0 B). reflexivity.
  - intros D f Hf. rewrite D, Hf. reflexivity.
  - intros w' s'. destruct (m_dest s).
    + intros H. apply Ok_inj in H. injection H as _ <-. reflexivity.
    + destruct (m_dest_buf_len s =? 0)%N.
      * intros H. apply Ok_inj in H. injection H as _ <-. reflexivity.
      * destruct (store (w_heap w) (m_dest_buf s) val) as [h' | e];
          cbn [mbind result_bind]; [| discriminate].
        intros H. apply Ok_inj in H. injection H as _ <-. reflexivity.
    + destruct (m_dest_callback s) as [f |]; [| discriminate].
      intros H. apply Ok_inj in H. injection H as _ <-. reflexivity.
Qed.

Lemma put_sample_effect_witness :
  let log : Q -> list Q -> list Q := fun v l => v :: l in
  let w := mkWorld {[ 1%positive := [0; 0] ]} [] in
  let none := idle_signal in
  let full := measure_buffer idle_signal (Some (Ptr 1 2)) 0 in
  let room := measure_buffer idle_signal (Some (Ptr 1 0)) 2 in
  let sink := measure_callback idle_signal (Some log) in
  put_sample 5 (w, none) = Ok (w, set_latest_measurement none 5)
  /\ put_sample 5 (w, full) = Ok (w, set_latest_measurement full 5)
  /\ put_sample 5 (w, room)
     = Ok (mkWorld {[ 1%positive := [5; 0] ]} [],
           set_latest_measurement
             (measure_buffer idle_signal (Some (Ptr 1 1)) 1) 5)
  /\ put_sample 5 (w, sink)
     = Ok (mkWorld {[ 1%positive := [0; 0] ]} [5], set_latest_measurement sink 5).
Proof.
  intros log w none full room sink.
  destruct (put_sample_effect 5 w none) as (A & _).
  destruct (put_sample_effect 5 w full) as (_ & B & _).
  destruct (put_sample_effect 5 w room) as (_ & _ & C & _).
  destruct (put_sample_effect 5 w sink) as (_ & _ & _ & D & _).
  split; [apply A; reflexivity |].
  split; [apply B; reflexivity |].
  split; [| apply (D eq_refl log); reflexivity].
  assert (m_dest_buf_len room <> 0%N) as N0 by discriminate.
  assert (0 <= 0 < Z.of_nat (length [0; 0]))%Z as Hoff by (simpl; lia).
  rewrite (C eq_refl N0 eq_refl 1%positive 0%Z [0; 0] eq_refl eq_refl Hoff).
  vm_compute. reflexivity.
Defined.

(** C8.  [measure_buffer] and [measure_callback] assign the destination
    kind and the destination state only: [last_measurement] and every field
    of the source (kind, levels, period, duty, phase, buffer, read index,
    length, repeat flag, callback) keep their values. *)
Theorem measure_frame (s : Signal) (buf : option ptr) (len : N)
    (callback : option (Q -> list Q -> list Q)) :
  let frame (t : Signal) :=
    m_latest_measurement t = m_latest_measurement s /\
    m_src t = m_src s /\ m_src_v1 t = m_src_v1 s /\ m_src_v2 t = m_src_v2 s /\
    m_src_period t = m_src_period s /\ m_src_duty t = m_src_duty s /\
    m_src_phase t = m_src_phase s /\ m_src_buf t = m_src_buf s /\
    m_src_i t = m_src_i s /\ m_src_buf_len t = m_src_buf_len s /\
    m_src_buf_repeat t = m_src_buf_repeat s /\
    m_src_callback t = m_src_callback s in
  (frame (measure_buffer s buf len) /\
   m_dest (measure_buffer s buf len) = DEST_BUFFER /\
   m_dest_buf (measure_buffer s buf len) = buf /\
   m_dest_buf_len (measure_buffer s buf len) = len /\
   m_dest_callback (measure_buffer s buf len) = m_dest_callback s)
  /\ (frame (measure_callback s callback) /\
      m_dest (measure_callback s callback) = DEST_CALLBACK /\
      m_dest_callback (measure_callback s callback) = callback /\
      m_dest_buf (measure_callback s callback) = m_dest_buf s /\
      m_dest_buf_len (measure_callback s callback) = m_dest_buf_len s).
Proof.
  cbv zeta. repeat split.
Qed.

(** ** Totality of [get_sample] *)

(** The constant and periodic sources always return a value. *)
Lemma get_sample_total_waveforms `{L : Libm} (h : heap) (s : Signal) :
  m_src s <> SRC_BUFFER -> m_src s <> SRC_CALLBACK ->
  exists v s', get_sample h s = Ok (v, s').
Proof.
  intros NB NC. destruct (m_src s) eqn:K; try congruence;
    try (rewrite get_sample_periodic by (rewrite K; reflexivity); eauto).
  unfold get_sample. rewrite K. eauto.
Qed.

(** C6, the failing input.  A buffer source of length 0 over an empty
    array: without repetition [get_sample] reads element [length - 1],
    which wraps to the largest [size_t]; with repetition it reads element
    0.  Both lie outside the array. *)
Theorem get_sample_empty_buffer `{L : Libm} (s0 : Signal) (repeat : bool) :
  get_sample {[ 1%positive := [] ]}
    (source_buffer s0 (Some (Ptr 1 0)) 0 repeat)
  = Fault OutOfBounds.
Proof.
  destruct repeat; reflexivity.
Qed.

(** ** Ownership of the source buffer *)

Section Ownership.

Lemma delete_array_frees (h h' : heap) (q : ptr) :
  delete_array h q = Ok h' -> h' = delete (p_blk q) h.
Proof.
  unfold delete_array. destruct (h !! p_blk q); [| discriminate].
  destruct (p_off q =? 0)%Z; [| discriminate].
  intros H. apply Ok_inj in H. now subst h'.
Qed.

Lemma put_sample_dom (val : Q) (w w' : World) (s s' : Signal) :
  put_sample val (w, s) = Ok (w', s') -> dom (w_heap w') = dom (w_heap w).
Proof.
  unfold put_sample. destruct (m_dest (set_latest_measurement s val)).
  - intros H. apply Ok_inj in H. injection H as <- _. reflexivity.
  - destruct (m_dest_buf_len (set_latest_measurement s val) =? 0)%N.
    + intros H. apply Ok_inj in H. injection H as <- _. reflexivity.
    + destruct (store (w_heap w) (m_dest_buf (set_latest_measurement s val))
                  val) as [h' | e] eqn:St;
        cbn [mbind result_bind]; [| discriminate].
      intros H. apply Ok_inj in H. injection H as <- _.
      cbn [w_heap]. exact (store_dom _ _ _ _ St).
  - destruct (m_dest_callback (set_latest_measurement s val)) as [f |];
      [| discriminate].
    intros H. apply Ok_inj in H. injection H as <- _. reflexivity.
Qed.

End Ownership.

(** C9, as amended.  [get_sample] takes the heap as an input only and
    [put_sample] keeps every live array live, so sampling never frees
    caller storage.  The destructor does: when the stored source-buffer
    pointer is not null it applies [delete[]] to it, which ends the life of
    that array and of no other; with a null pointer it frees nothing.  The
    destination buffer is never freed. *)
Theorem source_buffer_ownership (h : heap) (s : Signal) :
  (forall (val : Q) (w w' : World) (s' : Signal),
      put_sample val (w, s) = Ok (w', s') -> dom (w_heap w') = dom (w_heap w))
  /\ (m_src_buf s = None -> destroy h s = Ok h)
  /\ (forall (b : positive) (arr : list Q),
        m_src_buf s = Some (Ptr b 0) -> h !! b = Some arr ->
        destroy h s = Ok (delete b h) /\ delete b h !! b = None)
  /\ (forall (h' : heap) (q : ptr),
        m_src_buf s = Some q -> destroy h s = Ok h' ->
        forall b : positive, b <> p_blk q -> h' !! b = h !! b).
Proof.
  split; [| split; [| split]].
  - intros val w w' s'. apply put_sample_dom.
  - intros E. unfold destroy. now rewrite E.
  - intros b arr E Hb. unfold destroy, delete_array. rewrite E.
    cbn [p_blk p_off]. rewrite Hb. split; [reflexivity |].
    apply lookup_delete_eq.
  - intros h' q E D b NE. unfold destroy in D. rewrite E in D.
    apply delete_array_frees in D. subst h'.
    now apply lookup_delete_ne.
Qed.

Lemma source_buffer_ownership_witness :
  let h : heap := {[ 1%positive := [1; 2; 3]; 2%positive := [0; 0] ]} in
  let s := measure_buffer
             (source_buffer idle_signal (Some (Ptr 1 0)) 3 false)
             (Some (Ptr 2 0)) 2 in
  destroy h idle_signal = Ok h
  /\ destroy h s = Ok (delete 1%positive h)
  /\ delete 1%positive h !! 1%positive = None
  /\ (forall h', destroy h s = Ok h' -> h' !! 2%positive = h !! 2%positive).
Proof.
  intros h s.
  destruct (source_buffer_ownership h idle_signal) as (_ & A & _).
  destruct (source_buffer_ownership h s) as (_ & _ & B & C).
  split; [apply A; reflexivity |].
  destruct (B 1%positive [1; 2; 3] eq_refl eq_refl) as [B1 B2].
  split; [exact B1 |]. split; [exact B2 |].
  intros h' D. apply (C h' (Ptr 1 0) eq_refl D). discriminate.
Defined.

(** C9 as stated fails: destroying a Signal configured by [source_buffer]
    over a caller array frees that array. *)
Lemma source_buffer_ownership_counterexample :
  let h : heap := {[ 1%positive := [1; 2; 3] ]} in
  let s := source_buffer idle_signal (Some (Ptr 1 0)) 3 false in
  h !! 1%positive = Some [1; 2; 3] /\
  exists h', destroy h s = Ok h' /\ h' !! 1%positive = None.
Proof.
  cbv zeta. split; [reflexivity |].
  eexists. split; [reflexivity |]. apply lookup_delete_eq.
Qed.


(** * Further properties of [signal.cpp] *)

(** ** Constant and callback sources *)

(** X1.  After [source_constant(val)] every call of [get_sample] returns
    [val] and leaves the object as it was. *)
Theorem constant_source_samples `{L : Libm} (h : heap) (s0 : Signal)
    (val : Q) (n : nat) :
  nth_sample n h (source_constant s0 val) = Ok val /\
  calls n h (source_constant s0 val) = Ok (source_constant s0 val).
Proof.
  assert (get_sample h (source_constant s0 val)
          = Ok (val, source_constant s0 val)) as G by reflexivity.
  assert (calls n h (source_constant s0 val) = Ok (source_constant s0 val))
    as C.
  { induction n as [| n IH]; [reflexivity |].
    cbn [calls]. rewrite G. cbn [mbind result_bind]. exact IH. }
  split; [| exact C].
  rewrite nth_sample_calls, C. cbn [mbind result_bind]. rewrite G. reflexivity.
Qed.

Section Callback.
Context `{L : Libm}.

Lemma size_add_mod (n : nat) :
  size_add (N.of_nat n mod SIZE_MOD) 1 = (N.of_nat (S n) mod SIZE_MOD)%N.
Proof.
  unfold size_add. rewrite N.Div0.add_mod_idemp_l. f_equal. lia.
Qed.

Lemma calls_callback (h : heap) (s : Signal) (f : N -> Q) (n : nat) :
  m_src s = SRC_CALLBACK -> m_src_callback s = Some f ->
  calls n h (set_src_i s 0%N)
  = Ok (set_src_i s (N.of_nat n mod SIZE_MOD)%N).
Proof.
  intros K F. induction n as [| n IH]; [reflexivity |].
  rewrite calls_S_out, IH. cbn [mbind result_bind].
  unfold get_sample. cbn [m_src m_src_callback m_src_i set_src_i].
  rewrite K, F. cbn [mbind result_bind]. now rewrite size_add_mod.
Qed.

End Callback.

(** X2.  After [source_callback(fn)] call number [n] returns [fn(n)], the
    index wrapping around at [2^64], and the stored index is the number of
    calls made so far modulo [2^64].  When [fn] is an empty
    [std::function] the first call throws. *)
Theorem callback_source_samples `{L : Libm} (h : heap) (s0 : Signal)
    (f : N -> Q) (n : nat) :
  nth_sample n h (source_callback s0 (Some f))
  = Ok (f (N.of_nat n mod SIZE_MOD)%N)
  /\ (exists sn, calls n h (source_callback s0 (Some f)) = Ok sn /\
                 m_src_i sn = (N.of_nat n mod SIZE_MOD)%N)
  /\ get_sample h (source_callback s0 None) = Fault BadFunctionCall.
Proof.
  unfold source_callback. set (s1 := set_src_callback _ (Some f)).
  pose proof (calls_callback h s1 f n eq_refl eq_refl) as C.
  split; [| split].
  - rewrite nth_sample_calls, C. reflexivity.
  - eexists. split; [exact C | reflexivity].
  - reflexivity.
Qed.

(** ** A configuration forgets the source that was there before *)

Section Reconfigure.
Context `{L : Libm}.

Lemma same_source_step (h : heap) (s t : Signal) :
  same_source s t ->
  match get_sample h s, get_sample h t with
  | Ok (v, s'), Ok (w, t') => v = w /\ same_source s' t'
  | Fault e, Fault e' => e = e'
  | _, _ => False
  end.
Proof.
  destruct s as [k v1 v2 per du ph sb si sl sr sc d db dl dc lm].
  destruct t as [k' v1' v2' per' du' ph' sb' si' sl' sr' sc' d' db' dl' dc' lm'].
  unfold same_source. cbn [m_src m_src_v1 m_src_v2 m_src_period m_src_duty
    m_src_phase m_src_buf m_src_i m_src_buf_len m_src_buf_repeat
    m_src_callback].
  intros [<- R]. destruct k.
  - subst. split; [reflexivity |]. split; reflexivity.
  - destruct R as (<- & <- & <- & <- & <-). repeat split.
  - destruct R as (<- & <- & <- & <-). repeat split.
  - destruct R as (<- & <- & <- & <-). repeat split.
  - destruct R as (<- & <- & <- & <-). repeat split.
  - destruct R as (<- & <- & <- & <-). repeat split.
  - destruct R as (<- & <- & <- & <-). unfold get_sample.
    cbn [m_src m_src_buf m_src_i m_src_buf_len m_src_buf_repeat set_src_i].
    destruct (sl <=? si)%N; [destruct sr |];
      cbn [m_src m_src_buf m_src_i m_src_buf_len m_src_buf_repeat set_src_i];
      match goal with
      | |- context [load ?a ?b ?c] => destruct (load a b c)
      end; cbn [mbind result_bind]; repeat split.
  - destruct R as (<- & <-). unfold get_sample.
    cbn [m_src m_src_callback m_src_i set_src_i].
    destruct sc; repeat split.
Qed.

Lemma same_source_samples (h : heap) (n : nat) (s t : Signal) :
  same_source s t -> nth_sample n h s = nth_sample n h t.
Proof.
  revert s t. induction n as [| n IH]; intros s t R;
    pose proof (same_source_step h s t R) as St; cbn [nth_sample];
    destruct (get_sample h s) as [[v s'] | e],
             (get_sample h t) as [[w t'] | e']; try contradiction;
    cbn [mbind result_bind].
  - destruct St as [-> _]. reflexivity.
  - now subst.
  - destruct St as [-> R']. now apply IH.
  - now subst.
Qed.

End Reconfigure.

(** X3.  The samples that follow a [source_*] call depend on the arguments
    of that call only: whatever object it is applied to, also one left by
    earlier calls of [get_sample] under another source, call number [n]
    returns the same result. *)
Theorem configuration_forgets `{L : Libm} (h : heap) (s0 t0 : Signal)
    (n : nat) :
  (forall val : Q,
      nth_sample n h (source_constant s0 val)
      = nth_sample n h (source_constant t0 val))
  /\ (forall midpoint peak period duty phase : Q,
        nth_sample n h (source_square s0 midpoint peak period duty phase)
        = nth_sample n h (source_square t0 midpoint peak period duty phase))
  /\ (forall midpoint peak period phase : Q,
        nth_sample n h (source_sawtooth s0 midpoint peak period phase)
        = nth_sample n h (source_sawtooth t0 midpoint peak period phase) /\
        nth_sample n h (source_stairstep s0 midpoint peak period phase)
        = nth_sample n h (source_stairstep t0 midpoint peak period phase) /\
        nth_sample n h (source_sine s0 midpoint peak period phase)
        = nth_sample n h (source_sine t0 midpoint peak period phase) /\
        nth_sample n h (source_triangle s0 midpoint peak period phase)
        = nth_sample n h (source_triangle t0 midpoint peak period phase))
  /\ (forall (buf : option ptr) (len : N) (repeat : bool),
        nth_sample n h (source_buffer s0 buf len repeat)
        = nth_sample n h (source_buffer t0 buf len repeat))
  /\ (forall callback : option (N -> Q),
        nth_sample n h (source_callback s0 callback)
        = nth_sample n h (source_callback t0 callback)).
Proof.
  repeat split; intros; apply same_source_samples;
    unfold same_source; read_fields; repeat split.
Qed.

(** ** Sources and measurement do not disturb each other *)

Section Frames.
Context `{L : Libm}.

Lemma get_sample_heap_free (h h' : heap) (s : Signal) :
  m_src s <> SRC_BUFFER -> get_sample h s = get_sample h' s.
Proof.
  intros NB. unfold get_sample. destruct (m_src s); try reflexivity.
  congruence.
Qed.

Lemma put_sample_src (val : Q) (w w' : World) (s s' : Signal) :
  put_sample val (w, s) = Ok (w', s') -> m_src s' = m_src s.
Proof.
  destruct s as [k v1 v2 per du ph sb si sl sr sc d db dl dc lm].
  unfold put_sample.
  cbn [m_dest m_dest_buf m_dest_buf_len m_dest_callback
       set_latest_measurement].
  destruct d.
  - intros G. apply Ok_inj in G. injection G as _ <-. reflexivity.
  - destruct (dl =? 0)%N.
    + intros G. apply Ok_inj in G. injection G as _ <-. reflexivity.
    + destruct (store (w_heap w) db val) as [h' | e];
        cbn [mbind result_bind]; [| discriminate].
      intros G. apply Ok_inj in G. injection G as _ <-. reflexivity.
  - destruct dc as [f |]; [| discriminate].
    intros G. apply Ok_inj in G. injection G as _ <-. reflexivity.
Qed.

End Frames.

(** X4.  A successful [get_sample] changes no field but the stored phase
    and the read index: the source kind and parameters, the buffer and its
    length, the callbacks, the destination and the last measurement are
    as before. *)
Theorem get_sample_frame `{L : Libm} (h : heap) (s s' : Signal) (v : Q) :
  get_sample h s = Ok (v, s') ->
  m_src s' = m_src s /\ m_src_v1 s' = m_src_v1 s /\
  m_src_v2 s' = m_src_v2 s /\ m_src_period s' = m_src_period s /\
  m_src_duty s' = m_src_duty s /\ m_src_buf s' = m_src_buf s /\
  m_src_buf_len s' = m_src_buf_len s /\
  m_src_buf_repeat s' = m_src_buf_repeat s /\
  m_src_callback s' = m_src_callback s /\
  m_dest s' = m_dest s /\ m_dest_buf s' = m_dest_buf s /\
  m_dest_buf_len s' = m_dest_buf_len s /\
  m_dest_callback s' = m_dest_callback s /\
  m_latest_measurement s' = m_latest_measurement s.
Proof.
  destruct s as [k v1 v2 per du ph sb si sl sr sc d db dl dc lm].
  unfold get_sample.
  cbn [m_src m_src_buf m_src_i m_src_buf_len m_src_buf_repeat m_src_callback
       set_src_i].
  destruct k;
    try (intros G; apply Ok_inj in G; injection G as _ <-; repeat split).
  - destruct (sl <=? si)%N; [destruct sr |];
      cbn [m_src m_src_buf m_src_i m_src_buf_len m_src_buf_repeat set_src_i];
      match goal with
      | |- context [load ?a ?b ?c] => destruct (load a b c)
      end; cbn [mbind result_bind]; try discriminate;
      intros G; apply Ok_inj in G; injection G as _ <-; repeat split.
  - destruct sc; [| discriminate].
    intros G; apply Ok_inj in G; injection G as _ <-; repeat split.
Qed.

Lemma get_sample_frame_witness :
  let s := measure_buffer (source_square idle_signal 0 1 8 (1 # 2) 3)
             (Some (Ptr 1 0)) 4 in
  let s' := set_src_phase s (fmod (3 + 1) 8) in
  get_sample (L:=libm_coarse) ∅ s = Ok (0, s') /\
  m_src s' = m_src s /\ m_dest s' = m_dest s /\
  m_dest_buf_len s' = m_dest_buf_len s /\
  m_latest_measurement s' = m_latest_measurement s.
Proof.
  intros s s'.
  assert (get_sample (L:=libm_coarse) ∅ s = Ok (0, s')) as G by reflexivity.
  destruct (get_sample_frame (L:=libm_coarse) ∅ s s' 0 G)
    as (A & _ & _ & _ & _ & _ & _ & _ & _ & B & _ & C & _ & D).
  split; [exact G |]. split; [exact A |]. split; [exact B |].
  split; [exact C | exact D].
Defined.

(** X5.  A successful [put_sample] changes no field of the source, keeps
    the destination kind and the sink, and never raises the remaining
    capacity of a destination buffer. *)
Theorem put_sample_frame (val : Q) (w w' : World) (s s' : Signal) :
  put_sample val (w, s) = Ok (w', s') ->
  (m_src s' = m_src s /\ m_src_v1 s' = m_src_v1 s /\
   m_src_v2 s' = m_src_v2 s /\ m_src_period s' = m_src_period s /\
   m_src_duty s' = m_src_duty s /\ m_src_phase s' = m_src_phase s /\
   m_src_buf s' = m_src_buf s /\ m_src_i s' = m_src_i s /\
   m_src_buf_len s' = m_src_buf_len s /\
   m_src_buf_repeat s' = m_src_buf_repeat s /\
   m_src_callback s' = m_src_callback s) /\
  m_dest s' = m_dest s /\ m_dest_callback s' = m_dest_callback s /\
  ((m_dest_buf_len s < SIZE_MOD)%N ->
   (m_dest_buf_len s' <= m_dest_buf_len s)%N).
Proof.
  destruct s as [k v1 v2 per du ph sb si sl sr sc d db dl dc lm].
  unfold put_sample.
  cbn [m_dest m_dest_buf m_dest_buf_len m_dest_callback
       set_latest_measurement].
  destruct d.
  - intros G. apply Ok_inj in G. injection G as _ <-.
    repeat split. cbn [m_dest_buf_len set_latest_measurement]. lia.
  - destruct (dl =? 0)%N eqn:Z0.
    + intros G. apply Ok_inj in G. injection G as _ <-.
      repeat split. cbn [m_dest_buf_len set_latest_measurement]. lia.
    + destruct (store (w_heap w) db val) as [h' | e];
        cbn [mbind result_bind]; [| discriminate].
      intros G. apply Ok_inj in G. injection G as _ <-.
      repeat split.
      cbn [m_dest_buf_len set_dest_buf_len set_dest_buf
           set_latest_measurement]. intros B.
      apply N.eqb_neq in Z0. rewrite (size_sub_one dl Z0 B). lia.
  - destruct dc as [f |]; [| discriminate].
    intros G. apply Ok_inj in G. injection G as _ <-.
    repeat split. cbn [m_dest_buf_len set_latest_measurement]. lia.
Qed.

Lemma put_sample_frame_witness :
  let log : Q -> list Q -> list Q := fun v l => v :: l in
  let w := mkWorld ∅ [] in
  let s := measure_callback (source_square idle_signal 0 1 8 (1 # 2) 3)
             (Some log) in
  let s' := set_latest_measurement s 5 in
  put_sample 5 (w, s) = Ok (mkWorld ∅ [5], s') /\
  m_src s' = m_src s /\ m_src_phase s' = m_src_phase s /\
  m_dest s' = m_dest s /\
  (m_dest_buf_len s' <= m_dest_buf_len s)%N.
Proof.
  intros log w s s'.
  assert (put_sample 5 (w, s) = Ok (mkWorld ∅ [5], s')) as P by reflexivity.
  destruct (put_sample_frame 5 w (mkWorld ∅ [5]) s s' P)
    as ((A & _ & _ & _ & _ & B & _) & C & _ & D).
  split; [exact P |]. split; [exact A |]. split; [exact B |].
  split; [exact C | apply D; reflexivity].
Defined.

(** X6.  For a constant or periodic source, [put_sample] and
    [get_sample] commute: sampling after the measurement returns the value
    that sampling before it returns, and both orders leave the same object
    and the same world.  A buffer source is left out because the
    destination may write the array it reads, and a callback source
    because the caller's function may share state with the sink. *)
Theorem put_get_commute `{L : Libm} (val v : Q) (w w' : World)
    (s s' s1 : Signal) :
  m_src s <> SRC_BUFFER ->
  m_src s <> SRC_CALLBACK ->
  put_sample val (w, s) = Ok (w', s') ->
  get_sample (w_heap w) s = Ok (v, s1) ->
  exists s2,
    get_sample (w_heap w') s' = Ok (v, s2) /\
    put_sample val (w, s1) = Ok (w', s2).
Proof.
  intros NB NC P G.
  rewrite (get_sample_heap_free (w_heap w') (w_heap w) s') by
    (rewrite (put_sample_src val w w' s s' P); exact NB).
  destruct s as [k v1 v2 per du ph sb si sl sr sc d db dl dc lm].
  cbn [m_src] in NB, NC. revert G. unfold get_sample.
  cbn [m_src m_src_callback m_src_i set_src_i].
  destruct k; try congruence;
    intros G; apply Ok_inj in G; injection G as <- <-;
    revert P; unfold put_sample;
    cbn [m_dest m_dest_buf m_dest_buf_len m_dest_callback
         set_latest_measurement set_src_phase set_src_i];
    (destruct d;
     [ | destruct (dl =? 0)%N;
         [ | destruct (store (w_heap w) db val) as [h' | e];
             cbn [mbind result_bind]; [| discriminate] ]
       | destruct dc as [f |]; [| discriminate] ]);
    intros P; apply Ok_inj in P; injection P as <- <-;
    eexists; split; reflexivity.
Qed.

Lemma put_get_commute_witness :
  let log : Q -> list Q -> list Q := fun v l => v :: l in
  let w := mkWorld ∅ [] in
  let s := measure_callback (source_square idle_signal 0 1 8 (1 # 2) 3)
             (Some log) in
  exists s2,
    get_sample (L:=libm_coarse) ∅ (set_latest_measurement s 5) = Ok (0, s2) /\
    put_sample 5 (w, set_src_phase s (fmod (rnd64 (3 + 1)) 8))
    = Ok (mkWorld ∅ [5], s2).
Proof.
  intros log w s.
  apply (put_get_commute (L:=libm_coarse) 5 0 w (mkWorld ∅ [5]) s
           (set_latest_measurement s 5)
           (set_src_phase s (fmod (rnd64 (3 + 1)) 8)));
    [discriminate | discriminate | reflexivity | reflexivity].
Defined.

(** ** Runs of [put_sample] *)

Section Fill.

Lemma put_sample_write (val : Q) (w : World) (s : Signal) (b : positive)
    (off cap : nat) (arr : list Q) :
  m_dest s = DEST_BUFFER ->
  m_dest_buf s = Some (Ptr b (Z.of_nat off)) ->
  m_dest_buf_len s = N.of_nat (S cap) ->
  (N.of_nat (S cap) < SIZE_MOD)%N ->
  w_heap w !! b = Some arr ->
  (off < length arr)%nat ->
  put_sample val (w, s)
  = Ok (mkWorld (<[b := <[off := val]> arr]> (w_heap w)) (w_sink w),
        set_dest_buf_len
          (set_dest_buf (set_latest_measurement s val)
             (Some (Ptr b (Z.of_nat (S off)))))
          (N.of_nat cap)).
Proof.
  intros D P C B Hb Hoff. unfold put_sample.
  replace (m_dest (set_latest_measurement s val)) with (m_dest s)
    by reflexivity.
  replace (m_dest_buf_len (set_latest_measurement s val))
    with (m_dest_buf_len s) by reflexivity.
  replace (m_dest_buf (set_latest_measurement s val)) with (m_dest_buf s)
    by reflexivity.
  rewrite D, C, P.
  replace (N.of_nat (S cap) =? 0)%N with false
    by (symmetry; apply N.eqb_neq; lia).
  rewrite (store_in_bounds _ b (Z.of_nat off) arr val Hb) by lia.
  cbn [mbind result_bind ptr_incr p_blk p_off].
  rewrite Nat2Z.id.
  replace (m_dest_buf_len
             (set_dest_buf (set_latest_measurement s val)
                (Some (Ptr b (Z.of_nat off + 1)))))
    with (m_dest_buf_len s) by reflexivity.
  rewrite C, size_sub_one by lia.
  replace (Z.of_nat off + 1)%Z with (Z.of_nat (S off)) by lia.
  replace (N.of_nat (S cap) - 1)%N with (N.of_nat cap) by lia.
  reflexivity.
Qed.

Lemma put_sample_full (val : Q) (w : World) (s : Signal) :
  m_dest s = DEST_BUFFER -> m_dest_buf_len s = 0%N ->
  put_sample val (w, s) = Ok (w, set_latest_measurement s val).
Proof.
  intros D C. unfold put_sample.
  replace (m_dest (set_latest_measurement s val)) with (m_dest s)
    by reflexivity.
  replace (m_dest_buf_len (set_latest_measurement s val))
    with (m_dest_buf_len s) by reflexivity.
  rewrite D, C. reflexivity.
Qed.

Lemma take_succ_insert (arr : list Q) (off : nat) (v : Q) :
  (off < length arr)%nat ->
  take (S off) (<[off := v]> arr) = take off arr ++ [v].
Proof.
  intros B.
  rewrite (take_S_r (<[off := v]> arr) off v)
    by (now apply list_lookup_insert_eq).
  rewrite take_insert_ge by lia. reflexivity.
Qed.

End Fill.

(** X7.  A run of [put_sample] calls on a buffer destination with cursor
    [off] and remaining capacity [cap] inside a live array stores the
    first [cap] values in order at positions [off, off+1, ...], drops the
    rest, and touches no other element; the cursor and the capacity move by
    the number of values stored, and [last_measurement] is the last value
    of the run, stored or not. *)
Theorem put_samples_fill (vals : list Q) (w : World) (s : Signal)
    (b : positive) (off cap : nat) (arr : list Q) :
  m_dest s = DEST_BUFFER ->
  m_dest_buf s = Some (Ptr b (Z.of_nat off)) ->
  m_dest_buf_len s = N.of_nat cap ->
  (N.of_nat cap < SIZE_MOD)%N ->
  w_heap w !! b = Some arr ->
  (off + cap <= length arr)%nat ->
  let k := Nat.min (length vals) cap in
  exists s',
    put_samples vals (w, s)
    = Ok (mkWorld
            (<[b := take off arr ++ take cap vals ++ drop (off + k) arr]>
               (w_heap w))
            (w_sink w), s') /\
    m_dest_buf s' = Some (Ptr b (Z.of_nat (off + k))) /\
    m_dest_buf_len s' = N.of_nat (cap - k) /\
    m_latest_measurement s' = default (m_latest_measurement s) (last vals).
Proof.
  revert w s off cap arr.
  induction vals as [| v vs IH]; intros w s off cap arr D P C B Hb Hlen k.
  - exists s. subst k. cbn [put_samples length Nat.min last default].
    rewrite Nat.add_0_r, Nat.sub_0_r, take_nil, app_nil_l, take_drop.
    rewrite insert_id by exact Hb. destruct w. repeat split; assumption.
  - cbn [put_samples]. destruct cap as [| c].
    + rewrite (put_sample_full v w s D C). cbn [mbind result_bind].
      destruct (IH w (set_latest_measurement s v) off 0%nat arr D P C B Hb Hlen)
        as (s' & R & P' & C' & M').
      exists s'. subst k. rewrite Nat.min_0_r in *. rewrite take_0 in *.
      split; [exact R |]. split; [exact P' |]. split; [exact C' |].
      rewrite M', last_cons. cbn [m_latest_measurement set_latest_measurement].
      destruct (last vs); reflexivity.
    + rewrite (put_sample_write v w s b off c arr D P C B Hb) by lia.
      cbn [mbind result_bind].
      set (w1 := mkWorld _ _). set (s1 := set_dest_buf_len _ _).
      destruct (IH w1 s1 (S off) c (<[off := v]> arr)) as (s' & R & P' & C' & M');
        try reflexivity.
      * exact D.
      * lia.
      * unfold w1. cbn [w_heap]. apply lookup_insert_eq.
      * rewrite length_insert. lia.
      * exists s'. subst k. cbn [length]. rewrite <- Nat.succ_min_distr.
        split; [| split; [| split]].
        -- rewrite R. unfold w1. cbn [w_heap w_sink].
           rewrite insert_insert_eq.
           rewrite take_succ_insert by lia.
           rewrite drop_insert_lt by lia.
           rewrite <- app_assoc. cbn [app take].
           replace (S off + Nat.min (length vs) c)%nat
             with (off + S (Nat.min (length vs) c))%nat by lia.
           reflexivity.
        -- rewrite P'. do 3 f_equal; lia.
        -- rewrite C'. f_equal; lia.
        -- rewrite M', last_cons. unfold s1.
           cbn [m_latest_measurement set_latest_measurement set_dest_buf
                set_dest_buf_len].
           destruct (last vs); reflexivity.
Qed.

Lemma put_samples_fill_witness :
  let w := mkWorld {[ 1%positive := [0; 0; 0; 0] ]} [] in
  let s := measure_buffer idle_signal (Some (Ptr 1 1)) 2 in
  exists s',
    put_samples [5; 6; 7] (w, s)
    = Ok (mkWorld {[ 1%positive := [0; 5; 6; 0] ]} [], s') /\
    m_dest_buf s' = Some (Ptr 1 3) /\
    m_dest_buf_len s' = 0%N /\
    m_latest_measurement s' = 7.
Proof.
  intros w s.
  destruct (put_samples_fill [5; 6; 7] w s 1 1 2 [0; 0; 0; 0])
    as (s' & R & P & C & M);
    [reflexivity | reflexivity | reflexivity | reflexivity | reflexivity
    | simpl; lia |].
  exists s'. split; [| repeat split; assumption].
  rewrite R. vm_compute. reflexivity.
Defined.

(** X8.  A run of [put_sample] calls on a callback destination hands the
    values to the sink one by one in order, leaves the heap alone, and
    changes nothing in the object but [last_measurement], which ends as the
    last value. *)
Theorem put_samples_sink (vals : list Q) (w : World) (s : Signal)
    (f : Q -> list Q -> list Q) :
  m_dest s = DEST_CALLBACK ->
  m_dest_callback s = Some f ->
  put_samples vals (w, s)
  = Ok (mkWorld (w_heap w) (foldl (fun l v => f v l) (w_sink w) vals),
        set_latest_measurement s
          (default (m_latest_measurement s) (last vals))).
Proof.
  revert w s. induction vals as [| v vs IH]; intros w s D F.
  - cbn [put_samples foldl last default]. destruct w, s. reflexivity.
  - cbn [put_samples]. unfold put_sample at 1.
    replace (m_dest (set_latest_measurement s v)) with (m_dest s)
      by reflexivity.
    replace (m_dest_callback (set_latest_measurement s v))
      with (m_dest_callback s) by reflexivity.
    rewrite D, F. cbn [mbind result_bind].
    rewrite IH by assumption. cbn [w_heap w_sink foldl].
    rewrite last_cons.
    cbn [m_latest_measurement set_latest_measurement].
    destruct (last vs); reflexivity.
Qed.

Lemma put_samples_sink_witness :
  let log : Q -> list Q -> list Q := fun v l => v :: l in
  let s := measure_callback idle_signal (Some log) in
  put_samples [5; 6; 7] (mkWorld ∅ [], s)
  = Ok (mkWorld ∅ [7; 6; 5], set_latest_measurement s 7).
Proof.
  intros log s.
  apply (put_samples_sink [5; 6; 7] (mkWorld ∅ []) s log); reflexivity.
Defined.

(** ** Faults of [put_sample] *)

Section Overrun.

Lemma store_past_end (h : heap) (b : positive) (arr : list Q) (v : Q) :
  h !! b = Some arr ->
  store h (Some (Ptr b (Z.of_nat (length arr)))) v = Fault OutOfBounds.
Proof.
  intros Hb. unfold store. cbn [p_blk p_off]. rewrite Hb. cbv zeta.
  replace (Z.of_nat (length arr) <=? Z.of_nat (length arr))%Z with true
    by (symmetry; apply Z.leb_le; lia).
  now rewrite orb_true_r.
Qed.

Lemma put_samples_overrun (vals : list Q) (w : World) (s : Signal)
    (b : positive) (off cap : nat) (arr : list Q) :
  m_dest s = DEST_BUFFER ->
  m_dest_buf s = Some (Ptr b (Z.of_nat off)) ->
  m_dest_buf_len s = N.of_nat cap ->
  (N.of_nat cap < SIZE_MOD)%N ->
  w_heap w !! b = Some arr ->
  (off <= length arr)%nat ->
  (length arr - off < cap)%nat ->
  (length arr - off < length vals)%nat ->
  put_samples vals (w, s) = Fault OutOfBounds.
Proof.
  revert w s off cap arr.
  induction vals as [| v vs IH]; intros w s off cap arr D P C B Hb Ho Hc Hv.
  - cbn [length] in Hv. lia.
  - cbn [put_samples].
    destruct cap as [| c]; [lia |].
    destruct (Nat.eq_dec off (length arr)) as [E | NE].
    + unfold put_sample.
      replace (m_dest (set_latest_measurement s v)) with (m_dest s)
        by reflexivity.
      replace (m_dest_buf_len (set_latest_measurement s v))
        with (m_dest_buf_len s) by reflexivity.
      replace (m_dest_buf (set_latest_measurement s v)) with (m_dest_buf s)
        by reflexivity.
      rewrite D, C, P, E.
      replace (N.of_nat (S c) =? 0)%N with false
        by (symmetry; apply N.eqb_neq; lia).
      rewrite (store_past_end _ b arr v Hb). reflexivity.
    + rewrite (put_sample_write v w s b off c arr D P C B Hb) by lia.
      cbn [mbind result_bind].
      apply (IH _ _ (S off) c (<[off := v]> arr)); try reflexivity.
      * exact D.
      * lia.
      * cbn [w_heap]. apply lookup_insert_eq.
      * rewrite length_insert. lia.
      * rewrite length_insert. lia.
      * rewrite length_insert. cbn [length] in Hv. lia.
Qed.

End Overrun.

(** X9.  [put_sample] trusts its destination.  An empty sink makes it
    throw; a null buffer pointer with capacity left is dereferenced; and
    when the capacity given to [measure_buffer] exceeds the room in the
    array, a run of more values than the array holds runs off its end. *)
Theorem put_sample_faults (val : Q) (w : World) (s0 : Signal) :
  put_sample val (w, measure_callback s0 None) = Fault BadFunctionCall
  /\ (forall len : N, len <> 0%N ->
        put_sample val (w, measure_buffer s0 None len) = Fault InvalidPointer)
  /\ (forall (b : positive) (arr vals : list Q) (cap : nat),
        w_heap w !! b = Some arr ->
        (N.of_nat cap < SIZE_MOD)%N ->
        (length arr < cap)%nat -> (length arr < length vals)%nat ->
        put_samples vals
          (w, measure_buffer s0 (Some (Ptr b 0)) (N.of_nat cap))
        = Fault OutOfBounds).
Proof.
  split; [reflexivity |]. split.
  - intros len N0. unfold put_sample, measure_buffer.
    cbn [m_dest m_dest_buf m_dest_buf_len set_latest_measurement set_dest
         set_dest_buf set_dest_buf_len].
    apply N.eqb_neq in N0. rewrite N0. reflexivity.
  - intros b arr vals cap Hb B Hc Hv.
    apply (put_samples_overrun vals w _ b 0 cap arr); try reflexivity;
      try assumption; lia.
Qed.

Lemma put_sample_faults_witness :
  let w := mkWorld {[ 1%positive := [0; 0] ]} [] in
  put_sample 5 (w, measure_buffer idle_signal None 3) = Fault InvalidPointer
  /\ put_samples [5; 6; 7]
       (w, measure_buffer idle_signal (Some (Ptr 1 0)) 3)
     = Fault OutOfBounds.
Proof.
  intros w. destruct (put_sample_faults 5 w idle_signal) as (_ & A & B).
  split; [apply A; discriminate |].
  apply (B 1%positive [0; 0] [5; 6; 7] 3%nat);
    [reflexivity | reflexivity | simpl; lia | simpl; lia].
Defined.

(** ** Destruction *)

Section Destroy.
Context `{L : Libm}.

Lemma load_dead (h : heap) (q : ptr) (i : N) :
  h !! p_blk q = None -> load h (Some q) i = Fault InvalidPointer.
Proof. intros E. unfold load. now rewrite E. Qed.

Lemma get_sample_dead (h : heap) (t : Signal) (q : ptr) :
  m_src t = SRC_BUFFER -> m_src_buf t = Some q -> h !! p_blk q = None ->
  get_sample h t = Fault InvalidPointer.
Proof.
  intros K B E. unfold get_sample. rewrite K.
  cbn [m_src_buf m_src_i set_src_i]. rewrite B.
  destruct (m_src_buf_len t <=? m_src_i t)%N;
    [destruct (m_src_buf_repeat t) |];
    rewrite (load_dead h q _ E); reflexivity.
Qed.

End Destroy.

(** X10.  After a Signal has been destroyed with a source buffer set, the
    array is gone: destroying a second Signal that holds the same pointer
    is an invalid [delete[]], and [get_sample] on a buffer source over
    that array, as well as [put_sample] on a destination buffer with
    capacity left over it, uses freed storage. *)
Theorem destroy_then_use `{L : Libm} (h h' : heap) (s : Signal) (q : ptr) :
  m_src_buf s = Some q ->
  destroy h s = Ok h' ->
  (forall t : Signal, m_src_buf t = Some q ->
      destroy h' t = Fault InvalidPointer)
  /\ (forall (t : Signal) (off : Z),
        m_src t = SRC_BUFFER -> m_src_buf t = Some (Ptr (p_blk q) off) ->
        get_sample h' t = Fault InvalidPointer)
  /\ (forall (t : Signal) (off : Z) (val : Q) (sink : list Q),
        m_dest t = DEST_BUFFER -> m_dest_buf_len t <> 0%N ->
        m_dest_buf t = Some (Ptr (p_blk q) off) ->
        put_sample val (mkWorld h' sink, t) = Fault InvalidPointer).
Proof.
  intros B D. unfold destroy in D. rewrite B in D.
  apply delete_array_frees in D. subst h'.
  assert (delete (p_blk q) h !! p_blk q = None) as Dead
    by apply lookup_delete_eq.
  split; [| split].
  - intros t Bt. unfold destroy, delete_array. now rewrite Bt, Dead.
  - intros t off K Bt. now apply (get_sample_dead _ t (Ptr (p_blk q) off)).
  - intros t off val sink Dt N0 Bt. unfold put_sample.
    replace (m_dest (set_latest_measurement t val)) with (m_dest t)
      by reflexivity.
    replace (m_dest_buf_len (set_latest_measurement t val))
      with (m_dest_buf_len t) by reflexivity.
    replace (m_dest_buf (set_latest_measurement t val)) with (m_dest_buf t)
      by reflexivity.
    apply N.eqb_neq in N0. rewrite Dt, N0, Bt.
    unfold store. cbn [w_heap p_blk]. now rewrite Dead.
Qed.

Lemma destroy_then_use_witness :
  let h : heap := {[ 1%positive := [1; 2; 3] ]} in
  let s := source_buffer idle_signal (Some (Ptr 1 0)) 3 false in
  destroy (delete 1%positive h) s = Fault InvalidPointer
  /\ get_sample (L:=libm_coarse) (delete 1%positive h) s
     = Fault InvalidPointer.
Proof.
  intros h s.
  destruct (destroy_then_use (L:=libm_coarse) h (delete 1%positive h) s
              (Ptr 1 0) eq_refl eq_refl) as (A & B & _).
  split; [apply A; reflexivity | apply (B s 0%Z); reflexivity].
Defined.

(** X11.  The destructor frees the buffer of the last [source_buffer]
    call only.  Configuring another kind of source afterwards does not
    release or forget it; a second [source_buffer] call replaces the
    pointer, and the first array then stays allocated after destruction.
    A pointer that is not the start of its array cannot be freed. *)
Theorem destroy_last_buffer (h : heap) (s0 : Signal) (b : positive)
    (arr : list Q) (len : N) (repeat : bool) :
  h !! b = Some arr ->
  let s := source_buffer s0 (Some (Ptr b 0)) len repeat in
  (forall (val midpoint peak period duty phase : Q)
          (callback : option (N -> Q)),
      destroy h (source_constant s val) = Ok (delete b h) /\
      destroy h (source_square s midpoint peak period duty phase)
      = Ok (delete b h) /\
      destroy h (source_sawtooth s midpoint peak period phase)
      = Ok (delete b h) /\
      destroy h (source_stairstep s midpoint peak period phase)
      = Ok (delete b h) /\
      destroy h (source_sine s midpoint peak period phase)
      = Ok (delete b h) /\
      destroy h (source_triangle s midpoint peak period phase)
      = Ok (delete b h) /\
      destroy h (source_callback s callback) = Ok (delete b h))
  /\ (forall (b2 : positive) (arr2 : list Q) (len2 : N) (repeat2 : bool),
        b2 <> b -> h !! b2 = Some arr2 ->
        exists h',
          destroy h (source_buffer s (Some (Ptr b2 0)) len2 repeat2) = Ok h' /\
          h' !! b2 = None /\ h' !! b = Some arr)
  /\ (forall off : Z, off <> 0%Z ->
        destroy h (source_buffer s0 (Some (Ptr b off)) len repeat)
        = Fault InvalidPointer).
Proof.
  intros Hb s.
  assert (forall t, m_src_buf t = Some (Ptr b 0) ->
                    destroy h t = Ok (delete b h)) as Free.
  { intros t Bt. unfold destroy, delete_array. rewrite Bt.
    cbn [p_blk p_off]. now rewrite Hb. }
  split; [| split].
  - intros. repeat split; apply Free; reflexivity.
  - intros b2 arr2 len2 repeat2 NE Hb2. eexists. split.
    + unfold destroy, delete_array. read_fields. cbn [p_blk p_off].
      rewrite Hb2. reflexivity.
    + split; [apply lookup_delete_eq |].
      rewrite lookup_delete_ne by exact NE. exact Hb.
  - intros off N0. unfold destroy, delete_array. read_fields.
    cbn [p_blk p_off]. rewrite Hb.
    apply Z.eqb_neq in N0. now rewrite N0.
Qed.

Lemma destroy_last_buffer_witness :
  let h : heap := {[ 1%positive := [1; 2; 3]; 2%positive := [4] ]} in
  let s := source_buffer idle_signal (Some (Ptr 1 0)) 3 false in
  destroy h (source_constant s 0) = Ok (delete 1%positive h)
  /\ (exists h',
        destroy h (source_buffer s (Some (Ptr 2 0)) 1 false) = Ok h' /\
        h' !! 2%positive = None /\ h' !! 1%positive = Some [1; 2; 3])
  /\ destroy h (source_buffer idle_signal (Some (Ptr 1 1)) 2 false)
     = Fault InvalidPointer.
Proof.
  intros h s.
  destruct (destroy_last_buffer h idle_signal 1 [1; 2; 3] 3 false eq_refl)
    as (A & B & C).
  split; [apply (A 0 0 0 0 0 0 None) |].
  split; [apply (B 2%positive [4] 1%N false); [discriminate | reflexivity] |].
  destruct (destroy_last_buffer h idle_signal 1 [1; 2; 3] 2 false eq_refl)
    as (_ & _ & C').
  apply C'. discriminate.
Defined.


(** ** Measuring into the array the source reads *)

(** X19.  The source buffer and the destination buffer may be the same
    array.  When the destination cursor stands on the element the buffer
    source reads next, a [put_sample] followed by [get_sample] returns the
    value just measured in place of what the array held. *)
Theorem buffer_loopback `{L : Libm} (val : Q) (w : World) (s : Signal)
    (b : positive) (arr : list Q) (i cap : nat) :
  m_src s = SRC_BUFFER -> m_src_buf s = Some (Ptr b 0) ->
  m_src_i s = N.of_nat i -> (N.of_nat i < m_src_buf_len s)%N ->
  m_dest s = DEST_BUFFER -> m_dest_buf s = Some (Ptr b (Z.of_nat i)) ->
  m_dest_buf_len s = N.of_nat (S cap) -> (N.of_nat (S cap) < SIZE_MOD)%N ->
  w_heap w !! b = Some arr -> (i < length arr)%nat ->
  exists w' s' s'',
    put_sample val (w, s) = Ok (w', s') /\
    get_sample (w_heap w') s' = Ok (val, s'') /\
    w_heap w' !! b = Some (<[i := val]> arr).
Proof.
  intros K B I Il D P C Sz Hb Hi. eexists _, _, _.
  split; [apply (put_sample_write val w s b i cap arr D P C Sz Hb Hi) |].
  cbn [w_heap]. split; [| apply lookup_insert_eq].
  unfold get_sample.
  cbn [m_src m_src_buf m_src_i m_src_buf_len m_src_buf_repeat
       set_dest_buf_len set_dest_buf set_latest_measurement].
  rewrite K, I, B.
  replace (m_src_buf_len s <=? N.of_nat i)%N with false
    by (symmetry; apply N.leb_gt; exact Il).
  unfold load. cbn [p_blk p_off]. rewrite lookup_insert_eq. cbv zeta.
  rewrite Z.add_0_l, length_insert.
  replace ((Z.of_N (N.of_nat i) <? 0)%Z
           || (Z.of_nat (length arr) <=? Z.of_N (N.of_nat i))%Z) with false
    by (symmetry; apply orb_false_intro;
        [apply Z.ltb_ge | apply Z.leb_gt]; lia).
  rewrite nat_N_Z, Nat2Z.id, list_lookup_insert_eq by exact Hi.
  reflexivity.
Qed.

Lemma buffer_loopback_witness :
  let w := mkWorld {[ 1%positive := [1; 2; 3] ]} [] in
  let s := measure_buffer
             (source_buffer idle_signal (Some (Ptr 1 0)) 3 false)
             (Some (Ptr 1 0)) 3 in
  exists w' s' s'',
    put_sample 9 (w, s) = Ok (w', s') /\
    get_sample (L:=libm_coarse) (w_heap w') s' = Ok (9, s'') /\
    w_heap w' !! 1%positive = Some [9; 2; 3].
Proof.
  intros w s.
  apply (buffer_loopback (L:=libm_coarse) 9 w s 1 [1; 2; 3] 0 2);
    reflexivity || (simpl; lia).
Defined.


(** ** A buffer source longer than its array *)

Section LongBuffer.
Context `{L : Libm}.

Lemma load_at (h : heap) (b : positive) (arr : list Q) (i : nat) :
  h !! b = Some arr ->
  load h (Some (Ptr b 0)) (N.of_nat i)
  = match arr !! i with
    | Some v => Ok v
    | None => Fault OutOfBounds
    end.
Proof.
  intros Hb. unfold load. cbn [p_blk p_off]. rewrite Hb. cbv zeta.
  rewrite Z.add_0_l, nat_N_Z.
  destruct (arr !! i) as [v |] eqn:E.
  - pose proof (lookup_lt_Some _ _ _ E) as B.
    replace ((Z.of_nat i <? 0)%Z || (Z.of_nat (length arr) <=? Z.of_nat i)%Z)
      with false
      by (symmetry; apply orb_false_intro;
          [apply Z.ltb_ge | apply Z.leb_gt]; lia).
    now rewrite Nat2Z.id, E.
  - apply lookup_ge_None in E.
    replace (Z.of_nat (length arr) <=? Z.of_nat i)%Z with true
      by (symmetry; apply Z.leb_le; lia).
    now rewrite orb_true_r.
Qed.

Lemma get_sample_inside (h : heap) (b : positive) (arr : list Q)
    (s : Signal) (i : nat) :
  h !! b = Some arr ->
  m_src s = SRC_BUFFER -> m_src_buf s = Some (Ptr b 0) ->
  (N.of_nat i < m_src_buf_len s)%N -> (m_src_buf_len s < SIZE_MOD)%N ->
  get_sample h (set_src_i s (N.of_nat i))
  = match arr !! i with
    | Some v => Ok (v, set_src_i s (N.of_nat (S i)))
    | None => Fault OutOfBounds
    end.
Proof.
  intros Hb K B Il Sz. unfold get_sample.
  cbn [m_src m_src_buf m_src_i m_src_buf_len set_src_i]. rewrite K, B.
  replace (m_src_buf_len s <=? N.of_nat i)%N with false
    by (symmetry; apply N.leb_gt; exact Il).
  rewrite (load_at h b arr i Hb).
  destruct (arr !! i); [| reflexivity]. cbn [mbind result_bind].
  unfold size_add. rewrite N.mod_small by lia.
  do 3 f_equal. lia.
Qed.

Lemma calls_inside (h : heap) (b : positive) (arr : list Q) (s : Signal)
    (n : nat) :
  h !! b = Some arr ->
  m_src s = SRC_BUFFER -> m_src_buf s = Some (Ptr b 0) ->
  (N.of_nat (length arr) < m_src_buf_len s)%N ->
  (m_src_buf_len s < SIZE_MOD)%N ->
  (n <= length arr)%nat ->
  calls n h (set_src_i s 0%N) = Ok (set_src_i s (N.of_nat n)).
Proof.
  intros Hb K B Ll Sz. induction n as [| n IH]; intros Hn; [reflexivity |].
  rewrite calls_S_out, IH by lia. cbn [mbind result_bind].
  rewrite (get_sample_inside h b arr s n Hb K B) by (assumption || lia).
  destruct (lookup_lt_is_Some_2 arr n) as [v E]; [lia |].
  rewrite E. reflexivity.
Qed.

End LongBuffer.

(** X22.  [get_sample] trusts the length given to [source_buffer].  When
    it exceeds the size of the array, the calls that fall inside the array
    return its elements in order and the next call reads past its end,
    with or without [repeat]. *)
Theorem buffer_source_overrun `{L : Libm} (h : heap) (s0 : Signal)
    (b : positive) (arr : list Q) (len : N) (repeat : bool) :
  h !! b = Some arr ->
  (N.of_nat (length arr) < len)%N -> (len < SIZE_MOD)%N ->
  let s := source_buffer s0 (Some (Ptr b 0)) len repeat in
  (forall (n : nat) (v : Q), arr !! n = Some v -> nth_sample n h s = Ok v)
  /\ nth_sample (length arr) h s = Fault OutOfBounds.
Proof.
  intros Hb Ll Sz s. unfold s, source_buffer.
  set (s1 := set_src_buf_repeat _ repeat).
  assert (m_src s1 = SRC_BUFFER) as K by reflexivity.
  assert (m_src_buf s1 = Some (Ptr b 0)) as B by reflexivity.
  assert (m_src_buf_len s1 = len) as E by reflexivity.
  split.
  - intros n v Ev. pose proof (lookup_lt_Some _ _ _ Ev) as Bn.
    rewrite nth_sample_calls.
    rewrite (calls_inside h b arr s1 n Hb K B) by (rewrite ?E; assumption || lia).
    cbn [mbind result_bind].
    rewrite (get_sample_inside h b arr s1 n Hb K B) by (rewrite E; assumption || lia).
    now rewrite Ev.
  - rewrite nth_sample_calls.
    rewrite (calls_inside h b arr s1 _ Hb K B) by (rewrite ?E; assumption || lia).
    cbn [mbind result_bind].
    rewrite (get_sample_inside h b arr s1 _ Hb K B) by (rewrite E; assumption || lia).
    now rewrite (lookup_ge_None_2 arr (length arr)) by lia.
Qed.

Lemma buffer_source_overrun_witness :
  let h : heap := {[ 1%positive := [1; 2; 3] ]} in
  let s := source_buffer idle_signal (Some (Ptr 1 0)) 5 true in
  nth_sample (L:=libm_coarse) 2 h s = Ok 3
  /\ nth_sample (L:=libm_coarse) 3 h s = Fault OutOfBounds.
Proof.
  intros h s.
  destruct (buffer_source_overrun (L:=libm_coarse) h idle_signal 1 [1; 2; 3]
              5 true) as [A B]; [reflexivity | reflexivity | reflexivity |].
  split; [apply (A 2%nat 3); reflexivity | exact B].
Defined.


(** ** The phase of a periodic source over many calls *)

Section Cycle.
Context `{L : Libm}.

Lemma phase_after_nonneg (n : nat) (phase period : Q) :
  0 < period -> 0 <= phase -> 0 <= phase_after n phase period.
Proof.
  intros Hp. revert phase. induction n as [| n IH]; intros phase P0.
  - exact P0.
  - cbn [phase_after]. apply IH. unfold next_phase.
    apply fmod_nonneg; [| exact Hp]. apply rnd_nonneg; [lia | lra].
Qed.

(** After a call the stored phase is a [double] in [[0, period)]. *)
Lemma phase_after_cycle (n : nat) (phase period : Q) :
  0 < period -> 0 <= phase -> is_double period ->
  phase_after (S n) phase period < period /\
  is_double (phase_after (S n) phase period).
Proof.
  intros Hp P0 DR. rewrite phase_after_S. unfold next_phase.
  pose proof (phase_after_nonneg n _ _ Hp P0) as A.
  assert (0 <= rnd64 (phase_after n phase period + 1)) as R
    by (apply rnd_nonneg; [lia | lra]).
  split.
  - now apply fmod_nonneg.
  - apply is_double_fmod; try assumption. apply is_double_rnd64.
Qed.

End Cycle.

(** X12.  For a periodic source with any period above 0, integral or
    not, and a stored phase that is not negative, every call leaves a
    stored phase in [[0, period)], so every call after the first is
    evaluated at a normalised phase in [[0, 1)].  The period is a
    [double], as the field of the class is: [fmod] is exact on doubles and
    the quotient of a double by a larger one rounds to a value below 1. *)
Theorem phase_stays_in_cycle `{L : Libm} (h : heap) (s : Signal) (n : nat) :
  is_periodic (m_src s) = true ->
  is_double (m_src_period s) ->
  0 < m_src_period s -> 0 <= m_src_phase s ->
  exists sn,
    calls (S n) h s = Ok sn /\
    m_src_period sn = m_src_period s /\
    0 <= m_src_phase sn /\ m_src_phase sn < m_src_period sn /\
    0 <= norm_phase (m_src_phase sn) (m_src_period sn) /\
    norm_phase (m_src_phase sn) (m_src_period sn) < 1.
Proof.
  intros P DR Hp P0. eexists. split; [apply (calls_periodic (S n) h s P) |].
  cbn [m_src_period m_src_phase set_src_phase].
  pose proof (phase_after_nonneg (S n) _ _ Hp P0) as A.
  destruct (phase_after_cycle n _ _ Hp P0 DR) as [B D].
  split; [reflexivity |]. split; [exact A |]. split; [exact B |].
  now apply norm_phase_below.
Qed.

Lemma phase_stays_in_cycle_witness :
  let s := source_sine idle_signal 0 1 (5 # 2) 7 in
  exists sn,
    calls (L:=libm_coarse) 4 ∅ s = Ok sn /\
    m_src_period sn = m_src_period s /\
    0 <= m_src_phase sn /\ m_src_phase sn < m_src_period sn /\
    0 <= norm_phase (m_src_phase sn) (m_src_period sn) /\
    norm_phase (m_src_phase sn) (m_src_period sn) < 1.
Proof.
  intros s.
  apply (phase_stays_in_cycle (L:=libm_coarse) ∅ s 3);
    [reflexivity | vm_compute; reflexivity | reflexivity | simpl; lra].
Defined.

Section Duty.
Context `{L : Libm}.

Lemma norm_phase_fraction (p : positive) (m : Z) :
  (0 <= m)%Z ->
  norm_phase (inject_Z m) (inject_Z (Zpos p))
  = rnd64 (inject_Z m / inject_Z (Zpos p)).
Proof.
  intros Hm. unfold norm_phase.
  replace (Qltb (rnd64 (inject_Z m / inject_Z (Zpos p))) 0) with false;
    [reflexivity |].
  symmetry. apply Qltb_ge. apply rnd_nonneg; [lia |].
  apply Qle_shift_div_l.
  - change 0 with (inject_Z 0). rewrite <- Zlt_Qlt. lia.
  - rewrite Qmult_0_l. change 0 with (inject_Z 0). now rewrite <- Zle_Qle.
Qed.

End Duty.

(** X18.  After [source_square(midpoint, peak, p, duty, 0)] with an
    integer period [p >= 1] below [2^53], call number [n] returns
    [midpoint] if the double nearest to [(n mod p) / p] is below the duty
    and [peak] otherwise: the comparison is made on the rounded quotient.
    A duty of 0 or less gives [peak] on every call, a duty of 1 or more
    gives [midpoint] on every call. *)
Theorem square_duty_cycle `{L : Libm} (h : heap) (s0 : Signal)
    (midpoint peak duty : Q) (p : positive) (n : nat) :
  (Zpos p < 2 ^ 53)%Z ->
  let s := source_square s0 midpoint peak (inject_Z (Zpos p)) duty 0 in
  let m := (Z.of_nat n mod Zpos p)%Z in
  nth_sample n h s
  = Ok (if Qltb (rnd64 (inject_Z m / inject_Z (Zpos p))) duty
        then midpoint else peak)
  /\ (duty <= 0 -> nth_sample n h s = Ok peak)
  /\ (1 <= duty -> nth_sample n h s = Ok midpoint).
Proof.
  intros B s m.
  assert (0 <= m < Zpos p)%Z as Mr by (apply Z.mod_pos_bound; lia).
  assert (0 < inject_Z (Zpos p)) as Pp
    by (change 0 with (inject_Z 0); rewrite <- Zlt_Qlt; lia).
  assert (nth_sample n h s
          = Ok (if Qltb (rnd64 (inject_Z m / inject_Z (Zpos p))) duty
                then midpoint else peak)) as E.
  { unfold s. rewrite nth_sample_periodic by reflexivity.
    unfold wave_at. read_fields. cbn [wave_value].
    rewrite (norm_phase_compat _ _ _ _ (phase_after_zero p n B) (Qeq_refl _)).
    rewrite norm_phase_fraction by lia. reflexivity. }
  assert (0 <= inject_Z m) as M0
    by (change 0 with (inject_Z 0); rewrite <- Zle_Qle; lia).
  assert (inject_Z m < inject_Z (Zpos p)) as M1 by (rewrite <- Zlt_Qlt; lia).
  assert (0 <= rnd64 (inject_Z m / inject_Z (Zpos p))) as F0.
  { apply rnd_nonneg; [lia |]. apply Qle_shift_div_l; [exact Pp |]. lra. }
  assert (rnd64 (inject_Z m / inject_Z (Zpos p)) < 1) as F1.
  { apply rnd64_quotient_lt; try assumption; apply is_double_Z; lia. }
  split; [exact E |]. split.
  - intros D. rewrite E.
    replace (Qltb (rnd64 (inject_Z m / inject_Z (Zpos p))) duty) with false;
      [reflexivity |].
    symmetry. apply Qltb_ge. lra.
  - intros D. rewrite E.
    replace (Qltb (rnd64 (inject_Z m / inject_Z (Zpos p))) duty) with true;
      [reflexivity |].
    symmetry. apply Qltb_lt. lra.
Qed.

(** The theorem at period 10 and duty 0.1, the [double] nearest to 1/10:
    call number 1 returns [peak], the quotient [1.0 / 10.0] being that
    same [double]. *)
Lemma square_duty_cycle_witness :
  nth_sample (L:=libm_coarse) 9 ∅ (source_square idle_signal 3 7 (inject_Z 4) 0 0)
  = Ok 7
  /\ nth_sample (L:=libm_coarse) 9 ∅ (source_square idle_signal 3 7 (inject_Z 4) 1 0)
     = Ok 3
  /\ nth_sample (L:=libm_coarse) 1 ∅
       (source_square idle_signal 3 7 (inject_Z 10) (rnd64 (1 # 10)) 0)
     = Ok 7.
Proof.
  destruct (square_duty_cycle (L:=libm_coarse) ∅ idle_signal 3 7 0 4 9 eq_refl)
    as (_ & A & _).
  destruct (square_duty_cycle (L:=libm_coarse) ∅ idle_signal 3 7 1 4 9 eq_refl)
    as (_ & _ & B).
  destruct (square_duty_cycle (L:=libm_coarse) ∅ idle_signal 3 7
              (rnd64 (1 # 10)) 10 1 eq_refl) as (C & _ & _).
  split; [apply A; simpl; lra |]. split; [apply B; simpl; lra |].
  rewrite C. vm_compute. reflexivity.
Defined.

(** ** The range of the waveforms *)

Section Shapes.
Context `{L : Libm}.

(** A level [v2 - q (v2 - v1)] with [q] in [[0, 1]], computed in [float],
    lies between the two levels when the amplitude is not rounded up. *)
Lemma level_within (v1 v2 q : Q) :
  is_float v1 -> is_float v2 -> v1 <= v2 ->
  rnd32 (v2 - v1) <= v2 - v1 -> 0 <= q -> q <= 1 ->
  v1 <= rnd32 (v2 - rnd32 (q * rnd32 (v2 - v1))) /\
  rnd32 (v2 - rnd32 (q * rnd32 (v2 - v1))) <= v2.
Proof.
  intros F1 F2 V R Q0 Q1.
  assert (0 <= rnd32 (v2 - v1)) as PP by (apply rnd_nonneg; [lia | lra]).
  set (pp := rnd32 (v2 - v1)) in *.
  assert (0 <= q * pp) as B0 by (apply Qmult_le_0_compat; lra).
  assert (q * pp <= 1 * pp) as B1 by (apply Qmult_le_compat_r; lra).
  assert (0 <= rnd32 (q * pp)) as C0 by (apply rnd_nonneg; [lia | exact B0]).
  assert (rnd32 (q * pp) <= pp) as C1
    by (apply rnd32_le; [apply is_float_rnd32 | lra]).
  split.
  - apply rnd32_ge; [exact F1 | lra].
  - apply rnd32_le; [exact F2 | lra].
Qed.

Lemma floor_nonneg (x : Q) : 0 <= x -> (0 <= Qfloor x)%Z.
Proof.
  intros H. change 0%Z with (Qfloor 0). now apply Qfloor_resp_le.
Qed.

(** The integer part of a phase in [[0, period)] does not exceed the
    divisor the floor rule names. *)
Lemma spec_int_phase_le (period phase : Q) :
  0 <= phase -> phase < period ->
  0 <= inject_Z (Qfloor phase) /\
  inject_Z (Qfloor phase) <= spec_max_int_phase period phase.
Proof.
  intros P0 P1. unfold spec_max_int_phase, frac.
  pose proof (Qfloor_le phase) as Fl. pose proof (Qlt_floor phase) as Fh.
  pose proof (Qfloor_le period) as Gl. pose proof (Qlt_floor period) as Gh.
  rewrite inject_Z_plus in Fh, Gh. change (inject_Z 1) with 1 in Fh, Gh.
  split.
  - change 0 with (inject_Z 0). rewrite <- Zle_Qle. now apply floor_nonneg.
  - destruct (Qle_bool (period - inject_Z (Qfloor period))
                (phase - inject_Z (Qfloor phase))) eqn:C.
    + apply Qle_bool_iff in C.
      assert (inject_Z (Qfloor phase) < inject_Z (Qfloor period)) as Lt by lra.
      rewrite <- Zlt_Qlt in Lt.
      assert (inject_Z (Qfloor phase + 1) <= inject_Z (Qfloor period)) as Le
        by (rewrite <- Zle_Qle; lia).
      rewrite inject_Z_plus in Le. change (inject_Z 1) with 1 in Le. lra.
    + assert (inject_Z (Qfloor phase) < inject_Z (Qfloor period + 1)) as Lt
        by (rewrite inject_Z_plus; change (inject_Z 1) with 1; lra).
      rewrite <- Zlt_Qlt in Lt. rewrite <- Zle_Qle. lia.
Qed.

(** The divisor of the floor rule is the largest integer that, with the
    fractional part of the phase added, stays below the period. *)
Lemma spec_max_int_phase_reach (period phase : Q) :
  exists M : Z,
    spec_max_int_phase period phase == inject_Z M /\
    inject_Z M + frac phase < period /\
    forall j : Z, inject_Z j + frac phase < period -> (j <= M)%Z.
Proof.
  unfold spec_max_int_phase.
  destruct (frac_bounds phase) as [B0 B1].
  pose proof (Qfloor_le period) as Gl. pose proof (Qlt_floor period) as Gh.
  rewrite inject_Z_plus in Gh. change (inject_Z 1) with 1 in Gh.
  destruct (Qle_bool (frac period) (frac phase)) eqn:C.
  - apply Qle_bool_iff in C. unfold frac at 1 in C.
    exists (Qfloor period - 1)%Z.
    assert (inject_Z (Qfloor period - 1) == inject_Z (Qfloor period) - 1) as E.
    { unfold Z.sub. rewrite inject_Z_plus, inject_Z_opp. reflexivity. }
    split; [now rewrite E |]. split.
    + rewrite E. lra.
    + intros j Hj.
      assert (inject_Z j < inject_Z (Qfloor period)) as Lt by lra.
      rewrite <- Zlt_Qlt in Lt. lia.
  - apply Qle_bool_false in C. unfold frac at 2 in C.
    exists (Qfloor period). split; [reflexivity |]. split.
    + lra.
    + intros j Hj.
      assert (inject_Z j < inject_Z (Qfloor period + 1)) as Lt
        by (rewrite inject_Z_plus; change (inject_Z 1) with 1; lra).
      rewrite <- Zlt_Qlt in Lt. lia.
Qed.

End Shapes.

(** X14.  For a sawtooth source whose stored phase and period are exactly
    representable as [float], with the phase in [[0, period)] and the
    period at most [2^24], the integer phase never exceeds the divisor
    [max_int_phase]; so, when that divisor is above 0 (as it is for every
    period of at least 2), the [float] levels satisfy [midpoint <= peak]
    and their difference is not rounded up, the sample lies in
    [[midpoint, peak]]. *)
Theorem sawtooth_range `{L : Libm} (h : heap) (s : Signal) :
  m_src s = SRC_SAWTOOTH ->
  m_src_v1 s <= m_src_v2 s ->
  is_float (m_src_v1 s) -> is_float (m_src_v2 s) ->
  rnd32 (m_src_v2 s - m_src_v1 s) <= m_src_v2 s - m_src_v1 s ->
  levels_bounded s ->
  0 <= m_src_phase s -> m_src_phase s < m_src_period s ->
  m_src_period s <= 2 ^ 24 ->
  is_float (m_src_phase s) -> is_float (m_src_period s) ->
  let int_phase := inject_Z (trunc (rnd32 (m_src_phase s))) in
  let max_int_phase :=
    sawtooth_max_int_phase (m_src_period s) (m_src_phase s) in
  (0 <= int_phase /\ int_phase <= max_int_phase)
  /\ (2 <= m_src_period s -> 0 < max_int_phase)
  /\ (0 < max_int_phase ->
      exists v s',
        get_sample h s = Ok (v, s') /\ m_src_v1 s <= v /\ v <= m_src_v2 s).
Proof.
  intros K V F1 F2 R _ P0 P1 P2 FP FR int_phase max_int_phase.
  assert (0 <= m_src_period s) as R0 by lra.
  pose proof (sawtooth_max_int_phase_spec _ _ P0 R0 P2 FP FR) as M.
  fold max_int_phase in M.
  pose proof (trunc_float _ P0 FP) as T.
  destruct (spec_int_phase_le _ _ P0 P1) as [B0 B1].
  assert (0 <= int_phase /\ int_phase <= max_int_phase) as B.
  { unfold int_phase. rewrite T, M. split; assumption. }
  split; [exact B |]. split.
  - intros G. rewrite M. unfold spec_max_int_phase.
    assert (inject_Z 2 <= inject_Z (Qfloor (m_src_period s))) as F.
    { rewrite <- Zle_Qle. change 2%Z with (Qfloor 2).
      now apply Qfloor_resp_le. }
    change (inject_Z 2) with 2 in F.
    destruct (Qle_bool _ _); lra.
  - intros MP. eexists _, _. split; [apply get_sample_sawtooth; exact K |].
    unfold sawtooth_sample. fold int_phase max_int_phase.
    destruct B as [I0 I1].
    apply level_within; try assumption.
    + apply rnd_nonneg; [lia |]. apply Qle_shift_div_l; lra.
    + apply rnd32_le; [apply (is_float_Z 1); reflexivity |].
      apply Qle_shift_div_r; lra.
Qed.

Lemma sawtooth_range_witness :
  let s := source_sawtooth idle_signal 0 1 (201 # 2) (3 # 4) in
  exists v s',
    get_sample (L:=libm_coarse) ∅ s = Ok (v, s') /\ 0 <= v /\ v <= 1.
Proof.
  intros s.
  destruct (sawtooth_range (L:=libm_coarse) ∅ s) as (_ & A & B);
    [reflexivity | simpl; lra | vm_compute; reflexivity
    | vm_compute; reflexivity | vm_compute; discriminate
    | split; vm_compute; discriminate | simpl; lra | reflexivity
    | vm_compute; discriminate | vm_compute; reflexivity
    | vm_compute; reflexivity |].
  apply B. apply A. simpl. lra.
Defined.

(** X21.  The comment in the sawtooth branch, made exact: for a phase and
    a period that are exactly representable as [float], not negative and
    at most [2^24], the divisor [max_int_phase] the code computes is the
    largest integer [j] for which [j + frac_phase], a phase with the
    fractional part of the current one, is still below the period. *)
Theorem sawtooth_divisor_reach (period phase : Q) :
  0 <= phase -> 0 <= period -> period <= 2 ^ 24 ->
  is_float phase -> is_float period ->
  exists M : Z,
    sawtooth_max_int_phase period phase == inject_Z M /\
    inject_Z M + frac phase < period /\
    forall j : Z, inject_Z j + frac phase < period -> (j <= M)%Z.
Proof.
  intros P0 R0 R1 FP FR.
  destruct (spec_max_int_phase_reach period phase) as (M & E & A & B).
  exists M. split; [| split; assumption].
  rewrite (sawtooth_max_int_phase_spec _ _ P0 R0 R1 FP FR). exact E.
Qed.

Lemma sawtooth_divisor_reach_witness :
  (exists M : Z,
      sawtooth_max_int_phase (201 # 2) (1 # 4) == inject_Z M /\
      inject_Z M + frac (1 # 4) < 201 # 2 /\
      forall j : Z, inject_Z j + frac (1 # 4) < 201 # 2 -> (j <= M)%Z)
  /\ sawtooth_max_int_phase (201 # 2) (1 # 4) == 100
  /\ sawtooth_max_int_phase (201 # 2) (3 # 4) == 99.
Proof.
  split; [| split; vm_compute; reflexivity].
  apply (sawtooth_divisor_reach (201 # 2) (1 # 4));
    [simpl; lra | simpl; lra | vm_compute; discriminate
    | vm_compute; reflexivity | vm_compute; reflexivity].
Defined.

Section Ramp.
Context `{L : Libm}.

Lemma frac_Z (z : Z) : frac (inject_Z z) == 0.
Proof. unfold frac. rewrite Qfloor_Z. ring. Qed.

(** The sawtooth at an integer phase [m] of an integer period [p], both
    small enough to be [float] values. *)
Lemma sawtooth_sample_integer (v2 pp : Q) (p : positive) (m : Z) :
  (0 <= m < 2 ^ 24)%Z -> (Zpos p < 2 ^ 24)%Z ->
  sawtooth_sample v2 (inject_Z (Zpos p)) (inject_Z m) pp
  = rnd32 (v2 - rnd32 (rnd32 (inject_Z m / inject_Z (Zpos p - 1)) * pp)).
Proof.
  intros Hm Hp. unfold sawtooth_sample.
  assert (0 <= inject_Z m) as M0
    by (change 0 with (inject_Z 0); rewrite <- Zle_Qle; lia).
  assert (is_float (inject_Z m)) as FM by (apply is_float_Z; lia).
  assert (is_float (inject_Z (Zpos p))) as FP by (apply is_float_Z; lia).
  assert (0 <= inject_Z (Zpos p)) as P0 by discriminate.
  assert (inject_Z (Zpos p) <= 2 ^ 24) as P1.
  { change (2 ^ 24) with (inject_Z (2 ^ 24)). rewrite <- Zle_Qle. lia. }
  rewrite (trunc_float _ M0 FM), Qfloor_Z.
  assert (sawtooth_max_int_phase (inject_Z (Zpos p)) (inject_Z m)
          == inject_Z (Zpos p - 1)) as E.
  { rewrite (sawtooth_max_int_phase_spec _ _ M0 P0 P1 FM FP).
    unfold spec_max_int_phase.
    rewrite (Qle_bool_proper _ _ _ _ (frac_Z (Zpos p)) (frac_Z m)).
    change (Qle_bool 0 0) with true. cbv iota. rewrite Qfloor_Z.
    unfold Z.sub. rewrite inject_Z_plus, inject_Z_opp. reflexivity. }
  rewrite (rnd32_compat
             (inject_Z m / sawtooth_max_int_phase (inject_Z (Zpos p)) (inject_Z m))
             (inject_Z m / inject_Z (Zpos p - 1))) by now rewrite E.
  reflexivity.
Qed.

End Ramp.

(** X15.  After [source_sawtooth(midpoint, peak, p, 0)] with an integer
    period [2 <= p < 2^24], call number [n] returns the single-precision
    value of [peak - ((n mod p) / (p - 1)) (peak - midpoint)]: the wave
    starts each cycle at [peak] and comes down in [p - 1] steps, reaching
    [peak - (peak - midpoint)] on the last call of the cycle, which is
    [midpoint] when the [float] difference of the levels is exact. *)
Theorem sawtooth_ramp `{L : Libm} (h : heap) (s0 : Signal)
    (midpoint peak : Q) (p : positive) (n : nat) :
  (2 <= Zpos p < 2 ^ 24)%Z ->
  let s := source_sawtooth s0 midpoint peak (inject_Z (Zpos p)) 0 in
  let m := (Z.of_nat n mod Zpos p)%Z in
  levels_bounded s ->
  exists v,
    nth_sample n h s = Ok v /\
    v = rnd32 (peak - rnd32 (rnd32 (inject_Z m / inject_Z (Zpos p - 1))
                             * rnd32 (peak - midpoint))) /\
    (m = 0%Z -> is_float peak -> v == peak) /\
    (m = (Zpos p - 1)%Z -> v = rnd32 (peak - rnd32 (peak - midpoint))) /\
    (m = (Zpos p - 1)%Z -> is_float midpoint ->
     rnd32 (peak - midpoint) == peak - midpoint -> v == midpoint).
Proof.
  intros P2 s m _.
  assert (0 <= m < Zpos p)%Z as Mr by (apply Z.mod_pos_bound; lia).
  assert (nth_sample n h s
          = Ok (rnd32 (peak - rnd32 (rnd32 (inject_Z m / inject_Z (Zpos p - 1))
                                     * rnd32 (peak - midpoint))))) as E.
  { unfold s. rewrite nth_sample_periodic by reflexivity. f_equal.
    unfold wave_at. read_fields. cbn [wave_value].
    rewrite (sawtooth_sample_compat peak (inject_Z (Zpos p)) _ _ _
               (phase_after_zero p n ltac:(lia))).
    apply sawtooth_sample_integer; lia. }
  eexists. split; [exact E |]. split; [reflexivity |].
  assert (~ inject_Z (Zpos p - 1) == 0) as NZ.
  { change 0 with (inject_Z 0). rewrite inject_Z_injective. lia. }
  assert (m = (Zpos p - 1)%Z ->
          rnd32 (peak - rnd32 (rnd32 (inject_Z m / inject_Z (Zpos p - 1))
                               * rnd32 (peak - midpoint)))
          = rnd32 (peak - rnd32 (peak - midpoint))) as Last.
  { intros ->.
    rewrite (rnd32_compat (inject_Z (Zpos p - 1) / inject_Z (Zpos p - 1)) 1)
      by (field; exact NZ).
    change (rnd32 1) with 1.
    rewrite (rnd32_compat (1 * rnd32 (peak - midpoint)) (rnd32 (peak - midpoint)))
      by ring.
    now rewrite rnd32_idem. }
  split; [| split].
  - intros -> FP.
    rewrite (rnd32_compat (inject_Z 0 / inject_Z (Zpos p - 1)) 0)
      by (change (inject_Z 0) with 0; field; exact NZ).
    change (rnd32 0) with 0.
    rewrite (rnd32_compat (0 * rnd32 (peak - midpoint)) 0) by ring.
    change (rnd32 0) with 0.
    rewrite (rnd32_compat (peak - 0) peak) by ring. exact FP.
  - exact Last.
  - intros Hm FM Ex. rewrite (Last Hm).
    rewrite (rnd32_compat (peak - rnd32 (peak - midpoint)) midpoint)
      by (rewrite Ex; ring).
    exact FM.
Qed.

Lemma sawtooth_ramp_witness :
  exists v,
    nth_sample (L:=libm_coarse) 7 ∅ (source_sawtooth idle_signal 0 1 (inject_Z 4) 0)
    = Ok v /\ v == 0.
Proof.
  destruct (sawtooth_ramp (L:=libm_coarse) ∅ idle_signal 0 1 4 7)
    as (v & G & _ & _ & _ & A);
    [lia | split; vm_compute; discriminate |].
  exists v. split; [exact G |].
  apply A; vm_compute; reflexivity.
Defined.

(** X16.  For a stairstep source with a stored phase strictly between
    [-period] and [period], the sample is the single-precision value of
    [peak - k (peak - midpoint) / 9] for an integer level [k] between 0
    and 10, the floor of ten times the normalised phase converted to
    [float]: level 0 is [peak], and level 10, reached when the product
    rounds up to 10, lies a step below level 9. *)
Theorem stairstep_levels `{L : Libm} (h : heap) (s : Signal) :
  m_src s = SRC_STAIRSTEP ->
  0 < m_src_period s ->
  - m_src_period s < m_src_phase s -> m_src_phase s < m_src_period s ->
  levels_bounded s ->
  let k := Qfloor (rnd32 (rnd64 (norm_phase (m_src_phase s) (m_src_period s)
                                 * 10))) in
  exists v s',
    get_sample h s = Ok (v, s') /\
    v = rnd32 (m_src_v2 s
               - rnd32 (rnd32 (inject_Z k * rnd32 (m_src_v2 s - m_src_v1 s)) / 9)) /\
    (0 <= k <= 10)%Z /\
    (k = 0%Z -> is_float (m_src_v2 s) -> v == m_src_v2 s).
Proof.
  intros K Hp Lo Hi _ k. eexists _, _.
  split; [apply get_sample_periodic; rewrite K; reflexivity |].
  unfold wave_at. rewrite K. cbn [wave_value]. unfold floorf. fold k.
  destruct (norm_phase_unit _ _ Hp Lo Hi) as [N0 N1].
  split; [reflexivity |]. split.
  - split.
    + apply floor_nonneg. apply rnd_nonneg; [lia |].
      apply rnd_nonneg; [lia | lra].
    + change 10%Z with (Qfloor 10). apply Qfloor_resp_le.
      apply rnd32_le; [apply (is_float_Z 10); reflexivity |].
      apply rnd64_le; [apply (is_double_Z 10); reflexivity | lra].
  - intros -> F2.
    rewrite (rnd32_compat (inject_Z 0 * rnd32 (m_src_v2 s - m_src_v1 s)) 0)
      by (change (inject_Z 0) with 0; ring).
    change (rnd32 0) with 0.
    rewrite (rnd32_compat (0 / 9) 0) by reflexivity.
    change (rnd32 0) with 0.
    rewrite (rnd32_compat (m_src_v2 s - 0) (m_src_v2 s)) by ring. exact F2.
Qed.

(** The theorem at period [3 * 10^7] and stored phase [period - 1]: ten
    times the normalised phase is below 10 by less than a [float] can
    tell, the level is 10, and the sample [9 - 10] is below the lower
    level 0. *)
Lemma stairstep_levels_witness :
  let s := source_stairstep idle_signal 0 9 30000000 29999999 in
  exists v s',
    get_sample (L:=libm_coarse) ∅ s = Ok (v, s') /\
    v = -1 /\ v < m_src_v1 s.
Proof.
  intros s.
  destruct (stairstep_levels (L:=libm_coarse) ∅ s) as (v & s' & G & E & _);
    [reflexivity | reflexivity | reflexivity | reflexivity
    | split; vm_compute; discriminate |].
  exists v, s'. split; [exact G |]. rewrite E.
  split; vm_compute; reflexivity.
Defined.

Section Sine.
Context `{L : Libm}.

(** Twice a [double] is a [double]. *)
Lemma is_double_twice (x : Q) : is_double x -> is_double (2 * x).
Proof.
  rewrite !is_double_representable. intros (m & E & H & Hm & HE).
  exists m, (E + 1)%Z. split; [| split; [exact Hm | lia]].
  rewrite H, pow2_succ. ring.
Qed.

(** The sine sample as a function of the cosine is monotone. *)
Lemma sine_value_mono (v1 pp c c' : Q) :
  0 <= pp -> c <= c' ->
  rnd32 (rnd64 (v1 + rnd64 (rnd64 (rnd64 (1 + c) * pp) / 2)))
  <= rnd32 (rnd64 (v1 + rnd64 (rnd64 (rnd64 (1 + c') * pp) / 2))).
Proof.
  intros Hp Hc. apply rnd32_mono, rnd64_mono.
  assert (rnd64 (1 + c) <= rnd64 (1 + c')) as A by (apply rnd64_mono; lra).
  assert (rnd64 (rnd64 (1 + c) * pp) <= rnd64 (rnd64 (1 + c') * pp)) as B.
  { apply rnd64_mono. now apply Qmult_le_compat_r. }
  assert (rnd64 (rnd64 (rnd64 (1 + c) * pp) / 2)
          <= rnd64 (rnd64 (rnd64 (1 + c') * pp) / 2)) as C.
  { apply rnd64_mono. unfold Qdiv. apply Qmult_le_compat_r; [exact B |].
    discriminate. }
  lra.
Qed.

(** At cosine 1 the sample is the rounded sum of the lower level and the
    rounded amplitude, at cosine -1 the lower level. *)
Lemma sine_value_top (v1 pp : Q) :
  is_float pp ->
  rnd32 (rnd64 (v1 + rnd64 (rnd64 (rnd64 (1 + 1) * pp) / 2)))
  = rnd32 (rnd64 (v1 + pp)).
Proof.
  intros F. f_equal. apply rnd64_compat.
  change (rnd64 (1 + 1)) with 2.
  pose proof (is_float_double _ F) as D.
  pose proof (is_double_twice _ D) as D2. unfold is_double in D, D2.
  rewrite (rnd64_compat (rnd64 (2 * pp) / 2) pp)
    by (rewrite D2; field).
  now rewrite D.
Qed.

Lemma sine_value_bottom (v1 pp : Q) :
  rnd32 (rnd64 (v1 + rnd64 (rnd64 (rnd64 (1 + -1) * pp) / 2)))
  = rnd32 (rnd64 v1).
Proof.
  f_equal. apply rnd64_compat.
  change (rnd64 (1 + -1)) with 0.
  rewrite (rnd64_compat (0 * pp) 0) by ring. change (rnd64 0) with 0.
  rewrite (rnd64_compat (0 / 2) 0) by reflexivity. change (rnd64 0) with 0.
  ring.
Qed.

End Sine.

(** X17.  The sample of a sine source is
    [midpoint + (1 + c) (peak - midpoint) / 2] for the cosine [c] the
    library returns, computed in [double] with the amplitude rounded to
    [float] and the sum rounded to [float].  For a stored phase strictly
    between [-period] and [period], [float] levels with
    [midpoint <= peak] and [c] in [[-1, 1]] it lies between [midpoint] and
    [top], the rounded sum of [midpoint] and the rounded amplitude; it is
    [top] for [c = 1] and [midpoint] for [c = -1]; and [top] is at most
    [peak] when the amplitude is not rounded up. *)
Theorem sine_range `{L : Libm} (h : heap) (s : Signal) :
  m_src s = SRC_SINE ->
  m_src_v1 s <= m_src_v2 s ->
  is_float (m_src_v1 s) -> is_float (m_src_v2 s) ->
  levels_bounded s ->
  0 < m_src_period s ->
  - m_src_period s < m_src_phase s -> m_src_phase s < m_src_period s ->
  let c := cos (rnd64 (rnd64 (norm_phase (m_src_phase s) (m_src_period s) * 2)
                       * M_PI)) in
  let top := rnd32 (rnd64 (m_src_v1 s + rnd32 (m_src_v2 s - m_src_v1 s))) in
  -1 <= c -> c <= 1 ->
  exists v s',
    get_sample h s = Ok (v, s') /\
    m_src_v1 s <= v /\ v <= top /\
    (c == 1 -> v = top) /\ (c == -1 -> v == m_src_v1 s) /\
    (rnd32 (m_src_v2 s - m_src_v1 s) <= m_src_v2 s - m_src_v1 s ->
     top <= m_src_v2 s).
Proof.
  intros K V F1 F2 _ _ _ _ c top C0 C1. eexists _, _.
  split; [apply get_sample_periodic; rewrite K; reflexivity |].
  unfold wave_at. rewrite K. cbn [wave_value]. fold c.
  assert (0 <= rnd32 (m_src_v2 s - m_src_v1 s)) as PP
    by (apply rnd_nonneg; [lia | lra]).
  pose proof (is_float_rnd32 (m_src_v2 s - m_src_v1 s)) as FPP.
  set (pp := rnd32 (m_src_v2 s - m_src_v1 s)) in *.
  pose proof (sine_value_mono (m_src_v1 s) pp (-1) c PP C0) as Lo.
  pose proof (sine_value_mono (m_src_v1 s) pp c 1 PP C1) as Hi.
  rewrite sine_value_bottom in Lo. rewrite (sine_value_top _ _ FPP) in Hi.
  pose proof (is_float_double _ F1) as D1. unfold is_double in D1.
  assert (rnd32 (rnd64 (m_src_v1 s)) == m_src_v1 s) as E1
    by (rewrite (rnd32_compat _ _ D1); exact F1).
  split; [now rewrite <- E1 at 1 |]. split; [exact Hi |].
  split; [| split].
  - intros E.
    rewrite (rnd64_compat (1 + c) (1 + 1)) by now rewrite E.
    now apply sine_value_top.
  - intros E.
    rewrite (rnd64_compat (1 + c) (1 + -1)) by now rewrite E.
    rewrite sine_value_bottom. exact E1.
  - intros R. now apply triangle_top.
Qed.

Lemma sine_range_witness :
  let s := source_sine idle_signal 0 1 8 0 in
  exists v s',
    get_sample (L:=libm_coarse) ∅ s = Ok (v, s') /\ 0 <= v /\ v <= 1 /\ v = 1.
Proof.
  intros s.
  destruct (sine_range (L:=libm_coarse) ∅ s)
    as (v & s' & G & A & B & C & _ & D);
    [reflexivity | simpl; lra | vm_compute; reflexivity
    | vm_compute; reflexivity | split; vm_compute; discriminate
    | reflexivity | reflexivity | reflexivity
    | vm_compute; discriminate | vm_compute; discriminate |].
  exists v, s'. split; [exact G |]. split; [exact A |].
  split; [| apply C; vm_compute; reflexivity].
  apply Qle_trans with (1 := B). apply D. vm_compute. discriminate.
Defined.

(** X20.  After [source_triangle(midpoint, peak, p, 0)] with an integer
    period [p >= 1] below [2^53], call number [n] returns the value of
    [midpoint + |1 - 2 norm_phase| (peak - midpoint)] at the double
    nearest to [(n mod p) / p]: on the first call of each cycle the
    rounded sum of [midpoint] and the rounded amplitude, which is [peak]
    when the [float] difference of the levels is exact, and, for an even
    period, [midpoint] half a cycle later. *)
Theorem triangle_shape `{L : Libm} (h : heap) (s0 : Signal)
    (midpoint peak : Q) (p : positive) (n : nat) :
  (Zpos p < 2 ^ 53)%Z ->
  let s := source_triangle s0 midpoint peak (inject_Z (Zpos p)) 0 in
  let m := (Z.of_nat n mod Zpos p)%Z in
  levels_bounded s ->
  exists v,
    nth_sample n h s = Ok v /\
    v = spec_triangle midpoint peak (rnd64 (inject_Z m / inject_Z (Zpos p))) /\
    (m = 0%Z -> v = rnd32 (rnd64 (midpoint + rnd32 (peak - midpoint)))) /\
    (m = 0%Z -> is_float peak ->
     rnd32 (peak - midpoint) == peak - midpoint -> v == peak) /\
    ((2 * m)%Z = Zpos p -> is_float midpoint -> v == midpoint).
Proof.
  intros B s m _.
  assert (0 <= m < Zpos p)%Z as Mr by (apply Z.mod_pos_bound; lia).
  assert (~ inject_Z (Zpos p) == 0) as NZ.
  { change 0 with (inject_Z 0). rewrite inject_Z_injective. lia. }
  set (np := rnd64 (inject_Z m / inject_Z (Zpos p))).
  assert (nth_sample n h s = Ok (spec_triangle midpoint peak np)) as E.
  { unfold s. rewrite nth_sample_periodic by reflexivity. f_equal.
    unfold wave_at. read_fields. cbn [wave_value].
    rewrite (norm_phase_compat _ _ _ _ (phase_after_zero p n B) (Qeq_refl _)).
    fold m. rewrite norm_phase_fraction by lia. fold np.
    unfold spec_triangle, fabs.
    rewrite (rnd64_compat (np * 2) (2 * np)) by ring. reflexivity. }
  eexists. split; [exact E |]. split; [reflexivity |].
  pose proof (is_float_double _ (is_float_rnd32 (peak - midpoint))) as DPP.
  unfold is_double in DPP.
  assert (m = 0%Z ->
          spec_triangle midpoint peak np
          = rnd32 (rnd64 (midpoint + rnd32 (peak - midpoint)))) as First.
  { intros M0. unfold spec_triangle. f_equal. apply rnd64_compat.
    assert (np = 0) as ->.
    { unfold np. rewrite M0.
      rewrite (rnd64_compat (inject_Z 0 / inject_Z (Zpos p)) 0)
        by (change (inject_Z 0) with 0; field; exact NZ).
      reflexivity. }
    rewrite (rnd64_compat (2 * 0) 0) by ring. change (rnd64 0) with 0.
    rewrite (rnd64_compat (1 - 0) 1) by ring. change (rnd64 1) with 1.
    change (Qabs 1) with 1.
    rewrite (rnd64_compat (1 * rnd32 (peak - midpoint))
                          (rnd32 (peak - midpoint))) by ring.
    now rewrite DPP. }
  split; [exact First |]. split.
  - intros M0 FP Ex. rewrite (First M0).
    rewrite (rnd64_compat (midpoint + rnd32 (peak - midpoint)) peak)
      by (rewrite Ex; ring).
    pose proof (is_float_double _ FP) as DP. unfold is_double in DP.
    rewrite (rnd32_compat _ _ DP). exact FP.
  - intros Half FM. unfold spec_triangle.
    assert (np = 1 # 2) as ->.
    { unfold np.
      rewrite (rnd64_compat (inject_Z m / inject_Z (Zpos p)) (1 # 2)).
      - reflexivity.
      - rewrite <- Half, inject_Z_mult. change (inject_Z 2) with 2.
        field. intros M0. apply NZ. rewrite <- Half, inject_Z_mult.
        change (inject_Z 2) with 2. rewrite M0. ring. }
    rewrite (rnd64_compat (2 * (1 # 2)) 1) by reflexivity.
    change (rnd64 1) with 1.
    rewrite (rnd64_compat (1 - 1) 0) by reflexivity. change (rnd64 0) with 0.
    change (Qabs 0) with 0.
    rewrite (rnd64_compat (0 * rnd32 (peak - midpoint)) 0) by ring.
    change (rnd64 0) with 0.
    rewrite (rnd64_compat (midpoint + 0) midpoint) by ring.
    pose proof (is_float_double _ FM) as DM. unfold is_double in DM.
    rewrite (rnd32_compat _ _ DM). exact FM.
Qed.

(** The theorem at levels [-2^24] and 3: the first sample of the cycle is
    4, the [float] amplitude [2^24 + 4] above the lower level, and the
    sample half a cycle later is the lower level. *)
Lemma triangle_shape_witness :
  (exists v,
      nth_sample (L:=libm_coarse) 8 ∅
        (source_triangle idle_signal (-16777216) 3 (inject_Z 4) 0) = Ok v /\
      v = 4)
  /\ (exists v,
        nth_sample (L:=libm_coarse) 10 ∅
          (source_triangle idle_signal (-16777216) 3 (inject_Z 4) 0) = Ok v /\
        v == -16777216).
Proof.
  split.
  - destruct (triangle_shape (L:=libm_coarse) ∅ idle_signal (-16777216) 3 4 8)
      as (v & G & _ & A & _);
      [reflexivity | split; vm_compute; discriminate |].
    exists v. split; [exact G |]. rewrite A by reflexivity.
    vm_compute. reflexivity.
  - destruct (triangle_shape (L:=libm_coarse) ∅ idle_signal (-16777216) 3 4 10)
      as (v & G & _ & _ & _ & A);
      [reflexivity | split; vm_compute; discriminate |].
    exists v. split; [exact G |]. apply A; vm_compute; reflexivity.
Defined.
